(** * Wamanon: the transcript parser and media linker of [streamlit_wachat_app.py]

    A shallow embedding of the parsing and linking core of the viewer
    ([parse_datetime], [parse_chat_text], [link_attachments], the merge of
    conversations with the same id) together with the parts of the Python
    standard library it calls ([str] methods, [re], [datetime.strptime]). *)

From Stdlib Require Import Ascii String.
From Stdlib Require Import List NArith Bool Arith Lia.
From Stdlib Require Import Permutation Sorted.
From Stdlib Require Strings.Byte DecimalString.
Import ListNotations.

Local Open Scope N_scope.

(** ** Python strings

    A Python [str] is a sequence of Unicode code points. *)

Definition cp := N.
Definition str := list cp.

Module Utf8.

(** Literals are written as UTF-8 text and decoded to code points, so that
    the constants of the source can be written the way the source has them. *)

Fixpoint bytes (s : string) : list N :=
  match s with
  | EmptyString => []
  | String a s' => N_of_ascii a :: bytes s'
  end.

Definition cont (b : N) : N := (b - 128).

Fixpoint decode (bs : list N) : str :=
  match bs with
  | [] => []
  | b0 :: t =>
      if (b0 <? 128) then b0 :: decode t
      else if (b0 <? 224) then
        match t with
        | b1 :: t1 => ((b0 - 192) * 64 + cont b1) :: decode t1
        | _ => []
        end
      else if (b0 <? 240) then
        match t with
        | b1 :: b2 :: t2 =>
            ((b0 - 224) * 4096 + cont b1 * 64 + cont b2) :: decode t2
        | _ => []
        end
      else
        match t with
        | b1 :: b2 :: b3 :: t3 =>
            ((b0 - 240) * 262144 + cont b1 * 4096 + cont b2 * 64 + cont b3)
              :: decode t3
        | _ => []
        end
  end.

End Utf8.

(** [u "text"] is the Python literal ["text"]. *)
Definition u (s : string) : str := Utf8.decode (Utf8.bytes s).

Definition str_eqb (a b : str) : bool :=
  if list_eq_dec N.eq_dec a b then true else false.

(** Named code points used by the source. *)
Definition LF : cp := 10.
Definition SPACE : cp := 32.
Definition COLON : cp := 58.
Definition NBSP : cp := 160.        (* U+00A0 no-break space *)
Definition LRM : cp := 8206.        (* U+200E left-to-right mark *)
Definition RLM : cp := 8207.        (* U+200F right-to-left mark *)
Definition NNBSP : cp := 8239.      (* U+202F narrow no-break space *)

(** ** The Unicode character database

    [str.isspace] (also the class [\s] of [re] and the characters removed by
    [str.strip()]) is a short table, fixed since Unicode 6.3. *)

Definition in_range (lo hi c : cp) : bool := ((lo <=? c) && (c <=? hi)).

Definition isspace (c : cp) : bool :=
  in_range 9 13 c || in_range 28 32 c || (c =? 133) || (c =? 160)
  || (c =? 5760) || in_range 8192 8202 c || in_range 8232 8233 c
  || (c =? 8239) || (c =? 8287) || (c =? 12288).

(** The decimal digits, the alphanumeric characters and the case mappings
    outside Basic Latin are long tables that change with the version of the
    interpreter.  The development is parametric in them: every definition
    below decides the Basic Latin code points itself and asks the table only
    for code points from U+0080 upwards. *)

Class Unicode := {
  (** value of a code point of category Nd ([str.isdecimal], class [\d]) *)
  decimal_ext : cp -> option N;
  (** [str.isalnum] *)
  alnum_ext : cp -> bool;
  (** full lower-casing of one code point; it sees the text before and after
      it (the final-sigma rule) *)
  lower_ext : str -> cp -> str -> str;
  (** full upper-casing of one code point *)
  upper_ext : cp -> str
}.

Definition is_ascii (c : cp) : bool := (c <? 128).

Section Characters.
Context `{U : Unicode}.

Definition decimal (c : cp) : option N :=
  if is_ascii c then
    if in_range 48 57 c then Some (c - 48) else None
  else decimal_ext c.

Definition isdecimal (c : cp) : bool :=
  match decimal c with Some _ => true | None => false end.

Definition isalnum (c : cp) : bool :=
  if is_ascii c then in_range 48 57 c || in_range 65 90 c || in_range 97 122 c
  else alnum_ext c.

(** class [\w] *)
Definition isword (c : cp) : bool := isalnum c || (c =? 95).

Definition lower_cp (before : str) (c : cp) (after : str) : str :=
  if is_ascii c then [if in_range 65 90 c then (c + 32) else c]
  else lower_ext before c after.

Fixpoint lower_from (before_rev : str) (s : str) : str :=
  match s with
  | [] => []
  | c :: t => lower_cp (rev before_rev) c t ++ lower_from (c :: before_rev) t
  end.

(** [s.lower()] *)
Definition lower (s : str) : str := lower_from [] s.

Definition upper_cp (c : cp) : str :=
  if is_ascii c then [if in_range 97 122 c then (c - 32) else c]
  else upper_ext c.

(** [s.upper()] *)
Definition upper (s : str) : str := flat_map upper_cp s.

End Characters.

(** The table of an interpreter restricted to Basic Latin and the Latin-1
    Supplement (code points below U+0100); the closed examples use it. *)
#[export] Instance latin1 : Unicode := {|
  decimal_ext := fun _ => None;
  alnum_ext := fun c =>
    (c =? 170) || in_range 178 179 c || (c =? 181) || in_range 185 186 c
    || in_range 188 190 c || in_range 192 214 c || in_range 216 246 c
    || in_range 248 255 c;
  lower_ext := fun _ c _ =>
    if (in_range 192 214 c || in_range 216 222 c)%bool then [(c + 32)] else [c];
  upper_ext := fun c =>
    if c =? 223 then [83; 83]
    else if c =? 181 then [924]
    else if c =? 255 then [376]
    else if (in_range 224 246 c || in_range 248 254 c)%bool then [(c - 32)]
    else [c]
|}.

(** ** [str] methods *)

Fixpoint lstrip (s : str) : str :=
  match s with
  | [] => []
  | c :: t => if isspace c then lstrip t else s
  end.

Definition rstrip (s : str) : str := rev (lstrip (rev s)).

(** [s.strip()] *)
Definition strip (s : str) : str := rstrip (lstrip s).

(** [s.replace(old, new)] for a one-character [old] *)
Definition replace (old : cp) (new : str) (s : str) : str :=
  flat_map (fun c => if (c =? old) then new else [c]) s.

Fixpoint starts_with (p s : str) : bool :=
  match p, s with
  | [], _ => true
  | a :: p', b :: s' => (a =? b) && starts_with p' s'
  | _ :: _, [] => false
  end.

(** [needle in hay] *)
Fixpoint contains (needle hay : str) : bool :=
  starts_with needle hay
  || match hay with
     | [] => false
     | _ :: t => contains needle t
     end.

(** The line boundaries of [str.splitlines]. *)
Definition is_linebreak (c : cp) : bool :=
  in_range 10 13 c || in_range 28 30 c || (c =? 133) || in_range 8232 8233 c.

(** [splitlines_from cur s]: [cur] is the line being read, reversed. *)
Fixpoint splitlines_from (cur : str) (s : str) : list str :=
  match s with
  | [] => match cur with [] => [] | _ => [rev cur] end
  | c :: t =>
      if is_linebreak c then
        match c, t with
        | 13, 10 :: t' => rev cur :: splitlines_from [] t'
        | _, _ => rev cur :: splitlines_from [] t
        end
      else splitlines_from (c :: cur) t
  end.

(** [s.splitlines()] *)
Definition splitlines (s : str) : list str := splitlines_from [] s.

(** ** Regular expressions: the fragment of [re] the source uses

    Backtracking matching with Python's priorities.  [run r st] lists, in the
    order in which the engine would try them, all the states in which [r] can
    end when started in [st]; [re.match] takes the first one. *)

Module Re.

(** An item of a character set [[...]]. *)
Inductive citem : Type :=
| IChar (c : cp)
| IRange (lo hi : cp)
| IDigit                      (* \d *)
| ISpace                      (* \s *)
| IWord.                      (* \w *)

Inductive regex : Type :=
| Lit (c : cp)                (* a literal character *)
| LitI (c : cp)               (* a literal under re.IGNORECASE *)
| Any                         (* .  (no DOTALL) *)
| Set_ (negated : bool) (items : list citem)
| Cat (a b : regex)
| Alt (a b : regex)
| Rep (lo : nat) (hi : option nat) (greedy : bool) (a : regex)
| Group (n : nat) (a : regex) (* the capturing group number n *)
| Bol                         (* ^ *)
| Eol                         (* $  (no MULTILINE) *)
| Empty.

Record mstate : Type := {
  m_pos : nat;                    (* characters consumed so far *)
  m_rest : str;                   (* text still to match *)
  m_groups : list (nat * str)     (* captured groups, latest first *)
}.

Definition init (s : str) : mstate :=
  {| m_pos := 0; m_rest := s; m_groups := [] |}.

Fixpoint lookup (n : nat) (gs : list (nat * str)) : option str :=
  match gs with
  | [] => None
  | (k, v) :: gs' => if Nat.eqb k n then Some v else lookup n gs'
  end.

(** [m.group(n)]; an unset group reads as the empty text below, the source
    only reads groups that every match sets. *)
Definition group (n : nat) (st : mstate) : str :=
  match lookup n (m_groups st) with Some v => v | None => [] end.

Definition set_group (n : nat) (v : str) (st : mstate) : mstate :=
  {| m_pos := m_pos st; m_rest := m_rest st; m_groups := (n, v) :: m_groups st |}.

(** Which characters a lower-case literal matches under IGNORECASE: the
    other case, and the three code points whose simple case mapping lands
    in Basic Latin. *)
Definition lit_icase (c x : cp) : bool :=
  (x =? c)
  || (in_range 97 122 c && (x =? c - 32))
  || ((c =? 105) && ((x =? 304) || (x =? 305)))   (* i: U+0130, U+0131 *)
  || ((c =? 107) && (x =? 8490))                   (* k: U+212A *)
  || ((c =? 115) && (x =? 383)).                   (* s: U+017F *)

Section Matching.
Context `{U : Unicode}.

Definition citem_match (i : citem) (x : cp) : bool :=
  match i with
  | IChar c => x =? c
  | IRange lo hi => in_range lo hi x
  | IDigit => isdecimal x
  | ISpace => isspace x
  | IWord => isword x
  end.

Definition set_match (negated : bool) (items : list citem) (x : cp) : bool :=
  xorb negated (existsb (fun i => citem_match i x) items).

(** Consume one character satisfying [p]. *)
Definition one (p : cp -> bool) (st : mstate) : list mstate :=
  match m_rest st with
  | x :: t =>
      if p x then [{| m_pos := S (m_pos st); m_rest := t; m_groups := m_groups st |}]
      else []
  | [] => []
  end.

(** The repetition [a{lo,hi}]: greedy tries one more round before
    stopping, lazy stops before trying one more round.  A round that
    consumes nothing is not repeated. *)
Fixpoint rep (f : mstate -> list mstate) (lo : nat) (hi : option nat)
         (greedy : bool) (fuel : nat) (st : mstate) : list mstate :=
  match fuel with
  | O => []
  | S fuel' =>
      let stop := match lo with O => [st] | S _ => [] end in
      let more :=
        match hi with
        | Some O => []
        | _ =>
            flat_map
              (fun st' =>
                 if Nat.ltb (m_pos st) (m_pos st')
                 then rep f (pred lo) (option_map pred hi) greedy fuel' st'
                 else [])
              (f st)
        end in
      if greedy then more ++ stop else stop ++ more
  end.

Fixpoint run (r : regex) (st : mstate) : list mstate :=
  match r with
  | Lit c => one (fun x => x =? c) st
  | LitI c => one (lit_icase c) st
  | Any => one (fun x => negb (x =? LF)) st
  | Set_ neg items => one (set_match neg items) st
  | Cat a b => flat_map (run b) (run a st)
  | Alt a b => run a st ++ run b st
  | Rep lo hi greedy a => rep (run a) lo hi greedy (S (length (m_rest st))) st
  | Group n a =>
      map (fun st' => set_group n (firstn (m_pos st' - m_pos st) (m_rest st)) st')
          (run a st)
  | Bol => if Nat.eqb (m_pos st) 0 then [st] else []
  | Eol => match m_rest st with
           | [] => [st]
           | [x] => if x =? LF then [st] else []
           | _ => []
           end
  | Empty => [st]
  end.

(** [pattern.match(s)] *)
Definition match_ (r : regex) (s : str) : option mstate :=
  hd_error (run r (init s)).

(** [pattern.finditer(s)]: the matches found scanning left to right,
    each search starting where the previous match ended.  [skip] counts
    the characters of the previous match still to pass over.  (The patterns
    of the source match no empty text.) *)
Fixpoint finditer_from (r : regex) (pos skip : nat) (s : str) : list mstate :=
  match skip with
  | S skip' =>
      match s with
      | [] => []
      | _ :: t => finditer_from r (S pos) skip' t
      end
  | O =>
      match hd_error (run r {| m_pos := pos; m_rest := s; m_groups := [] |}) with
      | Some m =>
          m :: match s with
               | [] => []
               | _ :: t => finditer_from r (S pos) (pred (m_pos m - pos)) t
               end
      | None =>
          match s with
          | [] => []
          | _ :: t => finditer_from r (S pos) 0 t
          end
      end
  end.

Definition finditer (r : regex) (s : str) : list mstate :=
  finditer_from r 0 0 s.

(** [pattern.sub(repl, s)]: every match is replaced by [repl], the text
    between the matches is kept.  (The patterns of the source match no empty
    text.) *)
Fixpoint sub_from (r : regex) (repl : str) (pos skip : nat) (s : str) : str :=
  match s with
  | [] => []
  | c :: t =>
      match skip with
      | S skip' => sub_from r repl (S pos) skip' t
      | O =>
          match hd_error (run r {| m_pos := pos; m_rest := s; m_groups := [] |}) with
          | Some m =>
              if Nat.ltb pos (m_pos m)
              then repl ++ sub_from r repl (S pos) (pred (m_pos m - pos)) t
              else c :: sub_from r repl (S pos) 0 t
          | None => c :: sub_from r repl (S pos) 0 t
          end
      end
  end.

Definition sub (r : regex) (repl : str) (s : str) : str := sub_from r repl 0 0 s.

End Matching.

(** The concrete syntax, piece by piece. *)
Definition cat (rs : list regex) : regex := fold_right Cat Empty rs.
Definition alt (r : regex) (rs : list regex) : regex := fold_left Alt rs r.
Definition lits (s : str) : regex := cat (map Lit s).
Definition star (a : regex) : regex := Rep 0 None true a.        (* a*  *)
Definition plus (a : regex) : regex := Rep 1 None true a.        (* a+  *)
Definition plus_lazy (a : regex) : regex := Rep 1 None false a.  (* a+? *)
Definition opt (a : regex) : regex := Rep 0 (Some 1%nat) true a. (* a?  *)
Definition times (lo hi : nat) (a : regex) : regex := Rep lo (Some hi) true a.
Definition digit : regex := Set_ false [IDigit].                 (* \d *)
Definition space : regex := Set_ false [ISpace].                 (* \s *)

Definition is_letter (c : cp) : bool := in_range 65 90 c || in_range 97 122 c.

(** A literal of a pattern compiled with IGNORECASE. *)
Definition litI (c : cp) : regex :=
  if is_letter c then LitI (if in_range 65 90 c then c + 32 else c) else Lit c.

Definition litsI (s : str) : regex := cat (map litI s).

(** *** [re.compile]

    The reader of the pattern syntax, for the constructs the source uses:
    literals, escaped punctuation, [\d \s \w], [.], [^], [$], sets with
    ranges and negation, groups [( )] and [(?: )], [|], and the quantifiers
    [* + ? {m} {m,n}] with their lazy forms.  It goes through the pattern
    once, character by character, keeping the open groups on a stack. *)

(** An element of a set: a class, or a character (escaped or not). *)
Inductive stok : Type :=
| SClass (i : citem)
| SChar (c : cp) (escaped : bool).

Fixpoint set_items (ts : list stok) : list citem :=
  match ts with
  | [] => []
  | SClass i :: r => i :: set_items r
  | SChar c _ :: r =>
      match r with
      | SChar 45 false :: SChar d _ :: r2 => IRange c d :: set_items r2
      | _ => IChar c :: set_items r
      end
  end.

(** An open group: its number when it captures, the alternatives read so
    far, and the items of the alternative being read, last first. *)
Record frame : Type := {
  f_group : option nat;
  f_alts : list regex;
  f_seq : list regex
}.

Inductive mode : Type :=
| MNormal
| MEscape                                  (* after a backslash *)
| MParen                                   (* after an opening parenthesis *)
| MParenQ                                  (* after the two characters that open (?: *)
| MSet (neg first esc : bool) (toks : list stok)   (* inside a set, elements last first *)
| MBrace (lo : nat) (hi : option (option nat)).    (* inside braces *)

Record reader : Type := {
  r_stack : list frame;
  r_next : nat;              (* the number of the next capturing group *)
  r_mode : mode;
  r_lazy : bool              (* a quantifier has just been read *)
}.

Definition reader0 : reader :=
  {| r_stack := [{| f_group := None; f_alts := []; f_seq := [] |}];
     r_next := 1%nat; r_mode := MNormal; r_lazy := false |}.

Definition seq_of (items : list regex) : regex :=
  match items with
  | [x] => x
  | _ => cat items
  end.

Definition close_frame (f : frame) : regex :=
  let last := seq_of (rev (f_seq f)) in
  let r := match f_alts f with
           | [] => last
           | a :: more => alt a (more ++ [last])
           end in
  match f_group f with
  | Some n => Group n r
  | None => r
  end.

Definition with_mode (rd : reader) (m : mode) : reader :=
  {| r_stack := r_stack rd; r_next := r_next rd; r_mode := m; r_lazy := false |}.

(** Add an item to the alternative being read. *)
Definition push_item (x : regex) (rd : reader) : option reader :=
  match r_stack rd with
  | f :: fs =>
      Some {| r_stack := {| f_group := f_group f; f_alts := f_alts f;
                            f_seq := x :: f_seq f |} :: fs;
              r_next := r_next rd; r_mode := MNormal; r_lazy := false |}
  | [] => None
  end.

(** Put a quantifier on the last item. *)
Definition quantify (lo : nat) (hi : option nat) (rd : reader) : option reader :=
  match r_stack rd with
  | {| f_group := g; f_alts := alts; f_seq := x :: items |} :: fs =>
      Some {| r_stack := {| f_group := g; f_alts := alts;
                            f_seq := Rep lo hi true x :: items |} :: fs;
              r_next := r_next rd; r_mode := MNormal; r_lazy := true |}
  | _ => None
  end.

Definition make_lazy (rd : reader) : option reader :=
  match r_stack rd with
  | {| f_group := g; f_alts := alts; f_seq := Rep lo hi true x :: items |} :: fs =>
      Some {| r_stack := {| f_group := g; f_alts := alts;
                            f_seq := Rep lo hi false x :: items |} :: fs;
              r_next := r_next rd; r_mode := MNormal; r_lazy := false |}
  | _ => None
  end.

Definition open_group (capture : bool) (rd : reader) : reader :=
  {| r_stack := {| f_group := if capture then Some (r_next rd) else None;
                   f_alts := []; f_seq := [] |} :: r_stack rd;
     r_next := if capture then S (r_next rd) else r_next rd;
     r_mode := MNormal; r_lazy := false |}.

Definition close_group (rd : reader) : option reader :=
  match r_stack rd with
  | f :: (_ :: _) as fs =>
      push_item (close_frame f)
                {| r_stack := fs; r_next := r_next rd; r_mode := MNormal; r_lazy := false |}
  | _ => None
  end.

Definition next_alternative (rd : reader) : option reader :=
  match r_stack rd with
  | f :: fs =>
      Some {| r_stack := {| f_group := f_group f;
                            f_alts := f_alts f ++ [seq_of (rev (f_seq f))];
                            f_seq := [] |} :: fs;
              r_next := r_next rd; r_mode := MNormal; r_lazy := false |}
  | [] => None
  end.

Definition class_of (c : cp) : option citem :=
  if c =? 100 then Some IDigit          (* d *)
  else if c =? 115 then Some ISpace     (* s *)
  else if c =? 119 then Some IWord      (* w *)
  else None.

Definition is_alnum_ascii (c : cp) : bool := is_letter c || in_range 48 57 c.

(** One character outside sets, braces and escapes. *)
Definition read_normal (icase : bool) (rd : reader) (c : cp) : option reader :=
  if c =? 92 then Some (with_mode rd MEscape)                 (* backslash *)
  else if c =? 40 then Some (with_mode rd MParen)             (* ( *)
  else if c =? 41 then close_group rd                         (* ) *)
  else if c =? 124 then next_alternative rd                   (* | *)
  else if c =? 91 then Some (with_mode rd (MSet false true false []))   (* [ *)
  else if c =? 123 then Some {| r_stack := r_stack rd; r_next := r_next rd;
                                r_mode := MBrace 0%nat None; r_lazy := false |}   (* { *)
  else if c =? 42 then quantify 0 None rd                     (* * *)
  else if c =? 43 then quantify 1 None rd                     (* + *)
  else if c =? 63 then                                        (* ? *)
    (if r_lazy rd then make_lazy rd else quantify 0 (Some 1%nat) rd)
  else if c =? 46 then push_item Any rd                       (* . *)
  else if c =? 94 then push_item Bol rd                       (* ^ *)
  else if c =? 36 then push_item Eol rd                       (* $ *)
  else if (c =? 93) || (c =? 125) then None                   (* ] } *)
  else if icase then
    (if is_ascii c then push_item (litI c) rd else None)
  else push_item (Lit c) rd.

Definition read_char (icase : bool) (rd : reader) (c : cp) : option reader :=
  match r_mode rd with
  | MNormal => read_normal icase rd c
  | MEscape =>
      match class_of c with
      | Some i => push_item (Set_ false [i]) rd
      | None => if is_alnum_ascii c then None else push_item (Lit c) rd
      end
  | MParen =>
      if c =? 63 then Some (with_mode rd MParenQ)
      else read_normal icase (open_group true rd) c
  | MParenQ =>
      if c =? 58 then Some (open_group false rd) else None
  | MSet neg first esc toks =>
      if esc then
        match class_of c with
        | Some i => Some (with_mode rd (MSet neg false false (SClass i :: toks)))
        | None =>
            if is_alnum_ascii c then None
            else Some (with_mode rd (MSet neg false false (SChar c true :: toks)))
        end
      else if c =? 92 then Some (with_mode rd (MSet neg false true toks))
      else if (c =? 94) && first then Some (with_mode rd (MSet true false false toks))
      else if c =? 93 then
        (if icase && existsb (fun t => match t with
                                       | SChar x _ => is_letter x || negb (is_ascii x)
                                       | SClass _ => false
                                       end) toks
         then None
         else push_item (Set_ neg (set_items (rev toks))) rd)
      else Some (with_mode rd (MSet neg false false (SChar c false :: toks)))
  | MBrace lo hi =>
      if in_range 48 57 c then
        let d := N.to_nat (c - 48) in
        Some {| r_stack := r_stack rd; r_next := r_next rd;
                r_mode := match hi with
                          | None => MBrace (10 * lo + d)%nat None
                          | Some None => MBrace lo (Some (Some d))
                          | Some (Some h) => MBrace lo (Some (Some (10 * h + d)%nat))
                          end;
                r_lazy := false |}
      else if c =? 44 then
        match hi with
        | None => Some {| r_stack := r_stack rd; r_next := r_next rd;
                          r_mode := MBrace lo (Some None); r_lazy := false |}
        | Some _ => None
        end
      else if c =? 125 then
        match hi with
        | None => quantify lo (Some lo) rd
        | Some h => quantify lo h rd
        end
      else None
  end.

Fixpoint read (icase : bool) (rd : reader) (p : str) : option regex :=
  match p with
  | [] =>
      match r_mode rd, r_stack rd with
      | MNormal, [f] => Some (close_frame f)
      | _, _ => None
      end
  | c :: p' =>
      match read_char icase rd c with
      | Some rd' => read icase rd' p'
      | None => None
      end
  end.

(** [re.compile(pattern)] and [re.compile(pattern, re.IGNORECASE)]; a
    pattern outside the fragment gives the expression that matches nothing. *)
Definition compile_flags (icase : bool) (pattern : string) : regex :=
  match read icase reader0 (u pattern) with
  | Some r => r
  | None => Set_ false []
  end.

Definition compile (pattern : string) : regex := compile_flags false pattern.
Definition compile_ignorecase (pattern : string) : regex := compile_flags true pattern.

End Re.

(** ** The source: constants *)

Import Re.

Definition ch (a : ascii) : cp := N_of_ascii a.

(** [DATE_TIME_PATTERNS], in the order of the source, each pattern with the
    format string the source pairs with it (and never reads). *)
Definition DATE_TIME_PATTERNS : list (regex * str) := Eval vm_compute in
  [ (* [DD/MM/YYYY HH:MM(:SS)?] Name : msg *)
    (compile "^\[(\d{1,2}[\/\.\-]\d{1,2}[\/\.\-]\d{2,4})\s+(\d{1,2}:\d{2}(?::\d{2})?)\]\s+([^:]+?)\s*:\s(.*)$",
     u "%d/%m/%Y %H:%M:%S");
    (* [DD/MM/YYYY HH:MM(:SS)? AM/PM] Name : msg *)
    (compile "^\[(\d{1,2}[\/\.\-]\d{1,2}[\/\.\-]\d{2,4})\s+(\d{1,2}:\d{2}(?::\d{2})?\s*(?:AM|PM|am|pm))\]\s+([^:]+?)\s*:\s(.*)$",
     u "%d/%m/%Y %I:%M:%S %p");
    (* DD/MM/YYYY, HH:MM(:SS)? { -,–,— } Name : msg *)
    (compile "^(\d{1,2}[\/\.\-]\d{1,2}[\/\.\-]\d{2,4}),\s*(\d{1,2}:\d{2}(?::\d{2})?)\s*[–—-]\s*([^:]+?)\s*:\s(.*)$",
     u "%d/%m/%Y %H:%M:%S");
    (* DD/MM/YY, HH:MM(:SS)? { -,–,— } Name : msg *)
    (compile "^(\d{1,2}[\/\.\-]\d{1,2}[\/\.\-]\d{2}),\s*(\d{1,2}:\d{2}(?::\d{2})?)\s*[–—-]\s*([^:]+?)\s*:\s(.*)$",
     u "%d/%m/%y %H:%M:%S");
    (* iOS style, no comma, no brackets: date time Name : msg *)
    (compile "^(\d{1,2}[\/\.\-]\d{1,2}[\/\.\-]\d{2,4})\s+(\d{1,2}:\d{2}:\d{2})\s+([^:]+?)\s*:\s(.*)$",
     u "%d/%m/%Y %H:%M:%S") ].

Definition MEDIA_OMITTED_TOKENS : list str :=
  [u "<Media omitted>"; u "<Média omis>"; u "<Média omise>"; u "image omitted";
   u "video omitted"; u "image omise"; u "video omise"].

Definition MEDIA_EXTS : list (str * list str) :=
  [ (u "image", [u ".jpg"; u ".jpeg"; u ".png"; u ".gif"; u ".webp"; u ".heic"]);
    (u "video", [u ".mp4"; u ".3gp"; u ".mov"; u ".avi"; u ".mkv"; u ".m4v"]);
    (u "audio", [u ".opus"; u ".ogg"; u ".mp3"; u ".wav"; u ".m4a"]);
    (u "doc", [u ".pdf"; u ".txt"; u ".vcf"; u ".csv"; u ".doc"; u ".docx";
               u ".xls"; u ".xlsx"; u ".zip"]) ].

Definition ALL_MEDIA_EXTS : list str := flat_map snd MEDIA_EXTS.

Definition str_in (s : str) (l : list str) : bool := existsb (str_eqb s) l.

Section Classifier.
Context `{U : Unicode}.

(** The inner loop of [parse_chat_text] over [DATE_TIME_PATTERNS]: the
    match of the first pattern that matches. *)
Fixpoint first_match (pats : list (regex * str)) (line : str) : option mstate :=
  match pats with
  | [] => None
  | (pat, _) :: pats' =>
      match match_ pat line with
      | Some m => Some m
      | None => first_match pats' line
      end
  end.

(** [date_part, time_part, author, text] of a header line. *)
Definition classify (line : str) : option (str * str * str * str) :=
  match first_match DATE_TIME_PATTERNS line with
  | Some m => Some (group 1 m, group 2 m, strip (group 3 m), group 4 m)
  | None => None
  end.

End Classifier.

(** ** [datetime]

    A naive [datetime.datetime]; comparison is the lexicographic one on
    (year, month, day, hour, minute, second, microsecond). *)

Record datetime : Type := {
  year : N; month : N; day : N;
  hour : N; minute : N; second : N; microsecond : N
}.

(** [ts.date()] *)
Definition date_of (t : datetime) : N * N * N := (year t, month t, day t).

Definition date_eqb (a b : N * N * N) : bool :=
  let '(y1, m1, d1) := a in
  let '(y2, m2, d2) := b in
  (y1 =? y2) && (m1 =? m2) && (d1 =? d2).

Definition fields (t : datetime) : list N :=
  [year t; month t; day t; hour t; minute t; second t; microsecond t].

Fixpoint lex_compare (a b : list N) : comparison :=
  match a, b with
  | [], [] => Eq
  | [], _ :: _ => Lt
  | _ :: _, [] => Gt
  | x :: a', y :: b' =>
      match x ?= y with
      | Eq => lex_compare a' b'
      | c => c
      end
  end.

(** [a < b] on timestamps *)
Definition dt_ltb (a b : datetime) : bool :=
  match lex_compare (fields a) (fields b) with Lt => true | _ => false end.

(** [a <= b] on timestamps *)
Definition dt_leb (a b : datetime) : bool := negb (dt_ltb b a).

Definition is_leap (y : N) : bool :=
  (y mod 4 =? 0) && (negb (y mod 100 =? 0) || (y mod 400 =? 0)).

Definition days_in_month (y m : N) : N :=
  if m =? 2 then (if is_leap y then 29 else 28)
  else if (m =? 4) || (m =? 6) || (m =? 9) || (m =? 11) then 30
  else 31.

(** The checks of the constructors [datetime.date] and [datetime.datetime]. *)
Definition valid_date (y m d : N) : bool :=
  in_range 1 9999 y && in_range 1 12 m && in_range 1 (days_in_month y m) d.

Definition valid_time (h mi s : N) : bool :=
  (h <=? 23) && (mi <=? 59) && (s <=? 59).

(** ** [datetime.strptime]

    After [Lib/_strptime.py], in the C locale, for the directives the source
    uses: the format is turned into a regular expression compiled with
    IGNORECASE, the first match has to cover the whole text, and the fields
    have to pass the constructor.  [None] stands for the [ValueError]. *)

Module Strptime.

Definition rng (lo hi : ascii) : regex := Set_ false [IRange (ch lo) (ch hi)].
Definition l (a : ascii) : regex := Lit (ch a).
Definition key (a : ascii) : nat := N.to_nat (ch a).

(** The regular expression of a directive, as [TimeRE.__init__] has it. *)
Definition directive (c : cp) : option regex :=
  if c =? ch "d" then   (* 3[0-1]|[1-2]\d|0[1-9]|[1-9]| [1-9] *)
    Some (Group (key "d")
            (alt (cat [l "3"; rng "0" "1"])
                 [cat [rng "1" "2"; digit]; cat [l "0"; rng "1" "9"]; rng "1" "9";
                  cat [l " "; rng "1" "9"]]))
  else if c =? ch "m" then   (* 1[0-2]|0[1-9]|[1-9] *)
    Some (Group (key "m")
            (alt (cat [l "1"; rng "0" "2"]) [cat [l "0"; rng "1" "9"]; rng "1" "9"]))
  else if c =? ch "Y" then   (* \d\d\d\d *)
    Some (Group (key "Y") (cat [digit; digit; digit; digit]))
  else if c =? ch "y" then   (* \d\d *)
    Some (Group (key "y") (cat [digit; digit]))
  else if c =? ch "H" then   (* 2[0-3]|[0-1]\d|\d *)
    Some (Group (key "H")
            (alt (cat [l "2"; rng "0" "3"]) [cat [rng "0" "1"; digit]; digit]))
  else if c =? ch "I" then   (* 1[0-2]|0[1-9]|[1-9] *)
    Some (Group (key "I")
            (alt (cat [l "1"; rng "0" "2"]) [cat [l "0"; rng "1" "9"]; rng "1" "9"]))
  else if c =? ch "M" then   (* [0-5]\d|\d *)
    Some (Group (key "M") (alt (cat [rng "0" "5"; digit]) [digit]))
  else if c =? ch "S" then   (* 6[0-1]|[0-5]\d|\d *)
    Some (Group (key "S")
            (alt (cat [l "6"; rng "0" "1"]) [cat [rng "0" "5"; digit]; digit]))
  else if c =? ch "p" then   (* am|pm *)
    Some (Group (key "p") (alt (litsI (u "am")) [litsI (u "pm")]))
  else None.

(** [TimeRE.pattern]: a run of white space of the format stands for [\s+],
    [%x] for the expression of the directive, anything else for itself.
    [in_ws] tells that the previous character of the format was white
    space.  [None] when the format is outside the modelled fragment. *)
Fixpoint pattern_from (in_ws : bool) (fmt : str) : option regex :=
  match fmt with
  | [] => Some Empty
  | c :: t =>
      if c =? ch "%" then
        match t with
        | d :: t' =>
            match directive d, pattern_from false t' with
            | Some r, Some k => Some (Cat r k)
            | _, _ => None
            end
        | [] => None
        end
      else if isspace c then
        if in_ws then pattern_from true t
        else
          match pattern_from true t with
          | Some k => Some (Cat (plus space) k)
          | None => None
          end
      else if is_ascii c && negb (in_range 65 90 c) && negb (in_range 97 122 c) then
        match pattern_from false t with
        | Some k => Some (Cat (Lit c) k)
        | None => None
        end
      else None
  end.

Definition pattern (fmt : str) : option regex := pattern_from false fmt.

Section Parse.
Context `{U : Unicode}.

(** [int(s)] on a text made of decimal digits and white space. *)
Definition int (s : str) : N :=
  fold_left (fun acc c => match decimal c with
                          | Some d => 10 * acc + d
                          | None => acc
                          end) s 0.

Definition found (a : ascii) (m : mstate) : option str := lookup (key a) (m_groups m).

Definition num (a : ascii) (default : N) (m : mstate) : N :=
  match found a m with Some s => int s | None => default end.

Definition year_of (m : mstate) : N :=
  match found "Y" m, found "y" m with
  | Some s, _ => int s
  | None, Some s => let y := int s in if y <=? 68 then y + 2000 else y + 1900
  | None, None => 1900
  end.

Definition hour_of (m : mstate) : N :=
  match found "I" m with
  | Some s =>
      let h := int s in
      let ampm := match found "p" m with Some p => lower p | None => [] end in
      if str_eqb ampm [] || str_eqb ampm (u "am") then (if h =? 12 then 0 else h)
      else if str_eqb ampm (u "pm") then (if h =? 12 then h else h + 12)
      else h
  | None => num "H" 0 m
  end.

Definition strptime (data fmt : str) : option datetime :=
  match pattern fmt with
  | None => None
  | Some r =>
      match match_ r data with
      | None => None                        (* does not match the format *)
      | Some m =>
          match m_rest m with
          | _ :: _ => None                  (* unconverted data remains *)
          | [] =>
              let y := year_of m in
              let mo := num "m" 1 m in
              let d := num "d" 1 m in
              let h := hour_of m in
              let mi := num "M" 0 m in
              let s := num "S" 0 m in
              if valid_date y mo d && valid_time h mi s then
                Some {| year := y; month := mo; day := d;
                        hour := h; minute := mi; second := s; microsecond := 0 |}
              else None
          end
      end
  end.

End Parse.

End Strptime.

(** ** The source: [parse_datetime] *)

Definition fmts : list str :=
  [ (* 24h *)
    u "%d/%m/%Y %H:%M:%S"; u "%d/%m/%Y %H:%M";
    u "%d/%m/%y %H:%M:%S"; u "%d/%m/%y %H:%M";
    u "%m/%d/%Y %H:%M:%S"; u "%m/%d/%Y %H:%M";
    u "%m/%d/%y %H:%M:%S"; u "%m/%d/%y %H:%M";
    (* 12h AM/PM *)
    u "%d/%m/%Y %I:%M:%S %p"; u "%d/%m/%Y %I:%M %p";
    u "%d/%m/%y %I:%M:%S %p"; u "%d/%m/%y %I:%M %p";
    u "%m/%d/%Y %I:%M:%S %p"; u "%m/%d/%Y %I:%M %p";
    u "%m/%d/%y %I:%M:%S %p"; u "%m/%d/%y %I:%M %p" ].

Section Resolver.
Context `{U : Unicode}.

(** The loop [for f in fmts: try: return strptime(..., f) except: continue]
    and the [return None] after it. *)
Fixpoint try_formats (data : str) (fs : list str) : option datetime :=
  match fs with
  | [] => None
  | f :: fs' =>
      match Strptime.strptime data f with
      | Some t => Some t
      | None => try_formats data fs'
      end
  end.

(** The pattern of [re.sub(r"[.\-]", "/", date_str)]. *)
Definition DOT_OR_HYPHEN : regex := Eval vm_compute in compile "[.\-]".

(** The text [f"{d_norm} {t_norm}"] given to [strptime]. *)
Definition datetime_text (date_str time_str : str) : str :=
  let d_norm :=
    strip (replace NNBSP [SPACE]
             (replace NBSP [SPACE] (Re.sub DOT_OR_HYPHEN (u "/") date_str))) in
  let t_norm := upper (strip (replace NNBSP [SPACE] (replace NBSP [SPACE] time_str))) in
  d_norm ++ [SPACE] ++ t_norm.

Definition parse_datetime (date_str time_str : str) : option datetime :=
  try_formats (datetime_text date_str time_str) fmts.

End Resolver.

(** ** Python dictionaries

    A [dict] with [str] keys keeps its keys in insertion order; assigning to
    a key that is present keeps its place. *)

Module Dict.

Definition t (V : Type) : Type := list (str * V).

Fixpoint get {V : Type} (k : str) (d : t V) : option V :=
  match d with
  | [] => None
  | (k', v) :: d' => if str_eqb k' k then Some v else get k d'
  end.

(** [d[k] = v] *)
Fixpoint set {V : Type} (k : str) (v : V) (d : t V) : t V :=
  match d with
  | [] => [(k, v)]
  | (k', v') :: d' => if str_eqb k' k then (k', v) :: d' else (k', v') :: set k v d'
  end.

Definition keys {V : Type} (d : t V) : list str := map fst d.

Definition mem {V : Type} (k : str) (d : t V) : bool :=
  match get k d with Some _ => true | None => false end.

End Dict.

(** ** Paths

    [pathlib.Path] on a POSIX system.  A path below a directory is the list
    of its components relative to that directory. *)

Definition path : Type := list str.

Definition DOT : cp := 46.

(** [p.name] *)
Definition name (p : path) : str := last p [].

(** [break_at c s = Some (a, b)] when [s = a ++ c :: b] and [c] is not in [a]. *)
Fixpoint break_at (c : cp) (s : str) : option (str * str) :=
  match s with
  | [] => None
  | x :: t =>
      if x =? c then Some ([], t)
      else match break_at c t with
           | Some (a, b) => Some (x :: a, b)
           | None => None
           end
  end.

(** The split of a name at its last dot, [i = name.rfind('.')], when
    [0 < i < len(name) - 1]. *)
Definition split_ext (nm : str) : option (str * str) :=
  match break_at DOT (rev nm) with
  | Some (ext_rev, base_rev) =>
      match base_rev, ext_rev with
      | _ :: _, _ :: _ => Some (rev base_rev, DOT :: rev ext_rev)
      | _, _ => None
      end
  | None => None
  end.

(** [p.suffix] *)
Definition suffix (p : path) : str :=
  match split_ext (name p) with Some (_, ext) => ext | None => [] end.

(** [p.stem] *)
Definition stem (p : path) : str :=
  match split_ext (name p) with Some (base, _) => base | None => name p end.

(** [str(p)] of a relative path *)
Fixpoint path_str (p : path) : str :=
  match p with
  | [] => [DOT]
  | [c] => c
  | c :: p' => c ++ ch "/" :: path_str p'
  end.

(** ** The source: the data model *)

Record Attachment : Type := {
  relpath : str;
  kind : str;
  filename : str
}.

Record Message : Type := {
  timestamp : datetime;
  author : str;
  text : str;
  attachments : list Attachment
}.

Record Conversation : Type := {
  chat_id : str;
  title : str;
  messages : list Message;
  base_dir : path
}.

(** [Message(ts, author, text)] *)
Definition new_message (ts : datetime) (a : str) (t : str) : Message :=
  {| timestamp := ts; author := a; text := t; attachments := [] |}.

(** [msg.text += s] *)
Definition append_text (m : Message) (s : str) : Message :=
  {| timestamp := timestamp m; author := author m; text := text m ++ s;
     attachments := attachments m |}.

(** [msg.attachments.append(a)] *)
Definition append_attachment (m : Message) (a : Attachment) : Message :=
  {| timestamp := timestamp m; author := author m; text := text m;
     attachments := attachments m ++ [a] |}.

Definition set_messages (c : Conversation) (ms : list Message) : Conversation :=
  {| chat_id := chat_id c; title := title c; messages := ms; base_dir := base_dir c |}.

(** [messages.sort(key=lambda m: m.timestamp)]: the sort of Python lists is
    stable, and a stable sort has one result; it is computed here by
    insertion, each message going before the first one that is not earlier. *)
Fixpoint insert_message (m : Message) (l : list Message) : list Message :=
  match l with
  | [] => [m]
  | x :: l' =>
      if dt_leb (timestamp m) (timestamp x) then m :: l
      else x :: insert_message m l'
  end.

Definition sort_messages (l : list Message) : list Message :=
  fold_right insert_message [] l.

Section Classify_ext.
Context `{U : Unicode}.

(** The loop of [classify_ext] over [MEDIA_EXTS.items()]. *)
Fixpoint kind_of_ext (ext : str) (table : list (str * list str)) : str :=
  match table with
  | [] => u "doc"
  | (k, exts) :: table' => if str_in ext exts then k else kind_of_ext ext table'
  end.

Definition classify_ext (p : path) : str := kind_of_ext (lower (suffix p)) MEDIA_EXTS.

End Classify_ext.

(** ** The source: [parse_chat_text] *)

Inductive encoding : Type := utf_8_sig | utf_16 | utf_8.

(** The transcript file as [parse_chat_text] sees it: its path, and what
    [txt_path.read_text(encoding=enc)] gives for each encoding, [None] when
    the call raises. *)
Record txt_file : Type := {
  txt_path : path;
  read_text : encoding -> option str
}.

Inductive exn : Type := RuntimeError.

Inductive outcome (A : Type) : Type :=
| Returns (a : A)
| Raises (e : exn).
Arguments Returns {A} a.
Arguments Raises {A} e.

(** The loop over [("utf-8-sig", "utf-16", "utf-8")]: the first encoding
    whose read does not raise. *)
Fixpoint first_decoding (f : txt_file) (encs : list encoding) : option str :=
  match encs with
  | [] => None
  | enc :: encs' =>
      match read_text f enc with
      | Some data => Some data
      | None => first_decoding f encs'
      end
  end.

Definition ENCODINGS : list encoding := [utf_8_sig; utf_16; utf_8].

(** The normalisation of a raw line (the first statement of the line loop). *)
Definition normalize (raw : str) : str :=
  strip (replace NNBSP [SPACE] (replace NBSP [SPACE] (replace LRM [] raw))).

(** The state of the line loop: the messages closed so far, the message
    being accumulated, and how many times the clock has been read. *)
Record pstate : Type := {
  closed : list Message;
  current : option Message;
  ticks : nat
}.

Definition pstate0 : pstate := {| closed := []; current := None; ticks := 0 |}.

(** [messages.append(current)] guarded by [if current:] *)
Definition flush (st : pstate) : list Message :=
  match current st with
  | Some c => closed st ++ [c]
  | None => closed st
  end.

(** The patterns of [detect_title_from_txtname], both with [re.IGNORECASE]. *)
Definition CHAT_WITH : regex := Eval vm_compute in
  compile_ignorecase "^WhatsApp Chat with\s+".
Definition DISCUSSION_AVEC : regex := Eval vm_compute in
  compile_ignorecase "^Discussion WhatsApp avec\s+".

Section Parser.
Context `{U : Unicode}.

(** [now k] is the value of the [k]-th call of [dt.datetime.now()]. *)
Variable now : nat -> datetime.

Definition detect_title_from_txtname (p : path) : str :=
  let name0 := stem p in
  let name1 := Re.sub CHAT_WITH [] name0 in
  let name2 := Re.sub DISCUSSION_AVEC [] name1 in
  let name3 := replace (ch "_") [SPACE] name2 in
  match name3 with
  | [] => u "WhatsApp Chat"
  | _ => name3
  end.

(** One round of the loop [for raw in lines]. *)
Definition parse_line (st : pstate) (raw : str) : pstate :=
  let line := normalize raw in
  match classify line with
  | Some (date_part, time_part, author_, text_) =>
      let '(ts, ticks') :=
        match parse_datetime date_part time_part with
        | Some ts => (ts, ticks st)
        | None => (now (ticks st), S (ticks st))
        end in
      {| closed := flush st;
         current := Some (new_message ts author_ (strip text_));
         ticks := ticks' |}
  | None =>
      match current st with
      | Some c =>
          {| closed := closed st;
             current := Some (append_text c (LF :: line));
             ticks := ticks st |}
      | None => st
      end
  end.

Definition parse_lines (lines : list str) (st : pstate) : pstate :=
  fold_left parse_line lines st.

(** The messages before the final sort. *)
Definition emitted (lines : list str) : list Message :=
  flush (parse_lines lines pstate0).

Definition parse_chat_text (f : txt_file) : outcome (str * list Message) :=
  match first_decoding f ENCODINGS with
  | None => Raises RuntimeError
  | Some data =>
      let title_ := detect_title_from_txtname (txt_path f) in
      Returns (title_, sort_messages (emitted (splitlines data)))
  end.

End Parser.

(** ** The source: [link_attachments] *)

(** An entry of [conv.base_dir.rglob("*")]: its path below [base_dir] and
    whether [is_file()] holds. *)
Record entry : Type := {
  e_path : path;
  e_is_file : bool
}.

Definition filename_pat : regex := Eval vm_compute in
  compile "([A-Za-z0-9_-]+-\d{8}-WA\d+\.[A-Za-z0-9]{1,5})".

Definition generic_file_pat : regex := Eval vm_compute in
  compile_ignorecase
    "([\w.\-]+\.(?:jpg|jpeg|png|gif|mp4|3gp|mov|avi|mkv|m4v|opus|ogg|mp3|wav|m4a|pdf|webp|heic|docx?|xlsx?|zip))".

Definition date_from_name : regex := Eval vm_compute in
  compile ".*-(\d{8})-WA\d+\.[A-Za-z0-9]{1,5}$".

(** [s.add(x)] on a set kept in insertion order.  The order in which Python
    iterates over a set is not specified; it decides nothing below but the
    order of the attachments inside one message. *)
Definition set_add (s : list str) (x : str) : list str :=
  if str_in x s then s else s ++ [x].

Section Linker.
Context `{U : Unicode}.

Definition is_media (e : entry) : bool :=
  e_is_file e && str_in (lower (suffix (e_path e))) ALL_MEDIA_EXTS.

(** The dictionary [media_files], from bare file name to path. *)
Definition media_files (tree : list entry) : Dict.t path :=
  fold_left (fun d e => if is_media e then Dict.set (name (e_path e)) (e_path e) d else d)
            tree [].

(** [{k: False for k in media_files.keys()}] *)
Definition none_assigned (mf : Dict.t path) : Dict.t bool :=
  map (fun kv => (fst kv, false)) mf.

(** The set [files_in_text] of a message. *)
Definition files_in_text (body : str) : list str :=
  fold_left set_add
            (map (group 1) (finditer filename_pat body)
             ++ map (group 1) (finditer generic_file_pat body))
            [].

Definition attachment_of (p : path) (fname : str) : Attachment :=
  {| relpath := path_str p; kind := classify_ext p; filename := fname |}.

(** One round of [for fname in files_in_text].  [assigned] has the keys of
    [media_files] all along, so that [assigned[fname]] does not raise when
    [fname] is a key of [media_files]; the last case of the inner [match]
    is never reached from [link_attachments]. *)
Definition claim_named (mf : Dict.t path) (st : Message * Dict.t bool) (fname : str)
  : Message * Dict.t bool :=
  let '(msg, assigned) := st in
  match Dict.get fname mf with
  | Some p =>
      match Dict.get fname assigned with
      | Some false =>
          (append_attachment msg (attachment_of p fname), Dict.set fname true assigned)
      | _ => st
      end
  | None => st
  end.

(** The first loop over the messages. *)
Fixpoint pass1 (mf : Dict.t path) (msgs : list Message) (assigned : Dict.t bool)
  : list Message * Dict.t bool :=
  match msgs with
  | [] => ([], assigned)
  | msg :: msgs' =>
      let '(msg', assigned') :=
        fold_left (claim_named mf) (files_in_text (text msg)) (msg, assigned) in
      let '(rest, assigned'') := pass1 mf msgs' assigned' in
      (msg' :: rest, assigned'')
  end.

(** The date a file name carries, when it has the shape of
    [date_from_name] and its eight digits are a date. *)
Definition name_date (fname : str) : option (N * N * N) :=
  match match_ date_from_name fname with
  | Some m =>
      match Strptime.strptime (group 1 m) (u "%Y%m%d") with
      | Some t => Some (date_of t)
      | None => None
      end
  | None => None
  end.

(** The loop [for fname, p in list(media_files.items())] up to its
    [break]: the entry the message takes, if any. *)
Fixpoint first_of_day (d : N * N * N) (items : list (str * path)) (assigned : Dict.t bool)
  : option (str * path) :=
  match items with
  | [] => None
  | (fname, p) :: items' =>
      match Dict.get fname assigned with
      | Some true => first_of_day d items' assigned
      | _ =>
          match name_date fname with
          | Some d' =>
              if date_eqb d' d then Some (fname, p)
              else first_of_day d items' assigned
          | None => first_of_day d items' assigned
          end
      end
  end.

(** The test of the second loop on the body of a message. *)
Definition is_placeholder (body : str) : bool :=
  let text_l := lower (strip body) in
  match text_l with
  | [] => true
  | _ => existsb (fun tok => contains (lower tok) text_l) MEDIA_OMITTED_TOKENS
  end.

(** One round of the second loop over the messages. *)
Definition fallback (mf : Dict.t path) (msg : Message) (assigned : Dict.t bool)
  : Message * Dict.t bool :=
  match attachments msg with
  | _ :: _ => (msg, assigned)
  | [] =>
      if is_placeholder (text msg) then
        match first_of_day (date_of (timestamp msg)) mf assigned with
        | Some (fname, p) =>
            (append_attachment msg (attachment_of p fname), Dict.set fname true assigned)
        | None => (msg, assigned)
        end
      else (msg, assigned)
  end.

Fixpoint pass2 (mf : Dict.t path) (msgs : list Message) (assigned : Dict.t bool)
  : list Message * Dict.t bool :=
  match msgs with
  | [] => ([], assigned)
  | msg :: msgs' =>
      let '(msg', assigned') := fallback mf msg assigned in
      let '(rest, assigned'') := pass2 mf msgs' assigned' in
      (msg' :: rest, assigned'')
  end.

(** The messages and the [assigned] flags at the end of [link_attachments];
    [tree] is what [conv.base_dir.rglob("*")] yields. *)
Definition link_state (tree : list entry) (conv : Conversation)
  : list Message * Dict.t bool :=
  let mf := media_files tree in
  let '(msgs1, assigned1) := pass1 mf (messages conv) (none_assigned mf) in
  pass2 mf msgs1 assigned1.

(** The conversation after [link_attachments(conv)]. *)
Definition link_attachments (tree : list entry) (conv : Conversation) : Conversation :=
  set_messages conv (fst (link_state tree conv)).

End Linker.

(** ** The source: [safe_slug] and the merge of conversations *)

(** The pattern of [safe_slug]. *)
Definition NOT_SLUG : regex := Eval vm_compute in compile "[^a-zA-Z0-9_-]+".

Section Slug.
Context `{U : Unicode}.

Definition safe_slug (s : str) : str :=
  let slug := Re.sub NOT_SLUG (u "_") (strip s) in
  match slug with
  | [] => u "chat"
  | _ => firstn 80 slug
  end.

End Slug.

(** [Conversation(chat_id=safe_slug(title), title=title, messages=messages,
    base_dir=extract_dir)] *)
Definition new_conversation `{U : Unicode} (title_ : str) (msgs : list Message) (dir : path)
  : Conversation :=
  {| chat_id := safe_slug title_; title := title_; messages := msgs; base_dir := dir |}.

(** [load_zip] from the call of [parse_chat_text] on: [f] is the transcript
    found in the extracted archive, [tree] the content of [extract_dir]. *)
Definition load_zip `{U : Unicode} (now : nat -> datetime) (f : txt_file)
           (tree : list entry) (extract_dir : path) : outcome Conversation :=
  match parse_chat_text now f with
  | Returns (title_, msgs) =>
      Returns (link_attachments tree (new_conversation title_ msgs extract_dir))
  | Raises e => Raises e
  end.

(** One round of the loop that fills [convs]: a conversation whose id is
    already there gives its messages to the one that is there, which is
    sorted again. *)
Definition merge_into (old new : Conversation) : Conversation :=
  set_messages old (sort_messages (messages old ++ messages new)).

Definition add_conversation (convs : Dict.t Conversation) (conv : Conversation)
  : Dict.t Conversation :=
  match Dict.get (chat_id conv) convs with
  | Some old => Dict.set (chat_id conv) (merge_into old conv) convs
  | None => Dict.set (chat_id conv) conv convs
  end.

(** The loop [for uf in uploaded]: [loaded] is what [load_zip] returned for
    each upload, in order; a [None] is passed over. *)
Definition collect (loaded : list (option Conversation)) : Dict.t Conversation :=
  fold_left (fun convs r => match r with
                            | Some conv => add_conversation convs conv
                            | None => convs
                            end)
            loaded [].

(** ** [list.sort] with a key

    [l.sort(key=k)] and [l.sort(key=k, reverse=True)] are both stable:
    elements of one key keep the order they had.  [ahead a b] tells that [a]
    may stay ahead of [b], that is [k a <= k b], and [k a >= k b] when the
    sort is reversed; the result is computed by insertion. *)

Section Sort.
Context {A : Type} (ahead : A -> A -> bool).

Fixpoint insert_by (x : A) (l : list A) : list A :=
  match l with
  | [] => [x]
  | y :: l' => if ahead x y then x :: l else y :: insert_by x l'
  end.

Definition sort_by (l : list A) : list A := fold_right insert_by [] l.

End Sort.

(** ** The source: [detect_txt_file] *)

(** A path that [glob] yields, with [p.stat().st_size] when [p.exists()]
    holds and [None] when it does not (a dangling link). *)
Record globbed : Type := {
  g_path : path;
  g_size : option N
}.

(** The key [p.stat().st_size if p.exists() else 0]. *)
Definition size_key (g : globbed) : N :=
  match g_size g with Some n => n | None => 0 end.

(** [top] is what [extract_dir.glob("*.txt")] yields and [deep] what
    [extract_dir.glob("**/*.txt")] yields. *)
Definition detect_txt_file (top deep : list globbed) : option path :=
  let txts := top ++ deep in
  match txts with
  | [] => None
  | _ :: _ =>
      option_map g_path (hd_error (sort_by (fun a b => size_key b <=? size_key a) txts))
  end.

(** ** [datetime.strftime]

    For the directives the viewer uses.  The C library decides whether [%Y]
    pads a year below 1000 with zeros (glibc does not). *)

Class Libc := {
  pads_year : bool
}.


(** [str(n)] *)
Definition str_of_N (n : N) : str :=
  u (DecimalString.NilEmpty.string_of_uint (N.to_uint n)).

Definition two_digits (n : N) : str := [48 + n / 10; 48 + n mod 10].

Section Strftime.
Context `{L : Libc}.

Definition year_text (y : N) : str :=
  let s := str_of_N y in
  if pads_year then repeat 48 (4 - length s)%nat ++ s else s.

(** The text of one directive; one that the viewer does not use is copied
    as it is. *)
Definition directive_text (d : cp) (t : datetime) : str :=
  if d =? ch "d" then two_digits (day t)
  else if d =? ch "m" then two_digits (month t)
  else if d =? ch "Y" then year_text (year t)
  else if d =? ch "H" then two_digits (hour t)
  else if d =? ch "M" then two_digits (minute t)
  else if d =? ch "S" then two_digits (second t)
  else [ch "%"; d].

Fixpoint strftime (fmt : str) (t : datetime) : str :=
  match fmt with
  | [] => []
  | c :: rest =>
      if c =? ch "%" then
        match rest with
        | d :: rest' => directive_text d t ++ strftime rest' t
        | [] => [c]
        end
      else c :: strftime rest t
  end.

End Strftime.

(** ** The source: the list of conversations in the sidebar *)

(** [dt.datetime.min] *)
Definition datetime_min : datetime :=
  {| year := 1; month := 1; day := 1; hour := 0; minute := 0; second := 0;
     microsecond := 0 |}.

(** The key of [items.sort]: the time stamp of the last message of the
    conversation [convs[t[0]]].  The ids of [items] are keys of [convs], so
    that the lookup does not raise; the last case is never reached. *)
Definition last_timestamp (convs : Dict.t Conversation) (item : str * str) : datetime :=
  match Dict.get (fst item) convs with
  | Some c =>
      match messages c with
      | [] => datetime_min
      | m :: l => timestamp (last l m)
      end
  | None => datetime_min
  end.

Section Sidebar.
Context `{L : Libc}.

(** The label of a conversation whose first message is [m] and whose
    other messages are [l]. *)
Definition item_label (c : Conversation) (m : Message) (l : list Message) : str :=
  let first := strftime (u "%d/%m/%Y") (timestamp m) in
  let last_ := strftime (u "%d/%m/%Y") (timestamp (last l m)) in
  title c ++ u " — " ++ str_of_N (N.of_nat (length (messages c))) ++ u " msgs — "
  ++ first ++ u " → " ++ last_.

(** The loop [for cid, c in convs.items()] that fills [items]. *)
Definition listed (convs : Dict.t Conversation) : list (str * str) :=
  flat_map (fun kc : str * Conversation =>
              let (cid, c) := kc in
              match messages c with
              | [] => []
              | m :: l => [(cid, item_label c m l)]
              end)
           convs.

(** [items] after [items.sort(key=..., reverse=True)]. *)
Definition items (convs : Dict.t Conversation) : list (str * str) :=
  sort_by (fun a b => dt_leb (last_timestamp convs b) (last_timestamp convs a))
          (listed convs).

End Sidebar.

(** ** The source: the controls *)

(** The set [{m.author for m in conv.messages}], in the order of [set_add]. *)
Definition authors (msgs : list Message) : list str :=
  fold_left set_add (map author msgs) [].

(** [show_author_default] *)
Definition show_author_default (conv : Conversation) : bool :=
  Nat.ltb 2 (length (authors (messages conv))).

(** [me_names], from the text typed in the sidebar *)
Definition me_names (me_name : str) : list str :=
  match strip me_name with
  | [] => []
  | _ :: _ => [strip me_name]
  end ++ [u "You"; u "Vous"; u "Moi"].

(** ** More [str] methods and paths *)

(** [s.split(sep)] for a [sep] that is not empty: the pieces between the
    occurrences of [sep], found from left to right.  [cur] is the piece
    being read, reversed; [skip] counts the characters of an occurrence of
    [sep] still to pass over. *)
Fixpoint split_from (sep : str) (cur : str) (skip : nat) (s : str) : list str :=
  match s with
  | [] => [rev cur]
  | c :: t =>
      match skip with
      | S skip' => split_from sep cur skip' t
      | O =>
          if starts_with sep s
          then rev cur :: split_from sep [] (pred (length sep)) t
          else split_from sep (c :: cur) 0 t
      end
  end.

Definition split (sep s : str) : list str := split_from sep [] 0 s.

Definition SLASH : cp := 47.

(** [base / rel] for a [rel] given as text: the parts of [rel] are the
    pieces between slashes that are neither empty nor a single dot; a [rel]
    that starts with a slash is absolute and replaces [base], its root
    written [/], or [//] when it starts with exactly two slashes. *)
Definition parts_of (rel : str) : list str :=
  filter (fun x => negb (str_eqb x []) && negb (str_eqb x [DOT])) (split [SLASH] rel).

Definition joinpath (base : path) (rel : str) : path :=
  match rel with
  | 47 :: 47 :: 47 :: _ => [SLASH] :: parts_of rel
  | 47 :: 47 :: _ => [SLASH; SLASH] :: parts_of rel
  | 47 :: _ => [SLASH] :: parts_of rel
  | _ => base ++ parts_of rel
  end.

(** ** [base64.b64encode] and [bytes.decode("ascii")] *)

Module Base64.

(** The character for six bits. *)
Definition char (n : N) : N :=
  if n <? 26 then 65 + n                (* A-Z *)
  else if n <? 52 then 97 + (n - 26)    (* a-z *)
  else if n <? 62 then 48 + (n - 52)    (* 0-9 *)
  else if n =? 62 then 43               (* + *)
  else 47.                              (* / *)

Definition PAD : N := 61.               (* = *)

(** Three bytes give four characters; one or two bytes left at the end
    give two or three characters and the padding. *)
Fixpoint encode (bs : list N) : list N :=
  match bs with
  | [] => []
  | [a] => [char (a / 4); char ((a mod 4) * 16); PAD; PAD]
  | [a; b] => [char (a / 4); char ((a mod 4) * 16 + b / 16); char ((b mod 16) * 4); PAD]
  | a :: b :: c :: t =>
      char (a / 4) :: char ((a mod 4) * 16 + b / 16)
        :: char ((b mod 16) * 4 + c / 64) :: char (c mod 64) :: encode t
  end.

(** [base64.b64encode(data)] *)
Definition b64encode (data : list Byte.byte) : list N := encode (map Byte.to_N data).

(** [b.decode("ascii")]; [None] stands for the [UnicodeDecodeError]. *)
Definition decode_ascii (bs : list N) : option str :=
  if forallb (fun b => b <? 128) bs then Some bs else None.

End Base64.

(** ** The source: [b64_image] and [render_chat_html] *)

(** The dictionary of [b64_image]. *)
Definition IMAGE_MIME : Dict.t str :=
  [ (u ".jpg", u "image/jpeg"); (u ".jpeg", u "image/jpeg"); (u ".png", u "image/png");
    (u ".gif", u "image/gif"); (u ".webp", u "image/webp"); (u ".heic", u "image/heic") ].

Definition QUOTE : cp := 34.
Definition BACKSLASH : cp := 92.

(** A text between double quotes. *)
Definition quoted (s : str) : str := QUOTE :: s ++ [QUOTE].

(** The tag that opens a [div] of a class. *)
Definition div_of (cls : str) : str := u "<div class=" ++ quoted cls ++ u ">".

Section Render.
Context `{U : Unicode} `{L : Libc}.

(** [read_bytes p] is what [p.read_bytes()] gives, [None] when it raises. *)
Variable read_bytes : path -> option (list Byte.byte).

(** [mime] of [b64_image] *)
Definition mime_of (p : path) : str :=
  match Dict.get (lower (suffix p)) IMAGE_MIME with
  | Some m => m
  | None => u "application/octet-stream"
  end.

Definition b64_image (p : path) : option str :=
  match read_bytes p with
  | None => None
  | Some data =>
      match Base64.decode_ascii (Base64.b64encode data) with
      | None => None
      | Some payload => Some (u "data:" ++ mime_of p ++ u ";base64," ++ payload)
      end
  end.

(** What a bubble shows for one attachment. *)
Definition attachment_html (base : path) (a : Attachment) : str :=
  let p := joinpath base (relpath a) in
  let doc icon := div_of (u "doc") ++ icon ++ u " " ++ filename a ++ u "</div>" in
  if str_eqb (kind a) (u "image") then
    match b64_image p with
    | Some (c :: src) =>
        u "<img class=" ++ quoted (u "media") ++ u " src=" ++ quoted (c :: src)
        ++ u " alt=" ++ quoted (filename a) ++ u ">"
    | _ => doc (u "🖼")
    end
  else if str_eqb (kind a) (u "video") then doc (u "🎞")
  else if str_eqb (kind a) (u "audio") then doc (u "🔊")
  else doc (u "📎").

(** The lines of the body, each in a [div]; the separator is the two
    characters backslash and [n], as the source has it. *)
Definition text_divs (body : str) : list str :=
  map (fun line => u "<div>" ++ line ++ u "</div>") (split [BACKSLASH; ch "n"] body).

(** [bubble] of a message, joined. *)
Definition bubble (conv : Conversation) (names : list str) (show_author : bool)
           (m : Message) : str :=
  let side := if str_in (author m) names then u "right" else u "left" in
  concat ([div_of (u "msg " ++ side)]
          ++ (if show_author then [div_of (u "author") ++ author m ++ u "</div>"] else [])
          ++ text_divs (text m)
          ++ map (attachment_html (base_dir conv)) (attachments m)
          ++ [div_of (u "meta") ++ strftime (u "%d/%m/%Y %H:%M") (timestamp m) ++ u "</div>";
              u "</div>"]).


End Render.

(** ** Vocabulary of the statements *)

(** What the three replacements of [normalize] do to one code point. *)
Definition clean_cp (c : cp) : str :=
  if c =? LRM then []
  else if (c =? NBSP) || (c =? NNBSP) then [SPACE]
  else [c].

Definition is_space (c : cp) : Prop := isspace c = true.


(** The candidate formats of [parse_datetime], by what they stand for. *)
Inductive hour_style : Type := H24 | H12.
Inductive date_order : Type := DayFirst | MonthFirst.
Inductive year_style : Type := Year4 | Year2.

Definition format_of (h : hour_style) (o : date_order) (y : year_style) (secs : bool) : str :=
  match o with DayFirst => u "%d/%m/" | MonthFirst => u "%m/%d/" end
  ++ match y with Year4 => u "%Y" | Year2 => u "%y" end
  ++ u " "
  ++ match h with H24 => u "%H" | H12 => u "%I" end
  ++ u ":%M"
  ++ (if secs then u ":%S" else [])
  ++ match h with H24 => [] | H12 => u " %p" end.

(** All the hour styles, date orders, year styles, with and without
    seconds, the later ones varying faster. *)
Definition formats_in_order : list str :=
  flat_map (fun h =>
    flat_map (fun o =>
      flat_map (fun y =>
        map (fun secs => format_of h o y secs) [true; false])
      [Year4; Year2])
    [DayFirst; MonthFirst])
  [H24; H12].

Section Resolving.
Context `{U : Unicode}.

(** The format under which a text is resolved: the first one of the list
    that parses it. *)
Fixpoint resolving_format (data : str) (fs : list str) : option str :=
  match fs with
  | [] => None
  | f :: fs' =>
      match Strptime.strptime data f with
      | Some _ => Some f
      | None => resolving_format data fs'
      end
  end.

End Resolving.

Definition mk_datetime (y mo d h mi s : N) : datetime :=
  {| year := y; month := mo; day := d; hour := h; minute := mi; second := s;
     microsecond := 0 |}.


(** The header patterns by their parts. *)
Definition date_sep : regex := Set_ false [IChar (ch "/"); IChar (ch "."); IChar (ch "-")].

Definition date_items (ylo yhi : nat) : list regex :=
  [times 1 2 digit; date_sep; times 1 2 digit; date_sep; times ylo yhi digit].

Definition time_items : list regex :=
  [times 1 2 digit; Lit (ch ":"); times 2 2 digit;
   opt (cat [Lit (ch ":"); times 2 2 digit])].

Definition time_sec_items : list regex :=
  [times 1 2 digit; Lit (ch ":"); times 2 2 digit; Lit (ch ":"); times 2 2 digit].

Definition meridiem_re : regex :=
  alt (lits (u "AM")) [lits (u "PM"); lits (u "am"); lits (u "pm")].

Definition EN_DASH : cp := 8211.
Definition EM_DASH : cp := 8212.
Definition dash_re : regex := Set_ false [IChar EN_DASH; IChar EM_DASH; IChar (ch "-")].

(** The part every header pattern ends with: the author, the colon, one
    white space and the body. *)
Definition author_body_items : list regex :=
  [Group 3 (plus_lazy (Set_ true [IChar COLON])); star space; Lit COLON; space;
   Group 4 (star Any); Eol].

Definition author_body_re : regex := cat author_body_items.

(** What each header pattern has before the author. *)
Definition bracket_24h_items : list regex :=
  [Bol; Lit (ch "["); Group 1 (cat (date_items 2 4)); plus space;
   Group 2 (cat time_items); Lit (ch "]"); plus space].

Definition bracket_12h_items : list regex :=
  [Bol; Lit (ch "["); Group 1 (cat (date_items 2 4)); plus space;
   Group 2 (cat (time_items ++ [star space; meridiem_re]));
   Lit (ch "]"); plus space].

Definition dashed_items (ylo yhi : nat) : list regex :=
  [Bol; Group 1 (cat (date_items ylo yhi)); Lit (ch ","); star space;
   Group 2 (cat time_items); star space; dash_re; star space].

Definition bare_items : list regex :=
  [Bol; Group 1 (cat (date_items 2 4)); plus space; Group 2 (cat time_sec_items);
   plus space].

Definition header_head_items : list (list regex) :=
  [bracket_24h_items; bracket_12h_items; dashed_items 2 4; dashed_items 2 2; bare_items].

Definition header_heads : list regex := map cat header_head_items.

Definition header_pattern (head : list regex) : regex := cat (head ++ author_body_items).

Definition dashed_pattern (ylo yhi : nat) : regex := header_pattern (dashed_items ylo yhi).

(** The file name patterns by their parts. *)
Definition alnum_ascii : list citem :=
  [IRange (ch "A") (ch "Z"); IRange (ch "a") (ch "z"); IRange (ch "0") (ch "9")].

Definition MEDIA_SUFFIXES : list regex :=
  map litsI [u "jpeg"; u "png"; u "gif"; u "mp4"; u "3gp"; u "mov"; u "avi"; u "mkv";
             u "m4v"; u "opus"; u "ogg"; u "mp3"; u "wav"; u "m4a"; u "pdf"; u "webp";
             u "heic"]
  ++ [cat (map litI (u "doc") ++ [opt (litI (ch "x"))]);
      cat (map litI (u "xls") ++ [opt (litI (ch "x"))]);
      litsI (u "zip")].

(** The header patterns alone, and which of them match a line. *)
Definition header_patterns : list regex := map fst DATE_TIME_PATTERNS.

Definition matches `{U : Unicode} (pat : regex) (line : str) : bool :=
  match match_ pat line with Some _ => true | None => false end.

Definition matching `{U : Unicode} (line : str) : list bool :=
  map (fun pat => matches pat line) header_patterns.

(** One sample line per supported header format. *)
Definition sample_bracket_24h : str := u "[05/03/2024 14:30:00] Alice: Hello".
Definition sample_bracket_12h : str := u "[05/03/2024 2:30:00 PM] Alice: Hello".
Definition sample_dashed_4y : str := u "05/03/2024, 14:30 - Alice: Hello".
Definition sample_dashed_2y : str := u "05/03/24, 14:30 - Alice: Hello".
Definition sample_bare : str := u "05/03/2024 14:30:00 Alice: Hello".


(** Order and ties of time stamps. *)
Definition dt_eqb (a b : datetime) : bool :=
  match lex_compare (fields a) (fields b) with Eq => true | _ => false end.

Definition not_later (a b : Message) : Prop :=
  dt_leb (timestamp a) (timestamp b) = true.

Definition at_time (t : datetime) (m : Message) : bool := dt_eqb (timestamp m) t.


(** Counting the attachments that carry a file name, and reading a flag of
    [assigned] as a number. *)
Definition named (f : str) (a : Attachment) : bool := str_eqb (filename a) f.

Definition count_named (f : str) (m : Message) : nat :=
  length (filter (named f) (attachments m)).

Definition total_named (f : str) (msgs : list Message) : nat :=
  list_sum (map (count_named f) msgs).

Definition flag (f : str) (assigned : Dict.t bool) : nat :=
  match Dict.get f assigned with Some true => 1%nat | _ => 0%nat end.

(** Messages as the parser leaves them: nothing attached yet. *)
Definition fresh (msgs : list Message) : Prop :=
  Forall (fun m => attachments m = []) msgs.

(** [m'] is [m] with attachments appended, nothing else changed. *)
Definition extends (m m' : Message) : Prop :=
  timestamp m' = timestamp m /\ author m' = author m /\ text m' = text m
  /\ exists more, attachments m' = attachments m ++ more.

(** The dated placeholder example. *)
Definition IMG_NAME : str := u "IMG-20240305-WA0001.jpg".
Definition IMG_PATH : path := [u "media"; IMG_NAME].
Definition IMG_TREE : list entry := [{| e_path := IMG_PATH; e_is_file := true |}].
Definition placeholder_message (ts : datetime) (who : str) : Message :=
  new_message ts who (u "<Media omitted>").

(** [consumes st w m]: going from [st] to [m] the matcher has read [w]. *)
Definition consumes (st : mstate) (w : str) (m : mstate) : Prop :=
  m_rest st = w ++ m_rest m /\ m_pos m = (m_pos st + length w)%nat.

(** What one step of either loop of the linker does to a message and to
    [assigned]: it appends to the attachments, keeps the keys, and for every
    file name the message gains an attachment exactly when the flag goes
    from unset to set. *)
Definition step_ok (mf : Dict.t path) (m : Message) (a : Dict.t bool)
           (m' : Message) (a' : Dict.t bool) : Prop :=
  extends m m'
  /\ Dict.keys a' = Dict.keys mf
  /\ forall f, (count_named f m' + flag f a = count_named f m + flag f a')%nat
               /\ (flag f a <= flag f a')%nat.


(** Both loops of the linker go through the messages in order, handing
    [assigned] from one message to the next. *)
Fixpoint thread (step : Message -> Dict.t bool -> Message * Dict.t bool)
         (msgs : list Message) (a : Dict.t bool) : list Message * Dict.t bool :=
  match msgs with
  | [] => ([], a)
  | m :: msgs' =>
      let '(m', a1) := step m a in
      let '(rest, a2) := thread step msgs' a1 in
      (m' :: rest, a2)
  end.

(** The body of the first loop for one message. *)
Definition claim_all `{U : Unicode} (mf : Dict.t path) (m : Message) (a : Dict.t bool)
  : Message * Dict.t bool :=
  fold_left (claim_named mf) (files_in_text (text m)) (m, a).

Definition same_count (f : str) (m m' : Message) : Prop :=
  count_named f m' = count_named f m.

(** [step_ok] for a whole pass. *)
Definition pass_ok (mf : Dict.t path) (msgs : list Message) (a : Dict.t bool)
           (msgs' : list Message) (a' : Dict.t bool) : Prop :=
  Forall2 extends msgs msgs'
  /\ Dict.keys a' = Dict.keys mf
  /\ forall f, (total_named f msgs' + flag f a = total_named f msgs + flag f a')%nat
               /\ (flag f a <= flag f a')%nat
               /\ (flag f a = 1%nat -> Forall2 (same_count f) msgs msgs').

(** The characters [safe_slug] keeps, and the texts it returns. *)
Definition slug_char (c : cp) : bool :=
  in_range 97 122 c || in_range 65 90 c || in_range 48 57 c || (c =? 95) || (c =? 45).

Definition is_slug (s : str) : Prop :=
  s <> [] /\ (length s <= 80)%nat /\ Forall (fun c => slug_char c = true) s.

(** The longest prefix of characters that satisfy [p], and what follows it. *)
Fixpoint span (p : cp -> bool) (s : str) : str * str :=
  match s with
  | [] => ([], [])
  | c :: t => if p c then let (w, r) := span p t in (c :: w, r) else ([], s)
  end.

(** [s] with every maximal run of characters that satisfy [p] replaced by
    [repl]; [in_run] tells that the run has begun before [s]. *)
Fixpoint squash (p : cp -> bool) (repl : str) (in_run : bool) (s : str) : str :=
  match s with
  | [] => []
  | c :: t =>
      if p c then (if in_run then [] else repl) ++ squash p repl true t
      else c :: squash p repl false t
  end.

(** A dot or a hyphen read as a slash. *)
Definition to_slash (c : cp) : cp := if (c =? 46) || (c =? 45) then 47 else c.

(** A Basic Latin letter in lower case. *)
Definition lower_ascii (c : cp) : cp := if in_range 65 90 c then c + 32 else c.

(** [reads l x]: the expression [l] reads the one character [x], and
    nothing else. *)
Definition reads `{U : Unicode} (l : regex) (x : cp) : Prop :=
  forall pos t gs,
    run l {| m_pos := pos; m_rest := x :: t; m_groups := gs |}
    = [{| m_pos := S pos; m_rest := t; m_groups := gs |}].

(** A line that opens a message. *)
Definition is_header `{U : Unicode} (line : str) : bool :=
  match classify (normalize line) with Some _ => true | None => false end.

(** [m] opens with the header [line]: the author of the header, its body
    trimmed at the start of the text, nothing attached. *)
Definition opened_by `{U : Unicode} (line : str) (m : Message) : Prop :=
  exists d t a b more,
    classify (normalize line) = Some (d, t, a, b)
    /\ author m = a /\ text m = strip b ++ more /\ attachments m = [].


(** The conversations that were loaded, and those of one id. *)
Definition somes {A : Type} (l : list (option A)) : list A :=
  flat_map (fun r => match r with Some x => [x] | None => [] end) l.

Definition with_id (k : str) (c : Conversation) : bool := str_eqb (chat_id c) k.

(** All the messages of a dictionary of conversations. *)
Definition all_messages (convs : Dict.t Conversation) : list Message :=
  flat_map (fun kc => messages (snd kc)) convs.

(** An attachment made from an entry of the catalogue. *)
Definition catalogued `{U : Unicode} (mf : Dict.t path) (a : Attachment) : Prop :=
  exists p, Dict.get (filename a) mf = Some p /\ a = attachment_of p (filename a).

(** [m'] is [m] with attachments from the catalogue appended. *)
Definition linked `{U : Unicode} (mf : Dict.t path) (m m' : Message) : Prop :=
  exists more, attachments m' = attachments m ++ more /\ Forall (catalogued mf) more.

(** The names of the media files of a listing, and the characters of the
    base64 alphabet. *)
Definition media_names `{U : Unicode} (tree : list entry) : list str :=
  map (fun e => name (e_path e)) (filter is_media tree).

Definition b64_alphabet (c : cp) : bool :=
  in_range 65 90 c || in_range 97 122 c || in_range 48 57 c
  || (c =? 43) || (c =? 47) || (c =? 61).

(** A component of a path, as a directory listing gives it. *)
Definition component (c : str) : Prop := c <> [] /\ c <> [DOT] /\ ~ In SLASH c.

(** A file name as WhatsApp gives them to media,
    [<prefix>-<8 digits>-WA<digits>.<extension>], and a text that does not go
    on with a letter or a digit. *)
Definition whatsapp_name `{U : Unicode} (nm : str) : Prop :=
  exists pfx d8 ds ext,
    nm = pfx ++ u "-" ++ d8 ++ u "-WA" ++ ds ++ [DOT] ++ ext
    /\ pfx <> [] /\ Forall (fun c => slug_char c = true) pfx
    /\ length d8 = 8%nat /\ Forall (fun c => isdecimal c = true) d8
    /\ ds <> [] /\ Forall (fun c => isdecimal c = true) ds
    /\ ext <> [] /\ (length ext <= 5)%nat /\ Forall (fun c => is_alnum_ascii c = true) ext.

Definition ends_name (tail : str) : Prop :=
  match tail with
  | [] => True
  | c :: _ => is_alnum_ascii c = false
  end.

(** The part of [filename_pat] before the extension. *)
Definition NAME_HEAD : list regex :=
  [plus (Set_ false (alnum_ascii ++ [IChar (ch "_"); IChar (ch "-")]));
   Lit (ch "-"); times 8 8 digit; Lit (ch "-"); Lit (ch "W"); Lit (ch "A");
   plus digit; Lit DOT].

(** The characters a file name read in a text can have: of Basic Latin
    only letters, digits, [_], [.] and [-]. *)
Definition name_char (c : cp) : bool :=
  negb (is_ascii c) || is_alnum_ascii c || (c =? 95) || (c =? 46) || (c =? 45).

(** [reads_only P r]: whatever [r] reads is made of characters in [P]. *)
Fixpoint reads_only `{U : Unicode} (P : cp -> bool) (r : regex) : Prop :=
  match r with
  | Lit c => P c = true
  | LitI c => forall x, lit_icase c x = true -> P x = true
  | Any => forall x, negb (x =? LF) = true -> P x = true
  | Set_ neg items => forall x, set_match neg items x = true -> P x = true
  | Cat a b => reads_only P a /\ reads_only P b
  | Alt a b => reads_only P a /\ reads_only P b
  | Rep _ _ _ a => reads_only P a
  | Group _ a => reads_only P a
  | Bol | Eol | Empty => True
  end.

(** A file name with one of the extensions of [generic_file_pat], in any
    case of the letters, and a text that does not go on with a character of
    the class [[\w.\-]]. *)
Definition name_part `{U : Unicode} (c : cp) : bool := isword c || (c =? 46) || (c =? 45).

Definition SUFFIX_NAMES : list str :=
  [u "jpg"; u "jpeg"; u "png"; u "gif"; u "mp4"; u "3gp"; u "mov"; u "avi"; u "mkv";
   u "m4v"; u "opus"; u "ogg"; u "mp3"; u "wav"; u "m4a"; u "pdf"; u "webp"; u "heic";
   u "doc"; u "docx"; u "xls"; u "xlsx"; u "zip"].

Definition generic_name `{U : Unicode} (nm : str) : Prop :=
  exists stem e,
    nm = stem ++ [DOT] ++ e
    /\ stem <> [] /\ Forall (fun c => name_part c = true) stem
    /\ In (map lower_ascii e) SUFFIX_NAMES.

Definition ends_generic `{U : Unicode} (tail : str) : Prop :=
  match tail with
  | [] => True
  | c :: _ => name_part c = false
  end.

(** The items of [date_from_name]. *)
Definition DATE_ITEMS : list regex :=
  [star Any; Lit (ch "-"); Group 1 (times 8 8 digit); Lit (ch "-"); Lit (ch "W");
   Lit (ch "A"); plus digit; Lit DOT; times 1 5 (Set_ false alnum_ascii); Eol].

(** A file name that carries the eight digits [d8] before [-WA]: any text
    of one line, a hyphen, the digits, and the rest as WhatsApp writes it. *)
Definition dated_name `{U : Unicode} (nm d8 : str) : Prop :=
  exists pfx ds ext,
    nm = pfx ++ u "-" ++ d8 ++ u "-WA" ++ ds ++ [DOT] ++ ext
    /\ ~ In LF pfx
    /\ length d8 = 8%nat /\ Forall (fun c => isdecimal c = true) d8
    /\ ds <> [] /\ Forall (fun c => isdecimal c = true) ds
    /\ ext <> [] /\ (length ext <= 5)%nat /\ Forall (fun c => is_alnum_ascii c = true) ext.

(** A header line whose date and time no format parses, and how often the
    clock is read over some lines: once for each such header. *)
Definition unresolved `{U : Unicode} (raw : str) : bool :=
  match classify (normalize raw) with
  | Some (d, t, _, _) =>
      match parse_datetime d t with
      | Some _ => false
      | None => true
      end
  | None => false
  end.

Definition clock_reads `{U : Unicode} (lines : list str) : nat :=
  length (filter unresolved lines).

(* ================================================================== *)
(** * Properties *)

(** ** Strings *)

Lemma str_eqb_eq (a b : str) : str_eqb a b = true <-> a = b.
Proof.
  unfold str_eqb. destruct (list_eq_dec N.eq_dec a b); split; congruence.
Qed.

Lemma str_eqb_refl (a : str) : str_eqb a a = true.
Proof. now apply str_eqb_eq. Qed.

Lemma str_eqb_neq (a b : str) : str_eqb a b = false <-> a <> b.
Proof.
  unfold str_eqb. destruct (list_eq_dec N.eq_dec a b); split; congruence.
Qed.


Lemma lstrip_split (s : str) :
  exists pre, s = pre ++ lstrip s /\ Forall is_space pre.
Proof.
  induction s as [|c t IH]; simpl.
  - exists []. split; [reflexivity | constructor].
  - destruct (isspace c) eqn:Hc.
    + destruct IH as (pre & Heq & Hpre).
      exists (c :: pre). split.
      * simpl. now rewrite <- Heq.
      * now constructor.
    + exists []. split; [reflexivity | constructor].
Qed.

Lemma lstrip_head (s : str) (c : cp) (t : str) :
  lstrip s = c :: t -> isspace c = false.
Proof.
  induction s as [|x s IH]; simpl; [discriminate|].
  destruct (isspace x) eqn:Hx; [exact IH|].
  intros H. injection H as -> _. exact Hx.
Qed.

Lemma rstrip_split (s : str) :
  exists post, s = rstrip s ++ post /\ Forall is_space post.
Proof.
  unfold rstrip. destruct (lstrip_split (rev s)) as (pre & Heq & Hpre).
  exists (rev pre). split.
  - rewrite <- rev_app_distr, <- Heq. now rewrite rev_involutive.
  - apply Forall_rev. exact Hpre.
Qed.

Lemma rstrip_last (s l : str) (c : cp) :
  rstrip s = l ++ [c] -> isspace c = false.
Proof.
  unfold rstrip. intros H.
  apply (f_equal (@rev cp)) in H.
  rewrite rev_involutive, rev_app_distr in H. simpl in H.
  now apply lstrip_head in H.
Qed.

Lemma strip_split (s : str) :
  exists pre post, s = pre ++ strip s ++ post /\ Forall is_space pre /\ Forall is_space post.
Proof.
  unfold strip.
  destruct (lstrip_split s) as (pre & H1 & Hpre).
  destruct (rstrip_split (lstrip s)) as (post & H2 & Hpost).
  exists pre, post. split; [|split]; trivial.
  now rewrite <- H2.
Qed.

Lemma strip_head (s : str) (c : cp) (t : str) :
  strip s = c :: t -> isspace c = false.
Proof.
  unfold strip. intros H.
  destruct (rstrip_split (lstrip s)) as (post & H2 & _).
  rewrite H in H2. simpl in H2.
  now apply lstrip_head in H2.
Qed.

Lemma strip_last (s l : str) (c : cp) :
  strip s = l ++ [c] -> isspace c = false.
Proof. unfold strip. apply rstrip_last. Qed.

Lemma strip_keeps (s : str) (c : cp) :
  isspace c = false -> In c s -> In c (strip s).
Proof.
  intros Hc Hin.
  destruct (strip_split s) as (pre & post & Heq & Hpre & Hpost).
  rewrite Heq in Hin.
  assert (Hno : forall l, Forall is_space l -> ~ In c l).
  { intros l Hl Hcl. rewrite Forall_forall in Hl. apply Hl in Hcl.
    unfold is_space in Hcl. congruence. }
  apply in_app_or in Hin. destruct Hin as [Hin|Hin]; [now apply Hno in Hin|].
  apply in_app_or in Hin. destruct Hin as [Hin|Hin]; [exact Hin|now apply Hno in Hin].
Qed.

Lemma strip_incl (s : str) (c : cp) : In c (strip s) -> In c s.
Proof.
  intros Hin. destruct (strip_split s) as (pre & post & Heq & _).
  rewrite Heq. apply in_or_app. right. apply in_or_app. now left.
Qed.

(** ** The line normaliser *)

Lemma replace_as_flat_map (raw : str) :
  replace NNBSP [SPACE] (replace NBSP [SPACE] (replace LRM [] raw)) = flat_map clean_cp raw.
Proof.
  unfold replace. induction raw as [|c t IH]; simpl; [reflexivity|].
  rewrite <- IH. unfold clean_cp.
  destruct (c =? LRM) eqn:H1; simpl; [reflexivity|].
  destruct (c =? NBSP) eqn:H2; simpl; [reflexivity|].
  destruct (c =? NNBSP) eqn:H3; simpl; reflexivity.
Qed.

Lemma clean_cp_out (c x : cp) :
  In x (clean_cp c) -> x <> LRM /\ x <> NBSP /\ x <> NNBSP.
Proof.
  unfold clean_cp.
  destruct (c =? LRM) eqn:H1; simpl; [tauto|].
  destruct (c =? NBSP) eqn:H2; simpl.
  - intros [<-|[]]. repeat split; discriminate.
  - destruct (c =? NNBSP) eqn:H3; simpl.
    + intros [<-|[]]. repeat split; discriminate.
    + intros [<-|[]].
      apply N.eqb_neq in H1, H2, H3. tauto.
Qed.

(** Claim C9, as the code has it: the normaliser removes the left-to-right
    mark U+200E, turns U+00A0 and U+202F into ordinary spaces, and trims the
    white space at both ends; nothing else changes, and the right-to-left
    mark U+200F stays where it is. *)
Theorem normalize_spec (raw : str) :
  (~ In LRM (normalize raw) /\ ~ In NBSP (normalize raw) /\ ~ In NNBSP (normalize raw))
  /\ (forall c t, normalize raw = c :: t -> isspace c = false)
  /\ (forall l c, normalize raw = l ++ [c] -> isspace c = false)
  /\ (exists pre post,
        flat_map clean_cp raw = pre ++ normalize raw ++ post
        /\ Forall is_space pre /\ Forall is_space post)
  /\ (In RLM raw -> In RLM (normalize raw)).
Proof.
  unfold normalize. rewrite replace_as_flat_map.
  split; [|split; [|split; [|split]]].
  - assert (H : forall x, In x (strip (flat_map clean_cp raw)) ->
                          x <> LRM /\ x <> NBSP /\ x <> NNBSP).
    { intros x Hx. apply strip_incl in Hx. apply in_flat_map in Hx.
      destruct Hx as (c & _ & Hc). now apply clean_cp_out in Hc. }
    repeat split; intros Hin; apply H in Hin; tauto.
  - apply strip_head.
  - apply strip_last.
  - apply strip_split.
  - intros Hin. apply strip_keeps; [reflexivity|].
    apply in_flat_map. exists RLM. split; [exact Hin|]. now left.
Qed.

(** Claim C9, as the specification words it, fails: a right-to-left mark
    inside a line survives the normaliser. *)
Lemma normalize_keeps_rlm :
  normalize [ch "a"; RLM; ch "b"] = [ch "a"; RLM; ch "b"]
  /\ In RLM (normalize [ch "a"; RLM; ch "b"]).
Proof. split; [reflexivity | vm_compute; tauto]. Qed.

(** ** Decoding the transcript *)

Lemma first_decoding_none (f : txt_file) :
  first_decoding f ENCODINGS = None <-> forall enc, read_text f enc = None.
Proof.
  unfold ENCODINGS. simpl. split.
  - intros H enc.
    destruct (read_text f utf_8_sig) eqn:H1; [discriminate|].
    destruct (read_text f utf_16) eqn:H2; [discriminate|].
    destruct (read_text f utf_8) eqn:H3; [discriminate|].
    now destruct enc.
  - intros H. now rewrite !H.
Qed.

(** Claim C8: the transcript is read under exactly three encodings, tried
    in the order utf-8-sig, utf-16, utf-8, the first that decodes being
    used; [parse_chat_text] raises if and only if all three fail, and then
    no message is parsed. *)
Theorem parse_chat_text_decoding `{U : Unicode} (now : nat -> datetime) (f : txt_file) :
  ENCODINGS = [utf_8_sig; utf_16; utf_8]
  /\ (parse_chat_text now f = Raises RuntimeError <-> forall enc, read_text f enc = None)
  /\ (forall data,
        first_decoding f ENCODINGS = Some data <->
        read_text f utf_8_sig = Some data
        \/ (read_text f utf_8_sig = None /\ read_text f utf_16 = Some data)
        \/ (read_text f utf_8_sig = None /\ read_text f utf_16 = None
            /\ read_text f utf_8 = Some data))
  /\ (forall data,
        first_decoding f ENCODINGS = Some data ->
        parse_chat_text now f
        = Returns (detect_title_from_txtname (txt_path f),
                   sort_messages (emitted now (splitlines data)))).
Proof.
  split; [reflexivity|]. split; [|split].
  - rewrite <- first_decoding_none. unfold parse_chat_text.
    destruct (first_decoding f ENCODINGS); split; congruence.
  - intros data. unfold ENCODINGS. simpl.
    destruct (read_text f utf_8_sig) eqn:H1;
      [|destruct (read_text f utf_16) eqn:H2;
        [|destruct (read_text f utf_8) eqn:H3]];
      (split; [intros H; auto|]);
      intros [H'|[[? H']|[? [? H']]]]; congruence.
  - intros data H. unfold parse_chat_text. now rewrite H.
Qed.

(** ** The timestamp resolver *)

Section Resolver_facts.
Context `{U : Unicode}.

Lemma try_formats_some (data : str) (fs : list str) (r : datetime) :
  try_formats data fs = Some r <->
  exists n f,
    nth_error fs n = Some f /\ Strptime.strptime data f = Some r
    /\ forall k f', (k < n)%nat -> nth_error fs k = Some f' ->
                    Strptime.strptime data f' = None.
Proof.
  induction fs as [|f0 fs IH]; simpl.
  - split; [discriminate|]. intros (n & f & H & _). now destruct n.
  - destruct (Strptime.strptime data f0) eqn:H0.
    + split.
      * intros H. exists 0%nat, f0. repeat split; [congruence|].
        intros k f' Hk. lia.
      * intros (n & f & Hn & Hf & Hbefore). destruct n as [|n].
        -- simpl in Hn. congruence.
        -- specialize (Hbefore 0%nat f0 (Nat.lt_0_succ n) eq_refl). congruence.
    + rewrite IH. split.
      * intros (n & f & Hn & Hf & Hbefore). exists (S n), f. repeat split; trivial.
        intros [|k] f' Hk Hk'; simpl in Hk'; [congruence|].
        apply (Hbefore k); [lia|exact Hk'].
      * intros (n & f & Hn & Hf & Hbefore). destruct n as [|n].
        -- simpl in Hn. congruence.
        -- exists n, f. repeat split; trivial.
           intros k f' Hk Hk'. apply (Hbefore (S k)); [lia|exact Hk'].
Qed.

Lemma try_formats_none (data : str) (fs : list str) :
  try_formats data fs = None <->
  forall f, In f fs -> Strptime.strptime data f = None.
Proof.
  induction fs as [|f0 fs IH]; simpl.
  - split; [intros _ f []|reflexivity].
  - destruct (Strptime.strptime data f0) eqn:H0.
    + split; [discriminate|]. intros H. rewrite <- H0. apply H. now left.
    + rewrite IH. split.
      * intros H f [<-|Hf]; [exact H0|now apply H].
      * intros H f Hf. apply H. now right.
Qed.

End Resolver_facts.

(** ** The matcher *)

Section Matcher_facts.
Context `{U : Unicode}.

Lemma consumes_refl (st : mstate) : consumes st [] st.
Proof. split; [reflexivity | simpl; lia]. Qed.

Lemma consumes_trans (a b c : mstate) (w1 w2 : str) :
  consumes a w1 b -> consumes b w2 c -> consumes a (w1 ++ w2) c.
Proof.
  intros [H1 H2] [H3 H4]. split.
  - now rewrite H1, H3, app_assoc.
  - rewrite H4, H2, length_app. lia.
Qed.

Lemma consumes_firstn (st m : mstate) (w : str) :
  consumes st w m -> firstn (m_pos m - m_pos st) (m_rest st) = w.
Proof.
  intros [H1 H2]. rewrite H2, H1.
  replace (m_pos st + length w - m_pos st)%nat with (length w + 0)%nat by lia.
  rewrite firstn_app_2. simpl. apply app_nil_r.
Qed.

Lemma in_one (p : cp -> bool) (st m : mstate) :
  In m (one p st) <->
  exists c t, m_rest st = c :: t /\ p c = true
              /\ m = {| m_pos := S (m_pos st); m_rest := t; m_groups := m_groups st |}.
Proof.
  unfold one. destruct (m_rest st) as [|c t]; simpl.
  - split; [tauto|]. intros (c & t & H & _). discriminate.
  - destruct (p c) eqn:Hp; simpl.
    + split.
      * intros [<-|[]]. now exists c, t.
      * intros (c' & t' & H & _ & ->). injection H as <- <-. now left.
    + split; [tauto|]. intros (c' & t' & H & Hp' & _). injection H as <- <-. congruence.
Qed.

Lemma one_consumes (p : cp -> bool) (st m : mstate) :
  In m (one p st) ->
  exists c, consumes st [c] m /\ p c = true /\ m_groups m = m_groups st.
Proof.
  rewrite in_one. intros (c & t & H & Hp & ->). exists c. repeat split; simpl; trivial. lia.
Qed.

Lemma in_run_cat (a b : regex) (st m : mstate) :
  In m (run (Cat a b) st) <-> exists x, In x (run a st) /\ In m (run b x).
Proof. simpl. apply in_flat_map. Qed.

Lemma in_run_alt (a b : regex) (st m : mstate) :
  In m (run (Alt a b) st) <-> In m (run a st) \/ In m (run b st).
Proof. simpl. apply in_app_iff. Qed.

Lemma in_run_group (n : nat) (a : regex) (st m : mstate) :
  In m (run (Group n a) st) <->
  exists x, In x (run a st)
            /\ m = set_group n (firstn (m_pos x - m_pos st) (m_rest st)) x.
Proof.
  simpl. rewrite in_map_iff. split; intros (x & H1 & H2); exists x; split; auto.
Qed.

Lemma in_run_eol (st m : mstate) :
  In m (run Eol st) <-> m = st /\ (m_rest st = [] \/ m_rest st = [LF]).
Proof.
  simpl. destruct (m_rest st) as [|x [|y t]]; simpl.
  - split; [intros [<-|[]]; auto | intros [-> _]; now left].
  - destruct (x =? LF) eqn:Hx; simpl.
    + apply N.eqb_eq in Hx. subst x.
      split; [intros [<-|[]]; auto | intros [-> _]; now left].
    + apply N.eqb_neq in Hx.
      split; [tauto|]. intros [_ [H|H]]; [discriminate | congruence].
  - split; [tauto|]. intros [_ [H|H]]; discriminate.
Qed.

(** One step of a repetition. *)
Lemma in_rep_step (f : mstate -> list mstate) (lo : nat) (hi : option nat)
      (g : bool) (fuel : nat) (st m : mstate) :
  In m (rep f lo hi g (S fuel) st) <->
  (lo = 0%nat /\ m = st)
  \/ (hi <> Some 0%nat
      /\ exists x, In x (f st) /\ (m_pos st < m_pos x)%nat
                   /\ In m (rep f (pred lo) (option_map pred hi) g fuel x)).
Proof.
  assert (Hstop : forall l : list mstate,
             In m (match lo with O => [st] | S _ => l end) -> l = [] ->
             lo = 0%nat /\ m = st).
  { intros l H ->. destruct lo; simpl in H; [|tauto]. destruct H as [<-|[]]. auto. }
  assert (Hmore :
            In m (match hi with
                  | Some O => []
                  | _ => flat_map
                           (fun st' => if Nat.ltb (m_pos st) (m_pos st')
                                       then rep f (pred lo) (option_map pred hi) g fuel st'
                                       else []) (f st)
                  end) <->
            hi <> Some 0%nat
            /\ exists x, In x (f st) /\ (m_pos st < m_pos x)%nat
                         /\ In m (rep f (pred lo) (option_map pred hi) g fuel x)).
  { assert (Hfm : In m (flat_map
                          (fun st' => if Nat.ltb (m_pos st) (m_pos st')
                                      then rep f (pred lo) (option_map pred hi) g fuel st'
                                      else []) (f st)) <->
                  exists x, In x (f st) /\ (m_pos st < m_pos x)%nat
                            /\ In m (rep f (pred lo) (option_map pred hi) g fuel x)).
    { rewrite in_flat_map. split; intros (x & Hx & H); exists x; split; trivial.
      - destruct (Nat.ltb (m_pos st) (m_pos x)) eqn:Hlt; [|destruct H].
        apply Nat.ltb_lt in Hlt. auto.
      - destruct H as [Hlt H]. apply Nat.ltb_lt in Hlt. now rewrite Hlt. }
    destruct hi as [[|h]|].
    - split; [intros []|]. intros [H _]. congruence.
    - rewrite Hfm. split; [intros H; split; [discriminate|exact H] | tauto].
    - rewrite Hfm. split; [intros H; split; [discriminate|exact H] | tauto]. }
  cbn [rep]. destruct g; rewrite in_app_iff, Hmore; split.
  - intros [H|H]; [now right|left]. now apply (Hstop []).
  - intros [[-> ->]|H]; [right; now left | now left].
  - intros [H|H]; [left|now right]. now apply (Hstop []).
  - intros [[-> ->]|H]; [left; now left | now right].
Qed.

(** A repetition of one-character steps reads a run of such characters. *)
Lemma rep_one_consumes (p : cp -> bool) (g : bool) (fuel : nat) :
  forall (lo : nat) (hi : option nat) (st m : mstate),
    In m (rep (one p) lo hi g fuel st) ->
    exists w, consumes st w m
              /\ Forall (fun c => p c = true) w
              /\ (lo <= length w)%nat
              /\ (forall h, hi = Some h -> (length w <= h)%nat)
              /\ m_groups m = m_groups st.
Proof.
  induction fuel as [|fuel IH]; intros lo hi st m H; [destruct H|].
  apply in_rep_step in H. destruct H as [[-> ->]|(Hhi & x & Hx & _ & Hm)].
  - exists []. split; [apply consumes_refl|].
    repeat split; simpl; auto; try lia.
  - apply one_consumes in Hx. destruct Hx as (c & Hc & Hp & Hg).
    apply IH in Hm. destruct Hm as (w & Hw & Hall & Hlo & Hhi' & Hg').
    exists ([c] ++ w). split; [|split; [|split; [|split]]].
    + eapply consumes_trans; eassumption.
    + simpl. now constructor.
    + simpl. lia.
    + intros h ->. simpl. destruct h as [|h]; [congruence|].
      specialize (Hhi' h eq_refl). lia.
    + congruence.
Qed.

Lemma rep_consumes (f : mstate -> list mstate) (g : bool) (fuel : nat) :
  (forall st m, In m (f st) -> exists w, consumes st w m) ->
  forall (lo : nat) (hi : option nat) (st m : mstate),
    In m (rep f lo hi g fuel st) -> exists w, consumes st w m.
Proof.
  intros Hf. induction fuel as [|fuel IH]; intros lo hi st m H; [destruct H|].
  apply in_rep_step in H. destruct H as [[-> ->]|(Hhi & x & Hx & _ & Hm)].
  - exists []. apply consumes_refl.
  - apply Hf in Hx. destruct Hx as (w1 & H1).
    apply IH in Hm. destruct Hm as (w2 & H2).
    exists (w1 ++ w2). eapply consumes_trans; eassumption.
Qed.

Lemma flat_map_ext_in {A B : Type} (f g : A -> list B) (l : list A) :
  (forall x, In x l -> f x = g x) -> flat_map f l = flat_map g l.
Proof.
  induction l as [|x l IH]; intros H; [reflexivity|].
  cbn [flat_map]. rewrite (H x (or_introl eq_refl)), IH; [reflexivity|].
  intros y Hy. apply H. now right.
Qed.

(** The fuel of a repetition does not run out: any amount above the length
    of the text left gives the same result. *)
Lemma rep_fuel (f : mstate -> list mstate) (g : bool) :
  (forall st m, In m (f st) -> exists w, consumes st w m) ->
  forall (fuel1 fuel2 lo : nat) (hi : option nat) (st : mstate),
    (length (m_rest st) < fuel1)%nat -> (length (m_rest st) < fuel2)%nat ->
    rep f lo hi g fuel1 st = rep f lo hi g fuel2 st.
Proof.
  intros Hf. induction fuel1 as [|fuel1 IH]; intros [|fuel2] lo hi st H1 H2; try lia.
  cbn [rep].
  assert (Hmore :
            flat_map (fun st' => if Nat.ltb (m_pos st) (m_pos st')
                                 then rep f (pred lo) (option_map pred hi) g fuel1 st'
                                 else []) (f st)
            = flat_map (fun st' => if Nat.ltb (m_pos st) (m_pos st')
                                   then rep f (pred lo) (option_map pred hi) g fuel2 st'
                                   else []) (f st)).
  { apply flat_map_ext_in. intros x Hx.
    destruct (Nat.ltb (m_pos st) (m_pos x)) eqn:Hlt; [|reflexivity].
    apply Nat.ltb_lt in Hlt. destruct (Hf st x Hx) as (w & Hw1 & Hw2).
    assert (Hlen : (length (m_rest x) < length (m_rest st))%nat).
    { rewrite Hw1, length_app. lia. }
    apply IH; lia. }
  destruct hi as [[|h]|]; [reflexivity | now rewrite Hmore | now rewrite Hmore].
Qed.

(** Whatever the expression, a run only moves forward in the text. *)
Lemma run_consumes (r : regex) :
  forall st m, In m (run r st) -> exists w, consumes st w m.
Proof.
  induction r as [c|c| |neg items|a IHa b IHb|a IHa b IHb|lo hi g a IHa|n a IHa| | |];
    intros st m H.
  - apply one_consumes in H. destruct H as (x & H & _). now exists [x].
  - apply one_consumes in H. destruct H as (x & H & _). now exists [x].
  - apply one_consumes in H. destruct H as (x & H & _). now exists [x].
  - apply one_consumes in H. destruct H as (x & H & _). now exists [x].
  - apply in_run_cat in H. destruct H as (x & H1 & H2).
    apply IHa in H1. apply IHb in H2.
    destruct H1 as (w1 & H1). destruct H2 as (w2 & H2).
    exists (w1 ++ w2). eapply consumes_trans; eassumption.
  - apply in_run_alt in H. destruct H as [H|H]; [now apply IHa | now apply IHb].
  - cbn [run] in H. revert H. apply rep_consumes. exact IHa.
  - apply in_run_group in H. destruct H as (x & H & ->).
    apply IHa in H. destruct H as (w & H). exists w. exact H.
  - simpl in H. destruct (Nat.eqb (m_pos st) 0); [|destruct H].
    destruct H as [<-|[]]. exists []. apply consumes_refl.
  - apply in_run_eol in H. destruct H as [-> _]. exists []. apply consumes_refl.
  - simpl in H. destruct H as [<-|[]]. exists []. apply consumes_refl.
Qed.

Lemma run_rep_fuel (lo : nat) (hi : option nat) (g : bool) (a : regex) (st : mstate)
      (fuel : nat) :
  (length (m_rest st) < fuel)%nat ->
  rep (run a) lo hi g fuel st = run (Rep lo hi g a) st.
Proof.
  intros H. cbn [run]. apply rep_fuel; [apply run_consumes | exact H | lia].
Qed.

Lemma match_in (r : regex) (s : str) (m : mstate) :
  match_ r s = Some m -> In m (run r (init s)).
Proof.
  unfold match_. destruct (run r (init s)) as [|x l]; simpl; [discriminate|].
  intros H. injection H as ->. now left.
Qed.

Lemma match_none (r : regex) (s : str) :
  match_ r s = None <-> run r (init s) = [].
Proof.
  unfold match_. destruct (run r (init s)); simpl; split; congruence.
Qed.

End Matcher_facts.

(** ** The line classifier *)

Section Classifier_facts.
Context `{U : Unicode}.

Lemma first_match_some (pats : list (regex * str)) (line : str) (m : mstate) :
  first_match pats line = Some m <->
  exists n pat,
    nth_error (map fst pats) n = Some pat /\ match_ pat line = Some m
    /\ forall k pat', (k < n)%nat -> nth_error (map fst pats) k = Some pat' ->
                      match_ pat' line = None.
Proof.
  induction pats as [|[p0 f0] pats IH]; simpl.
  - split; [discriminate|]. intros (n & pat & H & _). now destruct n.
  - destruct (match_ p0 line) eqn:H0.
    + split.
      * intros H. exists 0%nat, p0. repeat split; [congruence|].
        intros k pat' Hk. lia.
      * intros (n & pat & Hn & Hp & Hbefore). destruct n as [|n].
        -- simpl in Hn. congruence.
        -- specialize (Hbefore 0%nat p0 (Nat.lt_0_succ n) eq_refl). congruence.
    + rewrite IH. split.
      * intros (n & pat & Hn & Hp & Hbefore). exists (S n), pat. repeat split; trivial.
        intros [|k] pat' Hk Hk'; simpl in Hk'; [congruence|].
        apply (Hbefore k); [lia|exact Hk'].
      * intros (n & pat & Hn & Hp & Hbefore). destruct n as [|n].
        -- simpl in Hn. congruence.
        -- exists n, pat. repeat split; trivial.
           intros k pat' Hk Hk'. apply (Hbefore (S k)); [lia|exact Hk'].
Qed.

Lemma first_match_in (pats : list (regex * str)) (line : str) (m : mstate) :
  first_match pats line = Some m ->
  exists pat, In pat (map fst pats) /\ match_ pat line = Some m.
Proof.
  rewrite first_match_some. intros (n & pat & Hn & Hp & _).
  exists pat. split; [|exact Hp]. eapply nth_error_In. exact Hn.
Qed.

(** The patterns of the source, read from their text, are these. *)
Lemma header_patterns_shape :
  header_patterns = map header_pattern header_head_items.
Proof. vm_compute. reflexivity. Qed.

Lemma file_patterns_shape :
  filename_pat
  = Group 1 (cat [plus (Set_ false (alnum_ascii ++ [IChar (ch "_"); IChar (ch "-")]));
                  Lit (ch "-"); times 8 8 digit; Lit (ch "-"); Lit (ch "W"); Lit (ch "A");
                  plus digit; Lit DOT; times 1 5 (Set_ false alnum_ascii)])
  /\ generic_file_pat
     = Group 1 (cat [plus (Set_ false [IWord; IChar DOT; IChar (ch "-")]); Lit DOT;
                     alt (litsI (u "jpg")) MEDIA_SUFFIXES])
  /\ date_from_name
     = cat [star Any; Lit (ch "-"); Group 1 (times 8 8 digit); Lit (ch "-");
            Lit (ch "W"); Lit (ch "A"); plus digit; Lit DOT;
            times 1 5 (Set_ false alnum_ascii); Eol].
Proof. repeat split; vm_compute; reflexivity. Qed.

Lemma flat_map_assoc {A B C : Type} (f : A -> list B) (g : B -> list C) (l : list A) :
  flat_map g (flat_map f l) = flat_map (fun x => flat_map g (f x)) l.
Proof.
  induction l as [|x l IH]; [reflexivity|].
  cbn [flat_map]. now rewrite flat_map_app, IH.
Qed.

Lemma run_cat_app (l1 l2 : list regex) (st : mstate) :
  run (cat (l1 ++ l2)) st = flat_map (run (cat l2)) (run (cat l1) st).
Proof.
  revert st. induction l1 as [|a l1 IH]; intros st.
  - cbn [app cat fold_right run flat_map]. now rewrite app_nil_r.
  - cbn [app cat fold_right run]. fold (cat (l1 ++ l2)). fold (cat l1).
    rewrite flat_map_assoc. apply flat_map_ext. exact IH.
Qed.

Lemma in_header_pattern (head : list regex) (st m : mstate) :
  In m (run (header_pattern head) st) <->
  exists x, In x (run (cat head) st) /\ In m (run author_body_re x).
Proof. unfold header_pattern. rewrite run_cat_app. apply in_flat_map. Qed.

Lemma not_colon (c : cp) : set_match true [IChar COLON] c = true -> c <> COLON.
Proof.
  unfold set_match. simpl. rewrite orb_false_r.
  destruct (c =? COLON) eqn:H; simpl; [discriminate|].
  intros _. now apply N.eqb_neq.
Qed.

Lemma is_space_class (c : cp) : set_match false [ISpace] c = true -> isspace c = true.
Proof. unfold set_match. simpl. now rewrite orb_false_r. Qed.

Lemma not_newline (c : cp) : negb (c =? LF) = true -> c <> LF.
Proof. rewrite negb_true_iff. apply N.eqb_neq. Qed.

(** What the common end of the header patterns reads: an author without
    colon, white space, the colon, one white space, the body up to the
    end of the line. *)
Lemma author_body_spec (st m : mstate) :
  In m (run author_body_re st) ->
  exists a ws w b,
    m_rest st = a ++ ws ++ COLON :: w :: b ++ m_rest m
    /\ a <> [] /\ ~ In COLON a
    /\ Forall is_space ws /\ isspace w = true
    /\ ~ In LF b /\ (m_rest m = [] \/ m_rest m = [LF])
    /\ m_groups m = (4%nat, b) :: (3%nat, a) :: m_groups st.
Proof.
  unfold author_body_re, author_body_items, cat, star, plus_lazy, space.
  cbn [fold_right].
  intros H.
  apply in_run_cat in H. destruct H as (x1 & H1 & H).
  apply in_run_group in H1. destruct H1 as (y1 & H1 & ->).
  cbn [run] in H1. apply rep_one_consumes in H1.
  destruct H1 as (a & Ha & Hna & Hlen & _ & Hg1).
  rewrite (consumes_firstn _ _ _ Ha) in H.
  apply in_run_cat in H. destruct H as (x2 & H2 & H).
  cbn [run] in H2. apply rep_one_consumes in H2.
  destruct H2 as (ws & Hws & Hsp & _ & _ & Hg2).
  apply in_run_cat in H. destruct H as (x3 & H3 & H).
  apply one_consumes in H3. destruct H3 as (c & Hc & Hceq & Hg3).
  apply N.eqb_eq in Hceq. subst c.
  apply in_run_cat in H. destruct H as (x4 & H4 & H).
  apply one_consumes in H4. destruct H4 as (w & Hw & Hwsp & Hg4).
  apply is_space_class in Hwsp.
  apply in_run_cat in H. destruct H as (x5 & H5 & H).
  apply in_run_group in H5. destruct H5 as (y5 & H5 & ->).
  cbn [run] in H5. apply rep_one_consumes in H5.
  destruct H5 as (b & Hb & Hnl & _ & _ & Hg5).
  rewrite (consumes_firstn _ _ _ Hb) in H.
  apply in_run_cat in H. destruct H as (x6 & H6 & H).
  apply in_run_eol in H6. destruct H6 as [-> Hend].
  simpl in H. destruct H as [<-|[]].
  exists a, ws, w, b. simpl in *.
  destruct Ha as [Ea _], Hws as [Ews _], Hc as [Ec _], Hw as [Ew _], Hb as [Eb _].
  simpl in *.
  split; [|split; [|split; [|split; [|split; [|split; [|split]]]]]].
  - rewrite Ea, Ews, Ec, Ew, Eb. reflexivity.
  - intros ->. simpl in Hlen. lia.
  - intros Hin. rewrite Forall_forall in Hna. apply Hna in Hin.
    now apply not_colon in Hin.
  - eapply Forall_impl; [|exact Hsp]. intros c. apply is_space_class.
  - exact Hwsp.
  - intros Hin. rewrite Forall_forall in Hnl. apply Hnl in Hin.
    now apply not_newline in Hin.
  - exact Hend.
  - rewrite Hg5, Hg4, Hg3, Hg2. simpl. now rewrite Hg1.
Qed.

End Classifier_facts.

(** Claim C5, as the code has it: on a line accepted as a header the author
    is the text between the time stamp and the first colon after it, white
    space trimmed; it contains no colon, the colon is followed by one white
    space character, and the body is all that follows, colons included. *)
Theorem classify_author_body `{U : Unicode} (line d t a b : str) :
  classify line = Some (d, t, a, b) ->
  exists stamp raw_author ws w tl,
    line = stamp ++ raw_author ++ ws ++ COLON :: w :: b ++ tl
    /\ (exists head st, In head header_heads /\ In st (run head (init line))
                        /\ consumes (init line) stamp st)
    /\ a = strip raw_author
    /\ raw_author <> [] /\ ~ In COLON raw_author /\ ~ In COLON a
    /\ Forall is_space ws /\ isspace w = true
    /\ ~ In LF b
    /\ (tl = [] \/ tl = [LF])
    /\ (~ In LF line -> tl = []).
Proof.
  unfold classify. intros H.
  destruct (first_match DATE_TIME_PATTERNS line) as [m|] eqn:Hm; [|discriminate].
  injection H as <- <- <- <-.
  apply first_match_in in Hm. destruct Hm as (pat & Hpat & Hmatch).
  fold header_patterns in Hpat. rewrite header_patterns_shape in Hpat.
  apply in_map_iff in Hpat. destruct Hpat as (items & <- & Hitems).
  apply match_in in Hmatch. apply in_header_pattern in Hmatch.
  destruct Hmatch as (st & Hst & Htail).
  assert (Hhead : In (cat items) header_heads) by (now apply in_map).
  destruct (run_consumes _ _ _ Hst) as (stamp & Hstamp).
  apply author_body_spec in Htail.
  destruct Htail as (ra & ws & w & body & Hrest & Hne & Hnc & Hws & Hw & Hnl & Hend & Hg).
  assert (Hline : line = stamp ++ ra ++ ws ++ COLON :: w :: body ++ m_rest m).
  { destruct Hstamp as [E _]. simpl in E. now rewrite E, Hrest. }
  assert (G3 : group 3 m = ra) by (unfold group; rewrite Hg; reflexivity).
  assert (G4 : group 4 m = body) by (unfold group; rewrite Hg; reflexivity).
  exists stamp, ra, ws, w, (m_rest m). rewrite G3, G4.
  split; [exact Hline|].
  split; [exists (cat items), st; auto|].
  split; [reflexivity|].
  split; [exact Hne|].
  split; [exact Hnc|].
  split; [intros Hin; apply Hnc; now apply strip_incl in Hin|].
  split; [exact Hws|].
  split; [exact Hw|].
  split; [exact Hnl|].
  split; [exact Hend|].
  intros Hno. destruct Hend as [E|E]; [exact E|].
  exfalso. apply Hno. rewrite Hline, E.
  apply in_or_app. right. apply in_or_app. right. apply in_or_app. right.
  right. right. apply in_or_app. right. now left.
Qed.

Lemma classify_author_body_witness :
  exists stamp raw_author ws w tl,
    u "[05/03/2024 14:30:00] Alice : see: this" =
      stamp ++ raw_author ++ ws ++ COLON :: w :: u "see: this" ++ tl
    /\ u "Alice" = strip raw_author
    /\ ~ In COLON raw_author
    /\ tl = [].
Proof.
  destruct (@classify_author_body latin1
              (u "[05/03/2024 14:30:00] Alice : see: this")
              (u "05/03/2024") (u "14:30:00") (u "Alice") (u "see: this"))
    as (stamp & ra & ws & w & tl & H1 & _ & H3 & _ & H5 & _ & _ & _ & _ & _ & H11).
  - vm_compute. reflexivity.
  - exists stamp, ra, ws, w, tl. repeat split; trivial.
    apply H11. vm_compute. intuition discriminate.
Defined.

(** Claim C5, as the specification words it, fails: a colon in the author
    position that no white space follows is not absorbed into the author,
    the line is not a header at all. *)
Lemma colon_in_author_is_no_header :
  @classify latin1 (u "[05/03/2024 14:30] Dr:Who: hi") = None
  /\ @classify latin1 (u "[05/03/2024 14:30] Who: hi")
     = Some (u "05/03/2024", u "14:30", u "Who", u "hi").
Proof. split; vm_compute; reflexivity. Qed.

(** ** The order of the patterns *)

Section Precedence_facts.
Context `{U : Unicode}.

Lemma rep_hi_mono (f : mstate -> list mstate) (g : bool) (fuel : nat) :
  forall (lo hi hi' : nat) (st : mstate),
    (hi <= hi')%nat ->
    incl (rep f lo (Some hi) g fuel st) (rep f lo (Some hi') g fuel st).
Proof.
  induction fuel as [|fuel IH]; intros lo hi hi' st Hle m H; [destruct H|].
  apply in_rep_step in H. apply in_rep_step.
  destruct H as [H|(Hhi & x & Hx & Hlt & Hm)]; [now left|right].
  split; [intros E; injection E as ->; apply Hhi; f_equal; lia|].
  exists x. repeat split; trivial.
  simpl in *. revert Hm. apply IH. lia.
Qed.

Lemma incl_cat_l (a a' b : regex) :
  (forall st, incl (run a st) (run a' st)) ->
  forall st, incl (run (Cat a b) st) (run (Cat a' b) st).
Proof.
  intros Ha st m H. apply in_run_cat in H. apply in_run_cat.
  destruct H as (x & H1 & H2). exists x. split; [now apply Ha|exact H2].
Qed.

Lemma incl_cat_r (a b b' : regex) :
  (forall st, incl (run b st) (run b' st)) ->
  forall st, incl (run (Cat a b) st) (run (Cat a b') st).
Proof.
  intros Hb st m H. apply in_run_cat in H. apply in_run_cat.
  destruct H as (x & H1 & H2). exists x. split; [exact H1|now apply Hb].
Qed.

Lemma incl_group (n : nat) (a a' : regex) :
  (forall st, incl (run a st) (run a' st)) ->
  forall st, incl (run (Group n a) st) (run (Group n a') st).
Proof.
  intros Ha st m H. apply in_run_group in H. apply in_run_group.
  destruct H as (x & H1 & H2). exists x. split; [now apply Ha|exact H2].
Qed.

(** Whatever the 2-digit-year pattern matches, the pattern before it in
    the list matches as well, with the same groups. *)
Lemma dashed_2y_in_4y (st : mstate) :
  incl (run (dashed_pattern 2 2) st) (run (dashed_pattern 2 4) st).
Proof.
  revert st. unfold dashed_pattern, header_pattern, dashed_items.
  cbn [app cat fold_right].
  apply incl_cat_r. apply incl_cat_l. apply incl_group.
  unfold date_items, cat. cbn [fold_right].
  do 4 apply incl_cat_r. apply incl_cat_l.
  intros st. unfold times. cbn [run]. apply rep_hi_mono. lia.
Qed.

Lemma dashed_2y_shadowed (line : str) :
  matches (dashed_pattern 2 2) line = true ->
  matches (dashed_pattern 2 4) line = true.
Proof.
  unfold matches.
  destruct (match_ (dashed_pattern 2 2) line) as [m|] eqn:H; [|discriminate].
  intros _. apply match_in in H. apply dashed_2y_in_4y in H.
  destruct (match_ (dashed_pattern 2 4) line) eqn:H'; [reflexivity|].
  apply match_none in H'. rewrite H' in H. destruct H.
Qed.

End Precedence_facts.

(** Claim C4, as the code has it: the patterns are tried in the order
    bracketed 24-hour, bracketed 12-hour, dashed with a year of 2 to 4
    digits, dashed with a 2-digit year, bare with seconds, and the first
    match wins.  The samples of the bracketed, the dashed 4-digit and the
    bare format match one pattern each; a dashed line with a 2-digit year
    matches both dashed patterns, and the earlier one wins, for the sample
    and for every line. *)
Theorem classifier_precedence `{U : Unicode} :
  header_patterns
  = [header_pattern bracket_24h_items; header_pattern bracket_12h_items;
     dashed_pattern 2 4; dashed_pattern 2 2; header_pattern bare_items]
  /\ (forall line m,
        first_match DATE_TIME_PATTERNS line = Some m <->
        exists n pat,
          nth_error header_patterns n = Some pat /\ match_ pat line = Some m
          /\ forall k pat', (k < n)%nat -> nth_error header_patterns k = Some pat' ->
                            match_ pat' line = None)
  /\ matching sample_bracket_24h = [true; false; false; false; false]
  /\ matching sample_bracket_12h = [false; true; false; false; false]
  /\ matching sample_dashed_4y = [false; false; true; false; false]
  /\ matching sample_dashed_2y = [false; false; true; true; false]
  /\ matching sample_bare = [false; false; false; false; true]
  /\ (forall line,
        matches (dashed_pattern 2 2) line = true ->
        matches (dashed_pattern 2 4) line = true).
Proof.
  split; [apply header_patterns_shape|].
  split; [intros line m; apply first_match_some|].
  repeat (split; [vm_compute; reflexivity|]).
  apply dashed_2y_shadowed.
Qed.

(** Claim C4, as the specification words it, fails on the sample of the
    dashed format with a 2-digit year: two patterns of the list match it. *)
Lemma dashed_2y_sample_matches_twice :
  length (filter (fun x => x) (@matching latin1 sample_dashed_2y)) = 2%nat.
Proof. vm_compute. reflexivity. Qed.

(** ** Sorting by time stamp *)

Lemma lex_compare_antisym (a b : list N) :
  lex_compare b a = CompOpp (lex_compare a b).
Proof.
  revert b. induction a as [|x a IH]; intros [|y b]; simpl; trivial.
  rewrite (N.compare_antisym x y).
  destruct (x ?= y); simpl; trivial.
Qed.

Lemma lex_compare_eq (a b : list N) : lex_compare a b = Eq <-> a = b.
Proof.
  revert b. induction a as [|x a IH]; intros [|y b]; simpl;
    try (split; [discriminate|congruence]); try tauto.
  destruct (x ?= y) eqn:Hxy.
  - apply N.compare_eq_iff in Hxy. subst y. rewrite IH.
    split; [intros ->; reflexivity | intros H; now injection H].
  - split; [discriminate|]. intros H. injection H as -> _.
    rewrite N.compare_refl in Hxy. discriminate.
  - split; [discriminate|]. intros H. injection H as -> _.
    rewrite N.compare_refl in Hxy. discriminate.
Qed.

Lemma lex_compare_lt_trans (a b c : list N) :
  lex_compare a b = Lt -> lex_compare b c = Lt -> lex_compare a c = Lt.
Proof.
  revert b c. induction a as [|x a IH]; intros [|y b] [|z c]; simpl;
    try discriminate; trivial.
  destruct (x ?= y) eqn:Hxy; try discriminate.
  - apply N.compare_eq_iff in Hxy. subst y.
    destruct (x ?= z); trivial. apply IH.
  - intros _. destruct (y ?= z) eqn:Hyz; try discriminate.
    + apply N.compare_eq_iff in Hyz. subst z. now rewrite Hxy.
    + intros _. rewrite N.compare_lt_iff in Hxy, Hyz.
      assert (Hxz : x < z) by lia. apply N.compare_lt_iff in Hxz. now rewrite Hxz.
Qed.

Lemma dt_ltb_asym (a b : datetime) : dt_ltb a b = true -> dt_ltb b a = false.
Proof.
  unfold dt_ltb. rewrite (lex_compare_antisym (fields a) (fields b)).
  destruct (lex_compare (fields a) (fields b)); simpl; congruence.
Qed.

Lemma dt_leb_total (a b : datetime) : dt_leb a b = false -> dt_leb b a = true.
Proof.
  unfold dt_leb. rewrite negb_false_iff, negb_true_iff. apply dt_ltb_asym.
Qed.

Lemma dt_leb_refl (a : datetime) : dt_leb a a = true.
Proof.
  unfold dt_leb, dt_ltb.
  now rewrite (proj2 (lex_compare_eq (fields a) (fields a)) eq_refl).
Qed.

Lemma dt_leb_trans (a b c : datetime) :
  dt_leb a b = true -> dt_leb b c = true -> dt_leb a c = true.
Proof.
  unfold dt_leb, dt_ltb. rewrite !negb_true_iff.
  rewrite (lex_compare_antisym (fields a) (fields b)),
          (lex_compare_antisym (fields b) (fields c)),
          (lex_compare_antisym (fields a) (fields c)).
  destruct (lex_compare (fields a) (fields b)) eqn:Hab; cbn [CompOpp];
    try discriminate; intros _.
  - apply lex_compare_eq in Hab. rewrite Hab. trivial.
  - destruct (lex_compare (fields b) (fields c)) eqn:Hbc; cbn [CompOpp];
      try discriminate; intros _.
    + apply lex_compare_eq in Hbc. rewrite <- Hbc, Hab. reflexivity.
    + now rewrite (lex_compare_lt_trans _ _ _ Hab Hbc).
Qed.

Lemma dt_eqb_not_ltb (a b t : datetime) :
  dt_eqb a t = true -> dt_eqb b t = true -> dt_ltb a b = false.
Proof.
  unfold dt_eqb, dt_ltb.
  destruct (lex_compare (fields a) (fields t)) eqn:Ha; try discriminate.
  destruct (lex_compare (fields b) (fields t)) eqn:Hb; try discriminate.
  apply lex_compare_eq in Ha, Hb. intros _ _.
  rewrite Ha, Hb. now rewrite (proj2 (lex_compare_eq (fields t) (fields t)) eq_refl).
Qed.

Lemma insert_message_perm (m : Message) (l : list Message) :
  Permutation (m :: l) (insert_message m l).
Proof.
  induction l as [|x l IH]; simpl; [reflexivity|].
  destruct (dt_leb (timestamp m) (timestamp x)); [reflexivity|].
  rewrite perm_swap. now constructor.
Qed.

Lemma sort_messages_perm (l : list Message) : Permutation l (sort_messages l).
Proof.
  induction l as [|m l IH]; simpl; [constructor|].
  rewrite <- insert_message_perm. now constructor.
Qed.

Lemma insert_message_sorted (m : Message) (l : list Message) :
  StronglySorted not_later l -> StronglySorted not_later (insert_message m l).
Proof.
  induction l as [|x l IH]; simpl; intros Hs.
  - constructor; constructor.
  - inversion Hs as [|? ? Hl Hx]; subst.
    destruct (dt_leb (timestamp m) (timestamp x)) eqn:Hmx.
    + constructor; [exact Hs|]. constructor; [exact Hmx|].
      eapply Forall_impl; [|exact Hx]. intros y Hy.
      unfold not_later in *. eapply dt_leb_trans; eassumption.
    + constructor; [now apply IH|].
      rewrite Forall_forall. intros y Hy.
      apply (Permutation_in _ (Permutation_sym (insert_message_perm m l))) in Hy.
      destruct Hy as [<-|Hy].
      * now apply dt_leb_total.
      * rewrite Forall_forall in Hx. now apply Hx.
Qed.

Lemma sort_messages_sorted (l : list Message) : StronglySorted not_later (sort_messages l).
Proof.
  induction l as [|m l IH]; simpl; [constructor|]. now apply insert_message_sorted.
Qed.

Lemma insert_message_stable (t : datetime) (m : Message) (l : list Message) :
  filter (at_time t) (insert_message m l) = filter (at_time t) (m :: l).
Proof.
  induction l as [|x l IH]; [reflexivity|].
  cbn [insert_message].
  destruct (dt_leb (timestamp m) (timestamp x)) eqn:Hmx; [reflexivity|].
  cbn [filter] in *. rewrite IH.
  destruct (at_time t m) eqn:Hm; [|reflexivity].
  destruct (at_time t x) eqn:Hx; [|reflexivity].
  exfalso. unfold at_time in *. unfold dt_leb in Hmx.
  rewrite (dt_eqb_not_ltb _ _ _ Hx Hm) in Hmx. discriminate.
Qed.

Lemma sort_messages_stable (t : datetime) (l : list Message) :
  filter (at_time t) (sort_messages l) = filter (at_time t) l.
Proof.
  induction l as [|m l IH]; [reflexivity|].
  cbn [sort_messages fold_right]. fold (sort_messages l).
  rewrite insert_message_stable. cbn [filter]. now rewrite IH.
Qed.

Lemma sort_three (m1 m2 m3 : Message) :
  dt_ltb (timestamp m1) (timestamp m2) = true ->
  dt_ltb (timestamp m2) (timestamp m3) = true ->
  sort_messages ([m1; m3] ++ [m2]) = [m1; m2; m3].
Proof.
  intros H12 H23. unfold sort_messages. cbn [app fold_right insert_message].
  unfold dt_leb. rewrite H23. cbn [negb insert_message].
  unfold dt_leb. rewrite (dt_ltb_asym _ _ H12). reflexivity.
Qed.

(** ** Dictionaries *)

Lemma get_set_same {V : Type} (k : str) (v : V) (d : Dict.t V) :
  Dict.get k (Dict.set k v d) = Some v.
Proof.
  induction d as [|[k' v'] d IH]; simpl.
  - now rewrite str_eqb_refl.
  - destruct (str_eqb k' k) eqn:Hk; simpl; rewrite Hk; trivial.
Qed.

Lemma get_set_other {V : Type} (k k0 : str) (v : V) (d : Dict.t V) :
  k0 <> k -> Dict.get k0 (Dict.set k v d) = Dict.get k0 d.
Proof.
  intros Hne. induction d as [|[k' v'] d IH]; simpl.
  - destruct (str_eqb k k0) eqn:Hk; trivial.
    apply str_eqb_eq in Hk. congruence.
  - destruct (str_eqb k' k) eqn:Hk; simpl.
    + apply str_eqb_eq in Hk. subst k'.
      destruct (str_eqb k k0) eqn:Hk0; trivial.
      apply str_eqb_eq in Hk0. congruence.
    + now rewrite IH.
Qed.

(** Claim C2: the list [parse_chat_text] returns is the list of the
    messages it emitted, sorted by time stamp, messages of one time stamp in
    the order of emission; the merge of two conversations of one id is
    sorted in the same way; merging messages at t1 and t3 with one at t2,
    t1 < t2 < t3, gives the order t1, t2, t3. *)
Theorem messages_sorted `{U : Unicode} :
  (forall now f title_ msgs,
      parse_chat_text now f = Returns (title_, msgs) ->
      exists data,
        first_decoding f ENCODINGS = Some data
        /\ StronglySorted not_later msgs
        /\ Permutation (emitted now (splitlines data)) msgs
        /\ forall t, filter (at_time t) msgs
                     = filter (at_time t) (emitted now (splitlines data)))
  /\ (forall old new,
        StronglySorted not_later (messages (merge_into old new))
        /\ Permutation (messages old ++ messages new) (messages (merge_into old new))
        /\ (forall t, filter (at_time t) (messages (merge_into old new))
                      = filter (at_time t) (messages old ++ messages new))
        /\ chat_id (merge_into old new) = chat_id old)
  /\ (forall convs conv old,
        Dict.get (chat_id conv) convs = Some old ->
        Dict.get (chat_id conv) (add_conversation convs conv) = Some (merge_into old conv))
  /\ (forall a b m1 m2 m3,
        messages a = [m1; m3] -> messages b = [m2] ->
        dt_ltb (timestamp m1) (timestamp m2) = true ->
        dt_ltb (timestamp m2) (timestamp m3) = true ->
        messages (merge_into a b) = [m1; m2; m3]).
Proof.
  split; [|split; [|split]].
  - intros now f title_ msgs H. unfold parse_chat_text in H.
    destruct (first_decoding f ENCODINGS) as [data|]; [|discriminate].
    injection H as _ <-. exists data.
    split; [reflexivity|].
    split; [apply sort_messages_sorted|].
    split; [apply sort_messages_perm|].
    intros t. apply sort_messages_stable.
  - intros old new. simpl.
    split; [apply sort_messages_sorted|].
    split; [apply sort_messages_perm|].
    split; [intros t; apply sort_messages_stable | reflexivity].
  - intros convs conv old H. unfold add_conversation. rewrite H. apply get_set_same.
  - intros a b m1 m2 m3 Ha Hb H12 H23. cbn [merge_into set_messages messages].
    rewrite Ha, Hb. now apply sort_three.
Qed.

Lemma messages_sorted_witness :
  let t1 := mk_datetime 2024 3 5 9 0 0 in
  let t2 := mk_datetime 2024 3 5 10 0 0 in
  let t3 := mk_datetime 2024 3 6 8 0 0 in
  let a := new_conversation (u "Manon") [new_message t1 (u "A") (u "one");
                                         new_message t3 (u "A") (u "three")] [u "a"] in
  let b := new_conversation (u "Manon") [new_message t2 (u "B") (u "two")] [u "b"] in
  map timestamp (messages (merge_into a b)) = [t1; t2; t3]
  /\ Dict.get (chat_id b) (add_conversation (add_conversation [] a) b)
     = Some (merge_into a b).
Proof.
  intros t1 t2 t3 a b. split.
  - rewrite (proj2 (proj2 (proj2 (@messages_sorted latin1))) a b
               (new_message t1 (u "A") (u "one")) (new_message t2 (u "B") (u "two"))
               (new_message t3 (u "A") (u "three")));
      reflexivity.
  - apply (proj1 (proj2 (proj2 (@messages_sorted latin1)))). reflexivity.
Defined.

(** ** The line loop *)

Section Parser_facts.
Context `{U : Unicode}.
Variable now : nat -> datetime.

Lemma parse_lines_app (l1 l2 : list str) (st : pstate) :
  parse_lines now (l1 ++ l2) st = parse_lines now l2 (parse_lines now l1 st).
Proof. unfold parse_lines. apply fold_left_app. Qed.

Lemma parse_line_closed (st : pstate) (raw : str) :
  exists more, closed (parse_line now st raw) = closed st ++ more.
Proof.
  unfold parse_line.
  destruct (classify (normalize raw)) as [[[[d t] a] b]|].
  - destruct (parse_datetime d t); cbn [closed]; unfold flush;
      destruct (current st); eauto using app_nil_r.
  - destruct (current st); cbn [closed]; exists []; now rewrite app_nil_r.
Qed.

Lemma parse_lines_closed (lines : list str) (st : pstate) :
  exists more, closed (parse_lines now lines st) = closed st ++ more.
Proof.
  revert st. induction lines as [|raw lines IH]; intros st.
  - exists []. simpl. now rewrite app_nil_r.
  - cbn [parse_lines fold_left]. fold (parse_lines now lines (parse_line now st raw)).
    destruct (IH (parse_line now st raw)) as (m2 & H2).
    destruct (parse_line_closed st raw) as (m1 & H1).
    exists (m1 ++ m2). now rewrite H2, H1, app_assoc.
Qed.

Lemma closed_in_flush (st : pstate) (m : Message) : In m (closed st) -> In m (flush st).
Proof.
  unfold flush. destruct (current st); [|trivial].
  intros H. apply in_or_app. now left.
Qed.

Lemma parse_line_header (st : pstate) (raw d t a b : str) :
  classify (normalize raw) = Some (d, t, a, b) ->
  exists ts,
    (parse_datetime d t = Some ts
     \/ (parse_datetime d t = None /\ ts = now (ticks st)))
    /\ closed (parse_line now st raw) = flush st
    /\ current (parse_line now st raw) = Some (new_message ts a (strip b)).
Proof.
  intros H. unfold parse_line. rewrite H.
  destruct (parse_datetime d t) as [ts|].
  - exists ts. auto.
  - exists (now (ticks st)). auto.
Qed.

Lemma parse_line_continuation (st : pstate) (raw : str) (c : Message) :
  classify (normalize raw) = None ->
  current st = Some c ->
  current (parse_line now st raw) = Some (append_text c (LF :: normalize raw))
  /\ closed (parse_line now st raw) = closed st.
Proof. intros H Hc. unfold parse_line. rewrite H, Hc. auto. Qed.

Lemma parse_line_noise (st : pstate) (raw : str) :
  classify (normalize raw) = None -> current st = None -> parse_line now st raw = st.
Proof. intros H Hc. unfold parse_line. now rewrite H, Hc. Qed.

Lemma parse_lines_noise (noise : list str) (st : pstate) :
  (forall l, In l noise -> classify (normalize l) = None) ->
  current st = None ->
  parse_lines now noise st = st.
Proof.
  induction noise as [|raw noise IH]; intros Hn Hc; [reflexivity|].
  cbn [parse_lines fold_left].
  rewrite parse_line_noise; [|apply Hn; now left|exact Hc].
  apply IH; [|exact Hc]. intros l Hl. apply Hn. now right.
Qed.

(** A header, two lines that are no headers, a header: the first header's
    message is closed with the two lines appended. *)
Lemma block_emitted (pre post : list str) (H1 L1 L2 H2 d t a b : str) :
  classify (normalize H1) = Some (d, t, a, b) ->
  classify (normalize L1) = None ->
  classify (normalize L2) = None ->
  classify (normalize H2) <> None ->
  exists ts,
    (parse_datetime d t = Some ts \/ (parse_datetime d t = None /\ exists k, ts = now k))
    /\ In {| timestamp := ts; author := a;
             text := strip b ++ [LF] ++ normalize L1 ++ [LF] ++ normalize L2;
             attachments := [] |}
          (emitted now (pre ++ [H1; L1; L2; H2] ++ post)).
Proof.
  intros Hh1 Hl1 Hl2 Hh2.
  unfold emitted. rewrite !parse_lines_app.
  set (st0 := parse_lines now pre pstate0).
  cbn [parse_lines fold_left].
  destruct (parse_line_header st0 H1 _ _ _ _ Hh1) as (ts & Hts & _ & Hc1).
  set (st1 := parse_line now st0 H1) in *.
  destruct (parse_line_continuation st1 L1 _ Hl1 Hc1) as (Hc2 & _).
  set (st2 := parse_line now st1 L1) in *.
  destruct (parse_line_continuation st2 L2 _ Hl2 Hc2) as (Hc3 & _).
  set (st3 := parse_line now st2 L2) in *.
  destruct (classify (normalize H2)) as [[[[d2 t2] a2] b2]|] eqn:Hh2'; [|congruence].
  destruct (parse_line_header st3 H2 _ _ _ _ Hh2') as (ts2 & _ & Hcl & _).
  set (st4 := parse_line now st3 H2) in *.
  exists ts. split.
  - destruct Hts as [Hts|[Hts ->]]; [now left|right]. split; [exact Hts|]. now exists (ticks st0).
  - apply closed_in_flush.
    fold (parse_lines now post st4).
    destruct (parse_lines_closed post st4) as (more & ->).
    apply in_or_app. left. rewrite Hcl. unfold flush. rewrite Hc3.
    apply in_or_app. right. left.
    unfold append_text, new_message. cbn.
    f_equal. rewrite <- !app_assoc. reflexivity.
Qed.

End Parser_facts.

(** What the parser returns carries no attachment yet: the linker works on
    fresh messages. *)
Lemma parsed_messages_fresh `{U : Unicode} (now : nat -> datetime) (f : txt_file)
      (title_ : str) (msgs : list Message) :
  parse_chat_text now f = Returns (title_, msgs) -> fresh msgs.
Proof.
  unfold parse_chat_text. destruct (first_decoding f ENCODINGS) as [data|]; [|discriminate].
  intros H. injection H as _ <-.
  assert (Hinv : forall lines st,
             fresh (closed st) ->
             (forall c, current st = Some c -> attachments c = []) ->
             fresh (closed (parse_lines now lines st))
             /\ forall c, current (parse_lines now lines st) = Some c -> attachments c = []).
  { induction lines as [|raw lines IH]; intros st Hc Hcur; [auto|].
    cbn [parse_lines fold_left]. apply IH.
    - unfold parse_line.
      destruct (classify (normalize raw)) as [[[[d t] a] b]|].
      + destruct (parse_datetime d t); cbn [closed]; unfold flush;
          (destruct (current st) as [c|] eqn:E; [|exact Hc]);
          apply Forall_app; (split; [exact Hc|]); constructor; auto.
      + destruct (current st); exact Hc.
    - unfold parse_line.
      destruct (classify (normalize raw)) as [[[[d t] a] b]|].
      + destruct (parse_datetime d t); cbn [current]; intros c E;
          injection E as <-; reflexivity.
      + destruct (current st) as [c0|] eqn:E.
        * cbn [current]. intros c E'. injection E' as <-.
          cbn [append_text attachments]. now apply Hcur.
        * intros c E'. rewrite E in E'. discriminate. }
  destruct (Hinv (splitlines data) pstate0) as (Hc & Hcur);
    [constructor | discriminate |].
  assert (Hem : fresh (emitted now (splitlines data))).
  { unfold emitted, flush.
    destruct (current (parse_lines now (splitlines data) pstate0)) as [c|] eqn:E;
      [|exact Hc].
    apply Forall_app. split; [exact Hc|]. constructor; auto. }
  unfold fresh in *. rewrite Forall_forall in *. intros m Hm. apply Hem.
  eapply Permutation_in; [apply Permutation_sym, sort_messages_perm | exact Hm].
Qed.

(** ** The clock in place of a time stamp *)

Section Clock_facts.
Context `{U : Unicode}.
Variable now : nat -> datetime.

Lemma ticks_parse_line (st : pstate) (raw : str) :
  ticks (parse_line now st raw) = (ticks st + if unresolved raw then 1 else 0)%nat.
Proof.
  unfold parse_line, unresolved.
  destruct (classify (normalize raw)) as [[[[d t] a] b]|].
  - destruct (parse_datetime d t); cbn [ticks]; lia.
  - destruct (current st); cbn [ticks]; lia.
Qed.

Lemma ticks_parse_lines (lines : list str) (st : pstate) :
  ticks (parse_lines now lines st) = (ticks st + clock_reads lines)%nat.
Proof.
  revert st. induction lines as [|raw lines IH]; intros st.
  - cbn. lia.
  - cbn [parse_lines fold_left]. fold (parse_lines now lines (parse_line now st raw)).
    rewrite IH, ticks_parse_line. unfold clock_reads. cbn [filter].
    destruct (unresolved raw); cbn [length]; lia.
Qed.

(** A message that is in the list, or is the one being read, stays where
    it is while the following lines are read; its text may grow. *)
Lemma kept_by_line (pre : list Message) (ts : datetime) (a tx : str) (st : pstate)
      (raw : str) :
  (exists more post,
      flush st = pre ++ {| timestamp := ts; author := a; text := tx ++ more;
                           attachments := [] |} :: post) ->
  exists more post,
    flush (parse_line now st raw)
    = pre ++ {| timestamp := ts; author := a; text := tx ++ more; attachments := [] |}
          :: post.
Proof.
  intros (more & post & H). unfold parse_line.
  destruct (classify (normalize raw)) as [[[[d t] a'] b]|].
  - destruct (parse_datetime d t) as [ts'|]; unfold flush at 1; cbn [current closed];
      rewrite H; eexists more, (post ++ [_]); now rewrite <- app_assoc.
  - destruct (current st) as [c|] eqn:Ec; [|now exists more, post].
    unfold flush in H |- *. rewrite Ec in H. cbn [current closed].
    destruct post as [|z post] using rev_ind.
    + apply app_inj_tail in H. destruct H as [-> ->].
      exists (more ++ LF :: normalize raw), [].
      unfold append_text. cbn [timestamp author text attachments].
      now rewrite <- app_assoc.
    + clear IHpost. rewrite app_comm_cons, app_assoc in H.
      apply app_inj_tail in H. destruct H as [-> ->].
      exists more, (post ++ [append_text z (LF :: normalize raw)]).
      now rewrite <- app_assoc.
Qed.

Lemma kept_by_lines (pre : list Message) (ts : datetime) (a tx : str) (lines : list str) :
  forall st,
    (exists more post,
        flush st = pre ++ {| timestamp := ts; author := a; text := tx ++ more;
                             attachments := [] |} :: post) ->
    exists more post,
      flush (parse_lines now lines st)
      = pre ++ {| timestamp := ts; author := a; text := tx ++ more; attachments := [] |}
            :: post.
Proof.
  induction lines as [|raw lines IH]; intros st H; [exact H|].
  cbn [parse_lines fold_left]. apply IH. now apply kept_by_line.
Qed.

(** The message of a header whose time stamp is not resolved is in what
    the line loop gives, after the messages of the lines before it, with
    the value of the clock. *)
Lemma unresolved_kept (before after : list str) (raw d t a b : str) :
  classify (normalize raw) = Some (d, t, a, b) ->
  parse_datetime d t = None ->
  exists more post,
    emitted now (before ++ raw :: after)
    = emitted now before
      ++ {| timestamp := now (clock_reads before); author := a; text := strip b ++ more;
            attachments := [] |} :: post.
Proof.
  intros Hc Hp. unfold emitted.
  change (before ++ raw :: after) with (before ++ [raw] ++ after).
  rewrite !parse_lines_app.
  apply kept_by_lines. exists [], [].
  cbn [parse_lines fold_left]. unfold parse_line at 1. rewrite Hc, Hp.
  unfold flush at 1. cbn [current closed].
  rewrite ticks_parse_lines. cbn [pstate0 ticks Nat.add]. now rewrite app_nil_r.
Qed.

End Clock_facts.

(** Claim C6: the resolver tries its sixteen formats in one fixed order
    (24-hour before 12-hour, day-first before month-first, 4-digit before
    2-digit year, with seconds before without) and returns the first parse
    that succeeds; the two sample pairs resolve under the day-first 24-hour
    and the day-first 12-hour format, the invalid pair fails every format;
    on failure the resolver returns nothing, and the parser reads the clock
    and keeps the line: its message is among those [parse_chat_text]
    returns, after the messages of the lines before it in the order of the
    file, with the value of the clock as time stamp, the author and the
    body of the header. *)
Theorem parse_datetime_resolution `{U : Unicode} :
  fmts = formats_in_order
  /\ (forall d t r,
        parse_datetime d t = Some r <->
        exists n f,
          nth_error fmts n = Some f
          /\ Strptime.strptime (datetime_text d t) f = Some r
          /\ forall k f', (k < n)%nat -> nth_error fmts k = Some f' ->
                          Strptime.strptime (datetime_text d t) f' = None)
  /\ (forall d t,
        parse_datetime d t = None <->
        forall f, In f fmts -> Strptime.strptime (datetime_text d t) f = None)
  /\ (parse_datetime (u "05/03/2024") (u "14:30:00") = Some (mk_datetime 2024 3 5 14 30 0)
      /\ resolving_format (datetime_text (u "05/03/2024") (u "14:30:00")) fmts
         = Some (format_of H24 DayFirst Year4 true))
  /\ (parse_datetime (u "05/03/2024") (u "2:30:00 PM") = Some (mk_datetime 2024 3 5 14 30 0)
      /\ resolving_format (datetime_text (u "05/03/2024") (u "2:30:00 PM")) fmts
         = Some (format_of H12 DayFirst Year4 true))
  /\ (parse_datetime (u "32/13/2024") (u "99:99") = None
      /\ forall f, In f fmts ->
                   Strptime.strptime (datetime_text (u "32/13/2024") (u "99:99")) f = None)
  /\ (forall now st raw d t a b,
        classify (normalize raw) = Some (d, t, a, b) ->
        parse_datetime d t = None ->
        parse_line now st raw
        = {| closed := flush st;
             current := Some (new_message (now (ticks st)) a (strip b));
             ticks := S (ticks st) |})
  /\ (forall now f data before raw after d t a b,
        first_decoding f ENCODINGS = Some data ->
        splitlines data = before ++ raw :: after ->
        classify (normalize raw) = Some (d, t, a, b) ->
        parse_datetime d t = None ->
        exists more post,
          let m := {| timestamp := now (clock_reads before); author := a;
                      text := strip b ++ more; attachments := [] |} in
          emitted now (splitlines data) = emitted now before ++ m :: post
          /\ parse_chat_text now f
             = Returns (detect_title_from_txtname (txt_path f),
                        sort_messages (emitted now before ++ m :: post))
          /\ In m (sort_messages (emitted now before ++ m :: post))).
Proof.
  split; [reflexivity|].
  split; [intros d t r; apply try_formats_some|].
  split; [intros d t; apply try_formats_none|].
  split; [split; vm_compute; reflexivity|].
  split; [split; vm_compute; reflexivity|].
  split.
  { assert (H : parse_datetime (u "32/13/2024") (u "99:99") = None)
      by (vm_compute; reflexivity).
    split; [exact H|]. now apply try_formats_none. }
  split.
  { intros now st raw d t a b Hc Hp. unfold parse_line. now rewrite Hc, Hp. }
  intros now f data before raw after d t a b Hd Hl Hc Hp.
  destruct (unresolved_kept now before after raw d t a b Hc Hp) as (more & post & E).
  exists more, post. cbn zeta. rewrite Hl.
  split; [exact E|]. split.
  - unfold parse_chat_text. now rewrite Hd, Hl, E.
  - eapply Permutation_in; [apply sort_messages_perm|].
    apply in_or_app. right. now left.
Qed.

(** A transcript of three lines: a header that is resolved, a header whose
    date and time no format parses, and a line that goes on.  The second
    message is kept, stamped with the first value of the clock. *)
Lemma parse_datetime_resolution_witness :
  let now := fun k => mk_datetime 2025 1 1 0 0 (N.of_nat k) in
  let l1 := u "[05/03/2024 14:30:00] Alice: hello" in
  let l2 := u "[32/13/2024 99:99] Bob: hi" in
  let l3 := u "there" in
  let data := l1 ++ [LF] ++ l2 ++ [LF] ++ l3 in
  let f := {| txt_path := [u "WhatsApp Chat with Bob.txt"];
              read_text := fun _ => Some data |} in
  exists more post,
    let m := {| timestamp := now 0%nat; author := u "Bob"; text := u "hi" ++ more;
                attachments := [] |} in
    @emitted latin1 now (splitlines data) = @emitted latin1 now [l1] ++ m :: post
    /\ @parse_chat_text latin1 now f
       = Returns (@detect_title_from_txtname latin1 (txt_path f),
                  sort_messages (@emitted latin1 now [l1] ++ m :: post))
    /\ In m (sort_messages (@emitted latin1 now [l1] ++ m :: post)).
Proof.
  intros now l1 l2 l3 data f.
  apply (proj2 (proj2 (proj2 (proj2 (proj2 (proj2 (proj2 (@parse_datetime_resolution latin1)))))))
               now f data [l1] l2 [l3] (u "32/13/2024") (u "99:99") (u "Bob") (u "hi"));
    vm_compute; reflexivity.
Defined.

(** Claim C3: when a header line is followed by two lines that match no
    header pattern and then by a header line, the message of the first
    header has as body the header's body, a newline, the first line
    normalised, a newline, the second line normalised; lines that match no
    pattern and come before the first header are dropped. *)
Theorem continuation_lines `{U : Unicode} (now : nat -> datetime) :
  (forall f data pre post H1 L1 L2 H2 d t a b,
      first_decoding f ENCODINGS = Some data ->
      splitlines data = pre ++ [H1; L1; L2; H2] ++ post ->
      classify (normalize H1) = Some (d, t, a, b) ->
      classify (normalize L1) = None ->
      classify (normalize L2) = None ->
      classify (normalize H2) <> None ->
      exists ts title_ msgs,
        (parse_datetime d t = Some ts
         \/ (parse_datetime d t = None /\ exists k, ts = now k))
        /\ parse_chat_text now f = Returns (title_, msgs)
        /\ In {| timestamp := ts; author := a;
                 text := strip b ++ [LF] ++ normalize L1 ++ [LF] ++ normalize L2;
                 attachments := [] |} msgs)
  /\ (forall noise lines,
        (forall l, In l noise -> classify (normalize l) = None) ->
        emitted now (noise ++ lines) = emitted now lines).
Proof.
  split.
  - intros f data pre post H1 L1 L2 H2 d t a b Hdec Hlines Hh1 Hl1 Hl2 Hh2.
    destruct (block_emitted now pre post H1 L1 L2 H2 _ _ _ _ Hh1 Hl1 Hl2 Hh2) as (ts & Hts & Hin).
    exists ts, (detect_title_from_txtname (txt_path f)),
      (sort_messages (emitted now (splitlines data))).
    split; [exact Hts|]. split.
    + unfold parse_chat_text. now rewrite Hdec.
    + rewrite Hlines. eapply Permutation_in; [apply sort_messages_perm|exact Hin].
  - intros noise lines Hn. unfold emitted.
    rewrite parse_lines_app. rewrite (parse_lines_noise now noise pstate0 Hn eq_refl).
    reflexivity.
Qed.

Lemma continuation_lines_witness :
  let now := fun k => mk_datetime 2025 1 1 0 0 (N.of_nat k) in
  let data := u "Messages are end-to-end encrypted
[05/03/2024 14:30:00] Alice: Hello
  second line
third: line
[05/03/2024 14:31:00] Bob: Hi" in
  let f := {| txt_path := [u "WhatsApp Chat with Bob.txt"];
              read_text := fun enc => match enc with utf_8_sig => Some data | _ => None end |} in
  exists ts title_ msgs,
    @parse_chat_text latin1 now f = Returns (title_, msgs)
    /\ In {| timestamp := ts; author := u "Alice";
             text := u "Hello" ++ [LF] ++ u "second line" ++ [LF] ++ u "third: line";
             attachments := [] |} msgs.
Proof.
  intros now data f.
  destruct (proj1 (@continuation_lines latin1 now) f data
              [u "Messages are end-to-end encrypted"] []
              (u "[05/03/2024 14:30:00] Alice: Hello") (u "  second line")
              (u "third: line") (u "[05/03/2024 14:31:00] Bob: Hi")
              (u "05/03/2024") (u "14:30:00") (u "Alice") (u "Hello"))
    as (ts & title_ & msgs & _ & Hp & Hin);
    try (vm_compute; reflexivity).
  - vm_compute. discriminate.
  - exists ts, title_, msgs. split; [exact Hp | exact Hin].
Defined.

(** ** The linker: what a step may change *)

Lemma get_in_keys {V : Type} (k : str) (d : Dict.t V) :
  Dict.get k d <> None <-> In k (Dict.keys d).
Proof.
  induction d as [|[k' v] d IH]; simpl.
  - split; [congruence|tauto].
  - destruct (str_eqb k' k) eqn:Hk.
    + apply str_eqb_eq in Hk. split; [now left|congruence].
    + apply str_eqb_neq in Hk. rewrite IH. split; [now right|].
      intros [H|H]; [congruence|exact H].
Qed.

Lemma set_keys {V : Type} (k : str) (v : V) (d : Dict.t V) :
  In k (Dict.keys d) -> Dict.keys (Dict.set k v d) = Dict.keys d.
Proof.
  induction d as [|[k' v'] d IH]; simpl; [tauto|].
  intros H. destruct (str_eqb k' k) eqn:Hk; simpl; [reflexivity|].
  f_equal. apply IH. destruct H as [H|H]; [|exact H].
  apply str_eqb_neq in Hk. congruence.
Qed.

Lemma get_in {V : Type} (k : str) (v : V) (d : Dict.t V) :
  Dict.get k d = Some v -> In (k, v) d.
Proof.
  induction d as [|[k' v'] d IH]; simpl; [discriminate|].
  destruct (str_eqb k' k) eqn:Hk.
  - apply str_eqb_eq in Hk. intros H. injection H as ->. left. now subst.
  - intros H. right. now apply IH.
Qed.

Lemma none_assigned_keys (mf : Dict.t path) :
  Dict.keys (none_assigned mf) = Dict.keys mf.
Proof. unfold none_assigned, Dict.keys. rewrite map_map. reflexivity. Qed.

Lemma none_assigned_flag (mf : Dict.t path) (f : str) : flag f (none_assigned mf) = 0%nat.
Proof.
  unfold flag. induction mf as [|[k v] mf IH]; simpl; [reflexivity|].
  destruct (str_eqb k f); [reflexivity|exact IH].
Qed.

Lemma flag_set_same (f : str) (a : Dict.t bool) : flag f (Dict.set f true a) = 1%nat.
Proof. unfold flag. now rewrite get_set_same. Qed.

Lemma flag_set_other (f k : str) (a : Dict.t bool) :
  f <> k -> flag f (Dict.set k true a) = flag f a.
Proof. intros H. unfold flag. now rewrite get_set_other. Qed.

Lemma flag_le_1 (f : str) (a : Dict.t bool) : (flag f a <= 1)%nat.
Proof. unfold flag. destruct (Dict.get f a) as [[|]|]; lia. Qed.

Lemma extends_refl (m : Message) : extends m m.
Proof.
  unfold extends. repeat (split; [reflexivity|]).
  exists []. now rewrite app_nil_r.
Qed.

Lemma extends_trans (a b c : Message) : extends a b -> extends b c -> extends a c.
Proof.
  intros (T1 & A1 & X1 & m1 & E1) (T2 & A2 & X2 & m2 & E2).
  unfold extends. repeat (split; [congruence|]).
  exists (m1 ++ m2). now rewrite E2, E1, app_assoc.
Qed.

Lemma extends_append (m : Message) (a : Attachment) : extends m (append_attachment m a).
Proof. unfold extends. repeat (split; [reflexivity|]). now exists [a]. Qed.

Lemma count_named_append (f : str) (m : Message) (p : path) (k : str) `{U : Unicode} :
  count_named f (append_attachment m (attachment_of p k))
  = (count_named f m + if str_eqb k f then 1 else 0)%nat.
Proof.
  unfold count_named, append_attachment. cbn [attachments].
  rewrite filter_app, length_app. unfold named at 2, attachment_of.
  cbn [filter filename].
  destruct (str_eqb k f); cbn [length]; lia.
Qed.

Section Linker_facts.
Context `{U : Unicode}.
Variable mf : Dict.t path.

Lemma step_ok_refl (m : Message) (a : Dict.t bool) :
  Dict.keys a = Dict.keys mf -> step_ok mf m a m a.
Proof.
  intros Hk. split; [apply extends_refl|]. split; [exact Hk|]. intros f. lia.
Qed.

Lemma step_ok_trans (m1 m2 m3 : Message) (a1 a2 a3 : Dict.t bool) :
  step_ok mf m1 a1 m2 a2 -> step_ok mf m2 a2 m3 a3 -> step_ok mf m1 a1 m3 a3.
Proof.
  intros (E1 & K1 & C1) (E2 & K2 & C2).
  split; [eapply extends_trans; eassumption|]. split; [exact K2|].
  intros f. specialize (C1 f). specialize (C2 f). lia.
Qed.

(** Attaching the file [k], whose flag is not set, and setting the flag. *)
Lemma attach_ok (m : Message) (a : Dict.t bool) (k : str) (p : path) :
  Dict.keys a = Dict.keys mf ->
  In k (Dict.keys mf) ->
  flag k a = 0%nat ->
  step_ok mf m a (append_attachment m (attachment_of p k)) (Dict.set k true a).
Proof.
  intros Hk Hin Hf.
  split; [apply extends_append|].
  split; [rewrite set_keys; [exact Hk | now rewrite Hk]|].
  intros f. rewrite count_named_append.
  destruct (str_eqb k f) eqn:Hkf.
  - apply str_eqb_eq in Hkf. subst f. rewrite flag_set_same, Hf. lia.
  - apply str_eqb_neq in Hkf. rewrite flag_set_other by congruence. lia.
Qed.

Lemma claim_named_ok (m : Message) (a : Dict.t bool) (k : str) :
  Dict.keys a = Dict.keys mf ->
  step_ok mf m a (fst (claim_named mf (m, a) k)) (snd (claim_named mf (m, a) k)).
Proof.
  intros Hk. unfold claim_named.
  destruct (Dict.get k mf) as [p|] eqn:Hp; [|now apply step_ok_refl].
  destruct (Dict.get k a) as [[|]|] eqn:Ha; try now apply step_ok_refl.
  cbn [fst snd]. apply attach_ok; trivial.
  - apply get_in_keys. congruence.
  - unfold flag. now rewrite Ha.
Qed.

Lemma claims_ok (names : list str) (m : Message) (a : Dict.t bool) :
  Dict.keys a = Dict.keys mf ->
  step_ok mf m a (fst (fold_left (claim_named mf) names (m, a)))
          (snd (fold_left (claim_named mf) names (m, a))).
Proof.
  revert m a. induction names as [|k names IH]; intros m a Hk.
  - now apply step_ok_refl.
  - cbn [fold_left].
    pose proof (claim_named_ok m a k Hk) as H1.
    destruct (claim_named mf (m, a) k) as [m1 a1]. cbn [fst snd] in H1.
    eapply step_ok_trans; [exact H1|]. apply IH. apply H1.
Qed.

Lemma first_of_day_spec (d : N * N * N) (items : list (str * path)) (a : Dict.t bool)
      (k : str) (p : path) :
  first_of_day d items a = Some (k, p) <->
  exists before after,
    items = before ++ (k, p) :: after
    /\ Dict.get k a <> Some true
    /\ name_date k = Some d
    /\ forall k' p', In (k', p') before ->
                     Dict.get k' a = Some true \/ name_date k' <> Some d.
Proof.
  assert (Hd : forall x, date_eqb x d = true <-> x = d).
  { intros [[y1 m1] d1]. destruct d as [[y2 m2] d2]. unfold date_eqb.
    rewrite !andb_true_iff, !N.eqb_eq. split.
    - intros [[-> ->] ->]. reflexivity.
    - intros H. injection H as -> -> ->. auto. }
  induction items as [|[k0 p0] items IH].
  - simpl. split; [discriminate|]. intros (b & a0 & H & _). now destruct b.
  - cbn [first_of_day].
    assert (Hskip : (Dict.get k0 a = Some true \/ name_date k0 <> Some d) ->
                    (first_of_day d items a = Some (k, p) <->
                     exists before after,
                       (k0, p0) :: items = before ++ (k, p) :: after
                       /\ Dict.get k a <> Some true /\ name_date k = Some d
                       /\ forall k' p', In (k', p') before ->
                            Dict.get k' a = Some true \/ name_date k' <> Some d)).
    { intros Hno. rewrite IH. split.
      - intros (b & a0 & -> & H1 & H2 & H3). exists ((k0, p0) :: b), a0.
        repeat split; trivial. intros k' p' [E|Hin]; [|now apply (H3 k' p')].
        injection E as <- <-. exact Hno.
      - intros (b & a0 & E & H1 & H2 & H3). destruct b as [|x b].
        + simpl in E. injection E as <- <- <-. destruct Hno; congruence.
        + simpl in E. injection E as <- ->. exists b, a0. repeat split; trivial.
          intros k' p' Hin. apply (H3 k' p'). now right. }
    destruct (Dict.get k0 a) as [[|]|] eqn:Ha; [apply Hskip; now left| |];
      (destruct (name_date k0) as [d'|] eqn:Hn;
       [destruct (date_eqb d' d) eqn:He|];
       [apply Hd in He; subst d'
       |apply Hskip; right; intros E; injection E as ->;
        rewrite (proj2 (Hd d) eq_refl) in He; discriminate
       |apply Hskip; right; congruence]);
      (split;
       [intros E; injection E as <- <-; exists [], items;
        repeat split; trivial; [congruence | intros ? ? []]
       |intros (b & a0 & E & H1 & H2 & H3); destruct b as [|x b];
        [simpl in E; now injection E as <- <- <-
        |simpl in E; injection E as <- ->;
         destruct (H3 k0 p0 (or_introl eq_refl)); congruence]]).
Qed.

Lemma fallback_ok (m : Message) (a : Dict.t bool) :
  Dict.keys a = Dict.keys mf ->
  step_ok mf m a (fst (fallback mf m a)) (snd (fallback mf m a)).
Proof.
  intros Hk. unfold fallback.
  destruct (attachments m); [|now apply step_ok_refl].
  destruct (is_placeholder (text m)); [|now apply step_ok_refl].
  destruct (first_of_day (date_of (timestamp m)) mf a) as [[k p]|] eqn:Hf;
    [|now apply step_ok_refl].
  cbn [fst snd]. apply first_of_day_spec in Hf.
  destruct Hf as (b & a0 & E & Hna & _ & _).
  apply attach_ok; trivial.
  - rewrite E. unfold Dict.keys. rewrite map_app. apply in_or_app. right. now left.
  - unfold flag. destruct (Dict.get k a) as [[|]|]; congruence.
Qed.

End Linker_facts.

(** ** The linker: a whole pass *)

Lemma Forall2_compose {A : Type} (R : A -> A -> Prop) :
  (forall x y z, R x y -> R y z -> R x z) ->
  forall l1 l2 l3, Forall2 R l1 l2 -> Forall2 R l2 l3 -> Forall2 R l1 l3.
Proof.
  intros HR l1 l2 l3 H12. revert l3.
  induction H12 as [|x y l1 l2 Hxy _ IH]; intros l3 H23; inversion H23; subst.
  - constructor.
  - constructor; [eapply HR; eassumption | now apply IH].
Qed.

Lemma thread_cons (step : Message -> Dict.t bool -> Message * Dict.t bool)
      (m : Message) (l : list Message) (a : Dict.t bool) :
  thread step (m :: l) a
  = (fst (step m a) :: fst (thread step l (snd (step m a))),
     snd (thread step l (snd (step m a)))).
Proof.
  cbn [thread]. destruct (step m a) as [m1 a1]. cbn [fst snd].
  now destruct (thread step l a1).
Qed.

Lemma thread_app (step : Message -> Dict.t bool -> Message * Dict.t bool)
      (l1 l2 : list Message) (a : Dict.t bool) :
  thread step (l1 ++ l2) a
  = (fst (thread step l1 a) ++ fst (thread step l2 (snd (thread step l1 a))),
     snd (thread step l2 (snd (thread step l1 a)))).
Proof.
  revert a. induction l1 as [|m l1 IH]; intros a.
  - cbn [app thread fst snd]. now destruct (thread step l2 a).
  - rewrite <- app_comm_cons, !thread_cons, IH. reflexivity.
Qed.

Lemma pass1_thread `{U : Unicode} (mf : Dict.t path) (msgs : list Message) (a : Dict.t bool) :
  pass1 mf msgs a = thread (claim_all mf) msgs a.
Proof.
  revert a. induction msgs as [|m msgs IH]; intros a; [reflexivity|].
  cbn [pass1 thread]. unfold claim_all at 1.
  destruct (fold_left (claim_named mf) (files_in_text (text m)) (m, a)) as [m1 a1].
  now rewrite IH.
Qed.

Lemma pass2_thread `{U : Unicode} (mf : Dict.t path) (msgs : list Message) (a : Dict.t bool) :
  pass2 mf msgs a = thread (fallback mf) msgs a.
Proof.
  revert a. induction msgs as [|m msgs IH]; intros a; [reflexivity|].
  cbn [pass2 thread]. destruct (fallback mf m a) as [m1 a1]. now rewrite IH.
Qed.

Lemma pass_ok_trans (mf : Dict.t path) (l1 l2 l3 : list Message) (a1 a2 a3 : Dict.t bool) :
  pass_ok mf l1 a1 l2 a2 -> pass_ok mf l2 a2 l3 a3 -> pass_ok mf l1 a1 l3 a3.
Proof.
  intros (E1 & K1 & C1) (E2 & K2 & C2).
  split; [|split; [exact K2|]].
  - eapply Forall2_compose; [apply extends_trans | exact E1 | exact E2].
  - intros f. destruct (C1 f) as (T1 & M1 & S1). destruct (C2 f) as (T2 & M2 & S2).
    split; [lia|]. split; [lia|]. intros Hf.
    pose proof (flag_le_1 f a2).
    eapply Forall2_compose; [| apply S1; exact Hf | apply S2; lia].
    unfold same_count. intros x y z Hxy Hyz. congruence.
Qed.

Lemma total_named_cons (f : str) (m : Message) (l : list Message) :
  total_named f (m :: l) = (count_named f m + total_named f l)%nat.
Proof. reflexivity. Qed.

Lemma total_named_app (f : str) (l1 l2 : list Message) :
  total_named f (l1 ++ l2) = (total_named f l1 + total_named f l2)%nat.
Proof. unfold total_named. now rewrite map_app, list_sum_app. Qed.

Section Thread_facts.
Variable mf : Dict.t path.
Variable step : Message -> Dict.t bool -> Message * Dict.t bool.
Hypothesis step_is_ok :
  forall m a, Dict.keys a = Dict.keys mf ->
              step_ok mf m a (fst (step m a)) (snd (step m a)).

Lemma thread_ok (msgs : list Message) (a : Dict.t bool) :
  Dict.keys a = Dict.keys mf ->
  pass_ok mf msgs a (fst (thread step msgs a)) (snd (thread step msgs a)).
Proof.
  revert a. induction msgs as [|m msgs IH]; intros a Hk.
  - cbn [thread fst snd]. split; [constructor|]. split; [exact Hk|].
    intros f. split; [lia|]. split; [lia|]. constructor.
  - rewrite thread_cons. cbn [fst snd].
    destruct (step_is_ok m a Hk) as (E1 & K1 & C1).
    destruct (IH (snd (step m a)) K1) as (E2 & K2 & C2).
    split; [now constructor|]. split; [exact K2|].
    intros f. destruct (C1 f) as (T1 & M1). destruct (C2 f) as (T2 & M2 & S2).
    rewrite !total_named_cons.
    split; [lia|]. split; [lia|]. intros Hf.
    pose proof (flag_le_1 f (snd (step m a))).
    constructor; [unfold same_count; lia | apply S2; lia].
Qed.

End Thread_facts.

Section Link_facts.
Context `{U : Unicode}.

Lemma claim_all_ok (mf : Dict.t path) (m : Message) (a : Dict.t bool) :
  Dict.keys a = Dict.keys mf ->
  step_ok mf m a (fst (claim_all mf m a)) (snd (claim_all mf m a)).
Proof. intros Hk. unfold claim_all. now apply claims_ok. Qed.

Lemma pass1_ok (mf : Dict.t path) (msgs : list Message) (a : Dict.t bool) :
  Dict.keys a = Dict.keys mf ->
  pass_ok mf msgs a (fst (pass1 mf msgs a)) (snd (pass1 mf msgs a)).
Proof. intros Hk. rewrite pass1_thread. apply thread_ok; [apply claim_all_ok | exact Hk]. Qed.

Lemma pass2_ok (mf : Dict.t path) (msgs : list Message) (a : Dict.t bool) :
  Dict.keys a = Dict.keys mf ->
  pass_ok mf msgs a (fst (pass2 mf msgs a)) (snd (pass2 mf msgs a)).
Proof. intros Hk. rewrite pass2_thread. apply thread_ok; [apply fallback_ok | exact Hk]. Qed.

Lemma link_state_eq (tree : list entry) (conv : Conversation) :
  link_state tree conv
  = pass2 (media_files tree)
          (fst (pass1 (media_files tree) (messages conv) (none_assigned (media_files tree))))
          (snd (pass1 (media_files tree) (messages conv) (none_assigned (media_files tree)))).
Proof.
  unfold link_state.
  now destruct (pass1 (media_files tree) (messages conv) (none_assigned (media_files tree))).
Qed.

Lemma link_state_ok (tree : list entry) (conv : Conversation) :
  pass_ok (media_files tree) (messages conv) (none_assigned (media_files tree))
          (fst (link_state tree conv)) (snd (link_state tree conv)).
Proof.
  rewrite link_state_eq.
  pose proof (pass1_ok (media_files tree) (messages conv)
                       (none_assigned (media_files tree))
                       (none_assigned_keys (media_files tree))) as H1.
  eapply pass_ok_trans; [exact H1|].
  apply pass2_ok. apply H1.
Qed.

End Link_facts.

(** Claim C10: [link_attachments] only appends attachments and sets flags:
    the id, the title and the media root of the conversation, the number and
    the order of its messages, and the time stamp, author and text of every
    message stay as they were; the flags are those of the catalogue, and a
    flag that is set stays set. *)
Theorem link_attachments_frame `{U : Unicode} (tree : list entry) (conv : Conversation) :
  chat_id (link_attachments tree conv) = chat_id conv
  /\ title (link_attachments tree conv) = title conv
  /\ base_dir (link_attachments tree conv) = base_dir conv
  /\ length (messages (link_attachments tree conv)) = length (messages conv)
  /\ Forall2 extends (messages conv) (messages (link_attachments tree conv))
  /\ Dict.keys (snd (link_state tree conv)) = Dict.keys (media_files tree)
  /\ forall f, Dict.get f (snd (link_state tree conv)) = Some true
               \/ flag f (snd (link_state tree conv)) = 0%nat.
Proof.
  destruct (link_state_ok tree conv) as (E & K & C).
  repeat (split; [reflexivity|]).
  split; [symmetry; exact (Forall2_length E)|].
  split; [exact E|]. split; [exact K|].
  intros f. unfold flag. destruct (Dict.get f (snd (link_state tree conv))) as [[|]|]; auto.
Qed.

(** ** The linker: who gets a file *)

Lemma Forall2_split_at {A B : Type} (R : A -> B -> Prop) (l1 l2 : list A) (x : A)
      (l' : list B) :
  Forall2 R (l1 ++ x :: l2) l' ->
  exists l1' x' l2',
    l' = l1' ++ x' :: l2' /\ Forall2 R l1 l1' /\ R x x' /\ Forall2 R l2 l2'.
Proof.
  intros H. apply Forall2_app_inv_l in H.
  destruct H as (l1' & r & H1 & H2 & ->).
  inversion H2 as [|? x' ? l2' Hx Hl2]; subst.
  exists l1', x', l2'. auto.
Qed.

Lemma app_eq_len {A : Type} (l1 l2 r1 r2 : list A) :
  l1 ++ r1 = l2 ++ r2 -> length l1 = length l2 -> l1 = l2 /\ r1 = r2.
Proof.
  revert l2. induction l1 as [|x l1 IH]; intros [|y l2] E Hl; simpl in *;
    try discriminate; auto.
  injection E as -> E. injection Hl as Hl.
  destruct (IH l2 E Hl) as [-> ->]. auto.
Qed.

Lemma Forall2_at {A B : Type} (R : A -> B -> Prop) (l1 l2 : list A) (x : A)
      (l1' l2' : list B) (x' : B) :
  Forall2 R (l1 ++ x :: l2) (l1' ++ x' :: l2') ->
  length l1 = length l1' ->
  Forall2 R l1 l1' /\ R x x' /\ Forall2 R l2 l2'.
Proof.
  intros H Hl. apply Forall2_split_at in H.
  destruct H as (k1 & y & k2 & E & H1 & Hx & H2).
  apply app_eq_len in E; [|now rewrite <- (Forall2_length H1)].
  destruct E as [-> E]. injection E as -> ->. auto.
Qed.

Lemma fresh_total (f : str) (msgs : list Message) : fresh msgs -> total_named f msgs = 0%nat.
Proof.
  intros H. induction H as [|m l Hm _ IH]; [reflexivity|].
  rewrite total_named_cons, IH. unfold count_named. now rewrite Hm.
Qed.

Lemma fresh_count (f : str) (msgs : list Message) (m : Message) :
  fresh msgs -> In m msgs -> count_named f m = 0%nat.
Proof.
  intros H Hin. unfold fresh in H. rewrite Forall_forall in H.
  unfold count_named. now rewrite (H m Hin).
Qed.

Section Claim_facts.
Context `{U : Unicode}.
Variable mf : Dict.t path.

Lemma claim_named_other (f k : str) (m : Message) (a : Dict.t bool) :
  f <> k -> flag f (snd (claim_named mf (m, a) k)) = flag f a.
Proof.
  intros Hne. unfold claim_named.
  destruct (Dict.get k mf); [|reflexivity].
  destruct (Dict.get k a) as [[|]|]; try reflexivity.
  cbn [snd]. now apply flag_set_other.
Qed.

Lemma claims_untouched (f : str) (names : list str) (m : Message) (a : Dict.t bool) :
  ~ In f names ->
  flag f (snd (fold_left (claim_named mf) names (m, a))) = flag f a.
Proof.
  revert m a. induction names as [|k names IH]; intros m a Hn; [reflexivity|].
  cbn [fold_left].
  pose proof (claim_named_other f k m a) as H1.
  destruct (claim_named mf (m, a) k) as [m1 a1]. cbn [snd] in H1.
  rewrite IH; [apply H1|]; intros E; apply Hn; [left; congruence | now right].
Qed.

Lemma claim_named_takes (f : str) (m : Message) (a : Dict.t bool) :
  In f (Dict.keys mf) -> Dict.keys a = Dict.keys mf ->
  flag f (snd (claim_named mf (m, a) f)) = 1%nat.
Proof.
  intros Hin Hk. unfold claim_named.
  destruct (Dict.get f mf) as [p|] eqn:Hp;
    [|apply get_in_keys in Hin; congruence].
  destruct (Dict.get f a) as [[|]|] eqn:Ha.
  - cbn [snd]. unfold flag. now rewrite Ha.
  - cbn [snd]. apply flag_set_same.
  - rewrite <- Hk in Hin. apply get_in_keys in Hin. congruence.
Qed.

Lemma claims_takes (f : str) (names : list str) (m : Message) (a : Dict.t bool) :
  In f names -> In f (Dict.keys mf) -> Dict.keys a = Dict.keys mf ->
  flag f (snd (fold_left (claim_named mf) names (m, a))) = 1%nat.
Proof.
  revert m a. induction names as [|k names IH]; intros m a Hin Hf Hk; [destruct Hin|].
  cbn [fold_left].
  pose proof (claim_named_ok mf m a k Hk) as H1.
  pose proof (claim_named_takes f m a Hf Hk) as H2.
  destruct (list_eq_dec N.eq_dec k f) as [->|Hne].
  - destruct (claim_named mf (m, a) f) as [m1 a1]. cbn [fst snd] in *.
    destruct H1 as (_ & K1 & _).
    destruct (claims_ok mf names m1 a1 K1) as (_ & _ & C).
    destruct (C f) as (_ & Hmono).
    pose proof (flag_le_1 f (snd (fold_left (claim_named mf) names (m1, a1)))). lia.
  - destruct (claim_named mf (m, a) k) as [m1 a1]. cbn [fst snd] in *.
    apply IH; trivial; [|apply H1].
    destruct Hin as [E|Hin]; [congruence|exact Hin].
Qed.

Lemma thread_untouched (f : str) (l : list Message) (a : Dict.t bool) :
  (forall m, In m l -> ~ In f (files_in_text (text m))) ->
  flag f (snd (thread (claim_all mf) l a)) = flag f a.
Proof.
  revert a. induction l as [|m l IH]; intros a Hn; [reflexivity|].
  rewrite thread_cons. cbn [snd]. rewrite IH.
  - unfold claim_all. apply claims_untouched. apply Hn. now left.
  - intros m' Hm'. apply Hn. now right.
Qed.

Lemma thread_takes (f : str) (l : list Message) (a : Dict.t bool) (m : Message) :
  In m l -> In f (files_in_text (text m)) ->
  In f (Dict.keys mf) -> Dict.keys a = Dict.keys mf ->
  flag f (snd (thread (claim_all mf) l a)) = 1%nat.
Proof.
  revert a. induction l as [|x l IH]; intros a Hin Hf Hcat Hk; [destruct Hin|].
  rewrite thread_cons. cbn [snd].
  pose proof (claim_all_ok mf x a Hk) as (_ & K1 & _).
  destruct Hin as [->|Hin].
  - assert (F1 : flag f (snd (claim_all mf m a)) = 1%nat)
      by (unfold claim_all; now apply claims_takes).
    destruct (thread_ok mf (claim_all mf) (claim_all_ok mf) l _ K1) as (_ & _ & C).
    destruct (C f) as (_ & Hmono & _).
    pose proof (flag_le_1 f (snd (thread (claim_all mf) l (snd (claim_all mf m a))))). lia.
  - now apply IH.
Qed.

End Claim_facts.

(** Claim C1: after [link_attachments] on freshly parsed messages, a file
    name of the catalogue is attached at most once over all the messages,
    and it is attached exactly when its flag is set; of two messages that
    name the same catalogued file the one that comes first in the list has
    it and the other has not; both loops attach a file only when its flag
    is not set, and set the flag at once. *)
Theorem attached_at_most_once `{U : Unicode} (tree : list entry) (conv : Conversation) :
  fresh (messages conv) ->
  (forall f, (total_named f (messages (link_attachments tree conv)) <= 1)%nat)
  /\ (forall f, total_named f (messages (link_attachments tree conv))
                = flag f (snd (link_state tree conv)))
  /\ (forall f before mi between mj after,
        messages conv = before ++ mi :: between ++ mj :: after ->
        In f (Dict.keys (media_files tree)) ->
        In f (files_in_text (text mi)) ->
        In f (files_in_text (text mj)) ->
        (forall m, In m before -> ~ In f (files_in_text (text m))) ->
        exists before' mi' between' mj' after',
          messages (link_attachments tree conv)
          = before' ++ mi' :: between' ++ mj' :: after'
          /\ length before' = length before /\ length between' = length between
          /\ extends mi mi' /\ extends mj mj'
          /\ count_named f mi' = 1%nat /\ count_named f mj' = 0%nat)
  /\ (forall mf m a k,
        attachments (fst (claim_named mf (m, a) k)) <> attachments m ->
        Dict.get k a = Some false
        /\ Dict.get k (snd (claim_named mf (m, a) k)) = Some true)
  /\ (forall mf m a,
        attachments (fst (fallback mf m a)) <> attachments m ->
        exists k p,
          attachments (fst (fallback mf m a)) = attachments m ++ [attachment_of p k]
          /\ Dict.get k a <> Some true
          /\ Dict.get k (snd (fallback mf m a)) = Some true).
Proof.
  intros Hfresh.
  pose proof (link_state_ok tree conv) as (E & K & C).
  assert (Htot : forall f, total_named f (messages (link_attachments tree conv))
                           = flag f (snd (link_state tree conv))).
  { intros f. destruct (C f) as (T & _).
    rewrite none_assigned_flag, (fresh_total f _ Hfresh) in T.
    cbn [link_attachments set_messages messages]. lia. }
  split; [intros f; rewrite Htot; apply flag_le_1|].
  split; [exact Htot|].
  split; [|split].
  - intros f before mi between mj after Hmsgs Hcat Hi Hj Hfirst.
    set (mf := media_files tree) in *.
    cbn [link_attachments set_messages messages].
    rewrite link_state_eq. fold mf.
    assert (Hmi : count_named f mi = 0%nat).
    { apply (fresh_count f _ mi Hfresh). rewrite Hmsgs.
      apply in_or_app. right. now left. }
    assert (Hmj : count_named f mj = 0%nat).
    { apply (fresh_count f _ mj Hfresh). rewrite Hmsgs.
      apply in_or_app. right. right. apply in_or_app. right. now left. }
    (* the first loop *)
    rewrite Hmsgs, !pass1_thread, thread_app, thread_cons. cbn [fst snd].
    set (a0 := none_assigned mf).
    pose proof (thread_ok mf (claim_all mf) (claim_all_ok mf) before a0
                          (none_assigned_keys mf)) as (Eb & Kb & _).
    pose proof (thread_untouched mf f before a0 Hfirst) as Fb.
    unfold a0 in Fb at 2. rewrite none_assigned_flag in Fb.
    set (before1 := fst (thread (claim_all mf) before a0)) in *.
    set (a1 := snd (thread (claim_all mf) before a0)) in *.
    pose proof (claim_all_ok mf mi a1 Kb) as (Ei & Ki & Ci).
    assert (Fi : flag f (snd (claim_all mf mi a1)) = 1%nat)
      by (unfold claim_all; now apply claims_takes).
    destruct (Ci f) as (Ti & _). rewrite Fb, Fi, Hmi in Ti.
    set (mi1 := fst (claim_all mf mi a1)) in *.
    set (a2 := snd (claim_all mf mi a1)) in *.
    pose proof (thread_ok mf (claim_all mf) (claim_all_ok mf)
                          (between ++ mj :: after) a2 Ki) as (Er & Kr & Cr).
    destruct (Cr f) as (_ & Mr & Sr). specialize (Sr Fi).
    set (rest1 := fst (thread (claim_all mf) (between ++ mj :: after) a2)) in *.
    set (a3 := snd (thread (claim_all mf) (between ++ mj :: after) a2)) in *.
    assert (F3 : flag f a3 = 1%nat) by (pose proof (flag_le_1 f a3); lia).
    (* the second loop *)
    pose proof (pass2_ok mf (before1 ++ mi1 :: rest1) a3 Kr) as (E2 & _ & C2).
    destruct (C2 f) as (_ & _ & S2). specialize (S2 F3).
    set (out := fst (pass2 mf (before1 ++ mi1 :: rest1) a3)) in *.
    apply Forall2_split_at in E2.
    destruct E2 as (before2 & mi2 & rest2 & Eout & Eb2 & Ei2 & Er2).
    rewrite Eout in S2.
    apply Forall2_at in S2; [|exact (Forall2_length Eb2)].
    destruct S2 as (_ & Smi & Srest).
    (* split the rest at mj *)
    apply Forall2_split_at in Er.
    destruct Er as (between1 & mj1 & after1 & Erest1 & Ebt1 & Ej1 & Eaf1).
    rewrite Erest1 in Sr, Er2, Srest.
    apply Forall2_at in Sr; [|exact (Forall2_length Ebt1)].
    destruct Sr as (_ & Smj1 & _).
    apply Forall2_split_at in Er2.
    destruct Er2 as (between2 & mj2 & after2 & -> & Ebt2 & Ej2 & Eaf2).
    apply Forall2_at in Srest; [|exact (Forall2_length Ebt2)].
    destruct Srest as (_ & Smj2 & _).
    exists before2, mi2, between2, mj2, after2.
    split; [exact Eout|].
    split; [rewrite <- (Forall2_length Eb2); symmetry; exact (Forall2_length Eb)|].
    split; [rewrite <- (Forall2_length Ebt2); symmetry; exact (Forall2_length Ebt1)|].
    split; [eapply extends_trans; eassumption|].
    split; [eapply extends_trans; eassumption|].
    unfold same_count in Smi, Smj1, Smj2. split; lia.
  - intros mf m a k. unfold claim_named.
    destruct (Dict.get k mf) as [p|]; [|cbn [fst]; congruence].
    destruct (Dict.get k a) as [[|]|]; cbn [fst snd]; try congruence.
    intros _. split; [reflexivity|apply get_set_same].
  - intros mf m a. unfold fallback.
    destruct (attachments m) as [|x l] eqn:Hm; [|cbn [fst]; congruence].
    destruct (is_placeholder (text m)); [|cbn [fst]; congruence].
    destruct (first_of_day (date_of (timestamp m)) mf a) as [[k p]|] eqn:Hf;
      [|cbn [fst]; congruence].
    cbn [fst snd append_attachment attachments]. intros _.
    apply first_of_day_spec in Hf. destruct Hf as (_ & _ & _ & Hna & _).
    exists k, p. rewrite Hm. split; [reflexivity|]. split; [exact Hna|apply get_set_same].
Qed.

Lemma attached_at_most_once_witness :
  let m1 := new_message (mk_datetime 2024 3 5 9 0 0) (u "Alice")
                        (u "IMG-20240305-WA0001.jpg (file attached)") in
  let m2 := new_message (mk_datetime 2024 3 5 9 5 0) (u "Bob")
                        (u "again IMG-20240305-WA0001.jpg") in
  let conv := new_conversation (u "Manon") [m1; m2] [u "upload"] in
  exists m1' m2',
    messages (@link_attachments latin1 IMG_TREE conv) = [m1'; m2']
    /\ count_named IMG_NAME m1' = 1%nat /\ count_named IMG_NAME m2' = 0%nat.
Proof.
  intros m1 m2 conv.
  assert (Hfresh : fresh (messages conv)) by (repeat constructor).
  destruct (proj1 (proj2 (proj2 (@attached_at_most_once latin1 IMG_TREE conv Hfresh)))
              IMG_NAME [] m1 [] m2 [])
    as (b' & m1' & bt' & m2' & af' & E & Lb & Lbt & _ & _ & C1 & C2).
  - reflexivity.
  - vm_compute. auto.
  - vm_compute. auto.
  - vm_compute. auto.
  - intros m [].
  - exists m1', m2'.
    destruct b'; [|discriminate]. destruct bt'; [|discriminate].
    assert (Hlen : length (messages (@link_attachments latin1 IMG_TREE conv)) = 2%nat)
      by (vm_compute; reflexivity).
    rewrite E in Hlen. simpl in Hlen. destruct af'; [|discriminate].
    repeat split; trivial.
Defined.

(** ** The linker: the fallback by date *)

Section Fallback_facts.
Context `{U : Unicode}.

Lemma is_placeholder_iff (body : str) :
  is_placeholder body = true <->
  lower (strip body) = []
  \/ exists tok, In tok MEDIA_OMITTED_TOKENS
                 /\ contains (lower tok) (lower (strip body)) = true.
Proof.
  unfold is_placeholder. destruct (lower (strip body)) as [|c t] eqn:E.
  - split; auto.
  - rewrite existsb_exists. split.
    + intros H. now right.
    + intros [H|H]; [discriminate|exact H].
Qed.

Lemma thread_pointwise (step : Message -> Dict.t bool -> Message * Dict.t bool)
      (msgs : list Message) (a0 : Dict.t bool) :
  Forall2 (fun m m' => exists a, m' = fst (step m a)) msgs (fst (thread step msgs a0)).
Proof.
  revert a0. induction msgs as [|m msgs IH]; intros a0.
  - constructor.
  - rewrite thread_cons. cbn [fst]. constructor; [now exists a0|apply IH].
Qed.

Lemma img_media_files : media_files IMG_TREE = [(IMG_NAME, IMG_PATH)].
Proof. vm_compute. reflexivity. Qed.

Lemma placeholder_no_files : files_in_text (u "<Media omitted>") = [].
Proof. vm_compute. reflexivity. Qed.

Lemma placeholder_is : is_placeholder (u "<Media omitted>") = true.
Proof. vm_compute. reflexivity. Qed.

Lemma img_name_date : name_date IMG_NAME = Some (2024, 3, 5).
Proof. vm_compute. reflexivity. Qed.

Lemma str_in_iff (x : str) (l : list str) : str_in x l = true <-> In x l.
Proof.
  unfold str_in. rewrite existsb_exists. split.
  - intros (y & Hy & E). apply str_eqb_eq in E. now subst.
  - intros H. exists x. split; [exact H|apply str_eqb_refl].
Qed.

(** The placeholder message among fresh messages, one dated file in the
    catalogue. *)
Lemma placeholder_example (earlier later : list Message) (ts : datetime) (who : str)
      (conv : Conversation) :
  messages conv = earlier ++ placeholder_message ts who :: later ->
  fresh earlier -> fresh later ->
  date_of ts = (2024, 3, 5) ->
  exists earlier' m' later',
    messages (link_attachments IMG_TREE conv) = earlier' ++ m' :: later'
    /\ length earlier' = length earlier /\ length later' = length later
    /\ (count_named IMG_NAME m' = 1%nat <->
        total_named IMG_NAME earlier' = 0%nat
        /\ forall m, In m later -> ~ In IMG_NAME (files_in_text (text m)))
    /\ (attachments m' = [] \/ attachments m' = [attachment_of IMG_PATH IMG_NAME]).
Proof.
  intros Hmsgs Hfresh Hfresh' Hdate.
  cbn [link_attachments set_messages messages].
  rewrite link_state_eq, Hmsgs, img_media_files.
  set (mf := [(IMG_NAME, IMG_PATH)]).
  set (msg := placeholder_message ts who).
  assert (Hclaim : forall a, claim_all mf msg a = (msg, a)).
  { intros a. unfold claim_all, msg, placeholder_message, new_message. cbn [text].
    now rewrite placeholder_no_files. }
  assert (Hcat : In IMG_NAME (Dict.keys mf)) by (now left).
  (* the first loop *)
  rewrite !pass1_thread, thread_app, thread_cons, Hclaim. cbn [fst snd].
  pose proof (thread_ok mf (claim_all mf) (claim_all_ok mf) earlier (none_assigned mf)
                        (none_assigned_keys mf)) as (E1 & K1 & C1).
  destruct (C1 IMG_NAME) as (T1 & _).
  rewrite none_assigned_flag, (fresh_total _ _ Hfresh) in T1.
  set (earlier1 := fst (thread (claim_all mf) earlier (none_assigned mf))) in *.
  set (a1 := snd (thread (claim_all mf) earlier (none_assigned mf))) in *.
  pose proof (thread_ok mf (claim_all mf) (claim_all_ok mf) later a1 K1) as (E3 & K3 & C3).
  destruct (C3 IMG_NAME) as (_ & M3 & _).
  assert (Hlater : (forall m, In m later -> ~ In IMG_NAME (files_in_text (text m)))
                   /\ flag IMG_NAME (snd (thread (claim_all mf) later a1)) = flag IMG_NAME a1
                   \/ ~ (forall m, In m later -> ~ In IMG_NAME (files_in_text (text m)))
                      /\ flag IMG_NAME (snd (thread (claim_all mf) later a1)) = 1%nat).
  { destruct (existsb (fun m => str_in IMG_NAME (files_in_text (text m))) later) eqn:Hex.
    - right. apply existsb_exists in Hex. destruct Hex as (m & Hm & Hn).
      apply str_in_iff in Hn. split.
      + intros H. exact (H m Hm Hn).
      + now apply (thread_takes mf IMG_NAME later a1 m).
    - left.
      assert (Hno : forall m, In m later -> ~ In IMG_NAME (files_in_text (text m))).
      { intros m Hm Hn. apply str_in_iff in Hn.
        assert (existsb (fun m => str_in IMG_NAME (files_in_text (text m))) later = true)
          by (apply existsb_exists; exists m; split; assumption).
        congruence. }
      split; [exact Hno|]. now apply thread_untouched. }
  set (later1 := fst (thread (claim_all mf) later a1)) in *.
  set (a3 := snd (thread (claim_all mf) later a1)) in *.
  (* the second loop *)
  rewrite pass2_thread, thread_app, thread_cons. cbn [fst snd].
  pose proof (thread_ok mf (fallback mf) (fallback_ok mf) earlier1 a3 K3) as (E2 & K2 & C2).
  destruct (C2 IMG_NAME) as (T2 & M2 & _).
  set (earlier2 := fst (thread (fallback mf) earlier1 a3)) in *.
  set (a4 := snd (thread (fallback mf) earlier1 a3)) in *.
  pose proof (fallback_ok mf msg a4 K2) as (_ & K5 & _).
  pose proof (thread_ok mf (fallback mf) (fallback_ok mf) later1 _ K5) as (E4 & _ & _).
  exists earlier2, (fst (fallback mf msg a4)),
    (fst (thread (fallback mf) later1 (snd (fallback mf msg a4)))).
  split; [reflexivity|].
  split; [rewrite <- (Forall2_length E2); symmetry; exact (Forall2_length E1)|].
  split; [rewrite <- (Forall2_length E4); symmetry; exact (Forall2_length E3)|].
  assert (Hfb : fallback mf msg a4
                = match Dict.get IMG_NAME a4 with
                  | Some true => (msg, a4)
                  | _ => (append_attachment msg (attachment_of IMG_PATH IMG_NAME),
                          Dict.set IMG_NAME true a4)
                  end).
  { unfold fallback, msg, placeholder_message, new_message.
    cbn [attachments text timestamp].
    rewrite placeholder_is, Hdate. unfold mf. cbn [first_of_day].
    rewrite img_name_date.
    destruct (Dict.get IMG_NAME a4) as [[|]|]; reflexivity. }
  rewrite Hfb.
  assert (Hmsg : count_named IMG_NAME msg = 0%nat) by reflexivity.
  assert (Hgot : count_named IMG_NAME
                   (append_attachment msg (attachment_of IMG_PATH IMG_NAME)) = 1%nat).
  { rewrite count_named_append, str_eqb_refl, Hmsg. reflexivity. }
  pose proof (flag_le_1 IMG_NAME a4) as L4.
  assert (Hflag : flag IMG_NAME a4 = 0%nat <->
                  total_named IMG_NAME earlier2 = 0%nat
                  /\ forall m, In m later -> ~ In IMG_NAME (files_in_text (text m))).
  { destruct Hlater as [[Hno F3]|[Hyes F3]].
    - split; [intros H; split; [lia|exact Hno] | intros [H _]; lia].
    - split; [intros H; lia | intros [_ H]; contradiction]. }
  rewrite <- Hflag. unfold flag.
  destruct (Dict.get IMG_NAME a4) as [[|]|]; cbn [fst].
  - rewrite Hmsg. split; [split; intros; lia | left; reflexivity].
  - rewrite Hgot. split; [tauto | right; reflexivity].
  - rewrite Hgot. split; [tauto | right; reflexivity].
Qed.

End Fallback_facts.

(** Claim C7: the second loop leaves a message alone unless it has no
    attachment (none from the first loop) and its trimmed, lower-cased body
    is empty or contains a lower-cased placeholder phrase; such a message
    gets at most one attachment, the first entry of the catalogue whose flag
    is not set and whose name carries the date of the message.  A message
    [<Media omitted>] of 2024-03-05, with [IMG-20240305-WA0001.jpg] in the
    catalogue, gets the file if and only if no message before it has it and
    no message after it names it in its body (the first loop serves those
    before the second loop starts). *)
Theorem date_fallback `{U : Unicode} :
  (forall body,
      is_placeholder body = true <->
      lower (strip body) = []
      \/ exists tok, In tok MEDIA_OMITTED_TOKENS
                     /\ contains (lower tok) (lower (strip body)) = true)
  /\ (forall mf m a,
        attachments m <> [] \/ is_placeholder (text m) = false ->
        fallback mf m a = (m, a))
  /\ (forall mf m a,
        attachments m = [] -> is_placeholder (text m) = true ->
        match first_of_day (date_of (timestamp m)) mf a with
        | Some (k, p) =>
            fallback mf m a = (append_attachment m (attachment_of p k), Dict.set k true a)
        | None => fallback mf m a = (m, a)
        end)
  /\ (forall d items a k p,
        first_of_day d items a = Some (k, p) <->
        exists before after,
          items = before ++ (k, p) :: after
          /\ Dict.get k a <> Some true
          /\ name_date k = Some d
          /\ forall k' p', In (k', p') before ->
                           Dict.get k' a = Some true \/ name_date k' <> Some d)
  /\ (forall tree conv,
        let mf := media_files tree in
        let first := pass1 mf (messages conv) (none_assigned mf) in
        link_state tree conv = pass2 mf (fst first) (snd first)
        /\ Forall2 (fun m1 m' => exists a, m' = fst (fallback mf m1 a))
                   (fst first) (messages (link_attachments tree conv)))
  /\ (forall earlier later ts who conv,
        messages conv = earlier ++ placeholder_message ts who :: later ->
        fresh earlier -> fresh later ->
        date_of ts = (2024, 3, 5) ->
        exists earlier' m' later',
          messages (link_attachments IMG_TREE conv) = earlier' ++ m' :: later'
          /\ length earlier' = length earlier /\ length later' = length later
          /\ (count_named IMG_NAME m' = 1%nat <->
              total_named IMG_NAME earlier' = 0%nat
              /\ forall m, In m later -> ~ In IMG_NAME (files_in_text (text m)))
          /\ (attachments m' = [] \/ attachments m' = [attachment_of IMG_PATH IMG_NAME])).
Proof.
  split; [apply is_placeholder_iff|].
  split; [|split; [|split; [|split]]].
  - intros mf m a H. unfold fallback.
    destruct (attachments m); [|reflexivity].
    destruct H as [H|H]; [congruence|]. now rewrite H.
  - intros mf m a Hm Hp. unfold fallback. rewrite Hm, Hp.
    now destruct (first_of_day (date_of (timestamp m)) mf a) as [[k p]|].
  - intros d items a k p. apply first_of_day_spec.
  - intros tree conv mf first. split; [apply link_state_eq|].
    cbn [link_attachments set_messages messages].
    rewrite link_state_eq, pass2_thread. apply thread_pointwise.
  - apply placeholder_example.
Qed.

Lemma date_fallback_witness :
  let ts := mk_datetime 2024 3 5 18 45 0 in
  let named_it := new_message (mk_datetime 2024 3 5 9 0 0) (u "Alice")
                              (u "IMG-20240305-WA0001.jpg (file attached)") in
  let said_hi := new_message (mk_datetime 2024 3 5 9 0 0) (u "Alice") (u "hi") in
  let conv earlier := new_conversation (u "Manon") (earlier ++ [placeholder_message ts (u "Bob")])
                                       [u "upload"] in
  (exists m, messages (@link_attachments latin1 IMG_TREE (conv [said_hi])) = [said_hi; m]
             /\ count_named IMG_NAME m = 1%nat)
  /\ (exists m0 m, messages (@link_attachments latin1 IMG_TREE (conv [named_it])) = [m0; m]
                   /\ count_named IMG_NAME m0 = 1%nat /\ count_named IMG_NAME m = 0%nat).
Proof.
  intros ts named_it said_hi conv. split.
  - destruct (proj2 (proj2 (proj2 (proj2 (proj2 (@date_fallback latin1)))))
                [said_hi] [] ts (u "Bob") (conv [said_hi]))
      as (e' & m' & l' & E & L & L' & Hiff & _);
      [reflexivity | repeat constructor | constructor | reflexivity |].
    exists m'.
    destruct l'; [|discriminate L'].
    destruct e' as [|x [|y e']]; try discriminate L.
    assert (Hx : x = said_hi).
    { apply (f_equal (fun l => hd said_hi l)) in E. vm_compute in E. symmetry. exact E. }
    subst x. split; [exact E|]. apply Hiff. split; [reflexivity|intros m []].
  - destruct (proj2 (proj2 (proj2 (proj2 (proj2 (@date_fallback latin1)))))
                [named_it] [] ts (u "Bob") (conv [named_it]))
      as (e' & m' & l' & E & L & L' & Hiff & Hatt);
      [reflexivity | repeat constructor | constructor | reflexivity |].
    destruct l'; [|discriminate L'].
    destruct e' as [|m0 [|y e']]; try discriminate L.
    exists m0, m'. split; [exact E|].
    assert (H0 : count_named IMG_NAME m0 = 1%nat).
    { apply (f_equal (fun l => count_named IMG_NAME (hd named_it l))) in E.
      vm_compute in E. symmetry. exact E. }
    split; [exact H0|].
    destruct Hatt as [Hatt|Hatt]; unfold count_named; rewrite Hatt; [reflexivity|].
    exfalso.
    assert (Hc : count_named IMG_NAME m' = 1%nat)
      by (unfold count_named; rewrite Hatt; vm_compute; reflexivity).
    apply Hiff in Hc. destruct Hc as [Hc _].
    unfold total_named in Hc. cbn [map list_sum fold_right] in Hc. lia.
Defined.

(** Claim C7, as the specification words it, fails in one direction: the
    placeholder message comes first and no message before it took the file,
    yet it does not get it, because the message after it names the file and
    the first loop has served that message already. *)
Lemma later_message_takes_the_file :
  let placeholder := placeholder_message (mk_datetime 2024 3 5 9 0 0) (u "Bob") in
  let named_it := new_message (mk_datetime 2024 3 5 10 0 0) (u "Alice")
                              (u "IMG-20240305-WA0001.jpg (file attached)") in
  let conv := new_conversation (u "Manon") [placeholder; named_it] [u "upload"] in
  messages (@link_attachments latin1 IMG_TREE conv)
  = [placeholder;
     append_attachment named_it
       {| relpath := u "media/IMG-20240305-WA0001.jpg"; kind := u "image";
          filename := IMG_NAME |}].
Proof. vm_compute. reflexivity. Qed.

(** ** Replacing the runs of a class *)

Lemma span_eq (p : cp -> bool) (s : str) : s = fst (span p s) ++ snd (span p s).
Proof.
  induction s as [|c t IH]; [reflexivity|].
  cbn [span]. destruct (p c); [|reflexivity].
  destruct (span p t) as [w r]. cbn [fst snd] in *. now rewrite <- app_comm_cons, <- IH.
Qed.

Lemma span_cons (p : cp -> bool) (c : cp) (t : str) :
  span p (c :: t)
  = if p c then (c :: fst (span p t), snd (span p t)) else ([], c :: t).
Proof. cbn [span]. destruct (p c); [|reflexivity]. now destruct (span p t). Qed.

Section Sub_facts.
Context `{U : Unicode}.

(** The first result of a greedy repetition of one-character steps is the
    one that reads the longest run. *)
Lemma greedy_first (p : cp -> bool) (fuel : nat) :
  forall (lo : nat) (st : mstate),
    (length (m_rest st) < fuel)%nat ->
    hd_error (rep (one p) lo None true fuel st)
    = if Nat.leb lo (length (fst (span p (m_rest st))))
      then Some {| m_pos := (m_pos st + length (fst (span p (m_rest st))))%nat;
                   m_rest := snd (span p (m_rest st));
                   m_groups := m_groups st |}
      else None.
Proof.
  induction fuel as [|fuel IH]; intros lo [pos rest gs] Hlen; [lia|].
  cbn [m_rest m_pos m_groups] in *.
  assert (Hstop : hd_error (match lo with
                            | O => [{| m_pos := pos; m_rest := rest; m_groups := gs |}]
                            | S _ => []
                            end)
                  = if Nat.leb lo 0
                    then Some {| m_pos := (pos + 0)%nat; m_rest := rest; m_groups := gs |}
                    else None).
  { destruct lo; [|reflexivity]. now rewrite Nat.add_0_r. }
  assert (Hone : forall c t,
             one p {| m_pos := pos; m_rest := c :: t; m_groups := gs |}
             = if p c then [{| m_pos := S pos; m_rest := t; m_groups := gs |}] else [])
    by reflexivity.
  cbn [rep option_map].
  destruct rest as [|c t].
  - change (one p {| m_pos := pos; m_rest := []; m_groups := gs |}) with (@nil mstate).
    cbn [flat_map app span fst snd length]. exact Hstop.
  - rewrite Hone, span_cons. destruct (p c) eqn:Hp.
    + cbn [flat_map m_pos fst snd length].
      rewrite (proj2 (Nat.ltb_lt pos (S pos)) (Nat.lt_succ_diag_r _)).
      rewrite app_nil_r.
      specialize (IH (pred lo) {| m_pos := S pos; m_rest := t; m_groups := gs |}).
      cbn [m_rest m_pos m_groups] in IH.
      assert (Ht : (length t < fuel)%nat) by (cbn [length] in Hlen; lia).
      specialize (IH Ht).
      destruct (rep (one p) (pred lo) None true fuel
                    {| m_pos := S pos; m_rest := t; m_groups := gs |})
        as [|x l] eqn:E.
      * cbn [app]. cbn [hd_error] in IH.
        destruct (Nat.leb (pred lo) (length (fst (span p t)))) eqn:Hle; [discriminate|].
        apply Nat.leb_gt in Hle.
        destruct lo as [|lo]; [cbn [pred] in Hle; lia|].
        cbn [hd_error].
        assert (Hgt : Nat.leb (S lo) (S (length (fst (span p t)))) = false)
          by (apply Nat.leb_gt; cbn [pred] in Hle; lia).
        now rewrite Hgt.
      * cbn [app hd_error]. cbn [hd_error] in IH.
        destruct (Nat.leb (pred lo) (length (fst (span p t)))) eqn:Hle; [|discriminate].
        apply Nat.leb_le in Hle.
        assert (Hle' : Nat.leb lo (S (length (fst (span p t)))) = true)
          by (apply Nat.leb_le; lia).
        rewrite Hle', IH. now rewrite Nat.add_succ_r.
    + cbn [flat_map app fst snd length]. exact Hstop.
Qed.

(** The same for the expression *)
Lemma plus_class_first (neg : bool) (items : list citem) (lo : nat) (st : mstate) :
  hd_error (run (Rep lo None true (Set_ neg items)) st)
  = if Nat.leb lo (length (fst (span (set_match neg items) (m_rest st))))
    then Some {| m_pos := (m_pos st + length (fst (span (set_match neg items) (m_rest st))))%nat;
                 m_rest := snd (span (set_match neg items) (m_rest st));
                 m_groups := m_groups st |}
    else None.
Proof.
  cbn [run].
  change (run (Set_ neg items)) with (one (set_match neg items)).
  apply greedy_first. lia.
Qed.

(** [re.sub] with a pattern [[...]+] squashes every run of the class. *)
Lemma sub_plus_class (neg : bool) (items : list citem) (repl : str) (s : str) :
  forall pos,
    sub_from (plus (Set_ neg items)) repl pos 0 s
    = squash (set_match neg items) repl false s
    /\ sub_from (plus (Set_ neg items)) repl pos
                (length (fst (span (set_match neg items) s))) s
       = squash (set_match neg items) repl true s.
Proof.
  induction s as [|c t IH]; intros pos; [split; reflexivity|].
  assert (H0 : sub_from (plus (Set_ neg items)) repl pos 0 (c :: t)
               = squash (set_match neg items) repl false (c :: t)).
  { cbn [sub_from]. unfold plus at 1. rewrite plus_class_first.
    cbn [m_rest m_pos m_groups]. rewrite span_cons. cbn [squash].
    destruct (set_match neg items c) eqn:Hp; cbn [fst snd length Nat.leb m_pos].
    - rewrite (proj2 (Nat.ltb_lt pos (pos + S (length (fst (span (set_match neg items) t)))))
                 ltac:(lia)).
      replace (pred (pos + S (length (fst (span (set_match neg items) t))) - pos))
        with (length (fst (span (set_match neg items) t))) by lia.
      now rewrite (proj2 (IH (S pos))).
    - now rewrite (proj1 (IH (S pos))). }
  split; [exact H0|].
  rewrite span_cons. destruct (set_match neg items c) eqn:Hp; cbn [fst length].
  - cbn [sub_from squash]. rewrite Hp. cbn [app]. apply (proj2 (IH (S pos))).
  - rewrite H0. cbn [squash]. now rewrite Hp.
Qed.

Lemma sub_squash (neg : bool) (items : list citem) (repl s : str) :
  Re.sub (plus (Set_ neg items)) repl s = squash (set_match neg items) repl false s.
Proof. unfold Re.sub. apply (proj1 (sub_plus_class neg items repl s 0%nat)). Qed.

(** [re.sub] with a pattern of one class replaces each character of the
    class. *)
Lemma sub_class (neg : bool) (items : list citem) (repl s : str) :
  forall pos,
    sub_from (Set_ neg items) repl pos 0 s
    = flat_map (fun c => if set_match neg items c then repl else [c]) s.
Proof.
  induction s as [|c t IH]; intros pos; [reflexivity|].
  cbn [sub_from run flat_map]. unfold one. cbn [m_rest m_pos m_groups].
  destruct (set_match neg items c) eqn:Hp.
  - cbn [hd_error m_pos].
    rewrite (proj2 (Nat.ltb_lt pos (S pos)) (Nat.lt_succ_diag_r _)).
    replace (pred (S pos - pos)) with 0%nat by lia. now rewrite IH.
  - cbn [hd_error app]. now rewrite IH.
Qed.

End Sub_facts.

Lemma squash_class (p q : cp -> bool) (repl : str) :
  (forall c, p c = false -> q c = true) ->
  Forall (fun c => q c = true) repl ->
  forall s b, Forall (fun c => q c = true) (squash p repl b s).
Proof.
  intros Hpq Hrepl. induction s as [|c t IH]; intros b; [constructor|].
  cbn [squash]. destruct (p c) eqn:Hp.
  - apply Forall_app. split; [destruct b; [constructor | exact Hrepl] | apply IH].
  - constructor; [now apply Hpq | apply IH].
Qed.

Lemma squash_id (p : cp -> bool) (repl s : str) :
  Forall (fun c => p c = false) s -> squash p repl false s = s.
Proof.
  induction 1 as [|c t Hc _ IH]; [reflexivity|].
  cbn [squash]. now rewrite Hc, IH.
Qed.

(** ** [safe_slug] *)

Lemma in_range_out (lo hi c : cp) : c < lo \/ hi < c -> in_range lo hi c = false.
Proof.
  intros H. unfold in_range. apply andb_false_iff.
  destruct H as [H|H]; [left | right]; now apply N.leb_gt.
Qed.

Lemma in_range_in (lo hi c : cp) : in_range lo hi c = true <-> lo <= c <= hi.
Proof. unfold in_range. now rewrite andb_true_iff, !N.leb_le. Qed.

Lemma slug_char_bounds (c : cp) : slug_char c = true -> 45 <= c <= 122.
Proof.
  unfold slug_char. rewrite !orb_true_iff, !in_range_in, !N.eqb_eq. lia.
Qed.

Lemma slug_char_not_space (c : cp) : slug_char c = true -> isspace c = false.
Proof.
  intros H. apply slug_char_bounds in H. unfold isspace.
  rewrite !in_range_out by lia.
  rewrite !(proj2 (N.eqb_neq c _)) by lia.
  reflexivity.
Qed.

Lemma not_slug_class `{U : Unicode} (c : cp) :
  set_match true [IRange 97 122; IRange 65 90; IRange 48 57; IChar 95; IChar 45] c
  = negb (slug_char c).
Proof.
  unfold set_match, slug_char. cbn [existsb citem_match].
  now destruct (in_range 97 122 c), (in_range 65 90 c), (in_range 48 57 c),
               (c =? 95), (c =? 45).
Qed.

Lemma lstrip_id (s : str) :
  Forall (fun c => isspace c = false) s -> lstrip s = s.
Proof. intros H. destruct H as [|c t Hc _]; [reflexivity|]. cbn [lstrip]. now rewrite Hc. Qed.

Lemma strip_id (s : str) :
  Forall (fun c => isspace c = false) s -> strip s = s.
Proof.
  intros H. unfold strip, rstrip. rewrite (lstrip_id s H).
  rewrite lstrip_id by now apply Forall_rev. apply rev_involutive.
Qed.

Lemma Forall_firstn {A : Type} (P : A -> Prop) (n : nat) (l : list A) :
  Forall P l -> Forall P (firstn n l).
Proof.
  intros H. rewrite <- (firstn_skipn n l) in H. now apply Forall_app in H.
Qed.

Section Slug_facts.
Context `{U : Unicode}.

(** What [safe_slug] computes, without the matcher. *)
Lemma safe_slug_eq (s : str) :
  safe_slug s
  = match squash (fun c => negb (slug_char c)) (u "_") false (strip s) with
    | [] => u "chat"
    | slug => firstn 80 slug
    end.
Proof.
  unfold safe_slug.
  change NOT_SLUG
    with (plus (Set_ true [IRange 97 122; IRange 65 90; IRange 48 57; IChar 95; IChar 45])).
  rewrite sub_squash.
  assert (E : forall b t,
             squash (set_match true [IRange 97 122; IRange 65 90; IRange 48 57;
                                     IChar 95; IChar 45]) (u "_") b t
             = squash (fun c => negb (slug_char c)) (u "_") b t).
  { intros b t. revert b. induction t as [|c t IH]; intros b; [reflexivity|].
    cbn [squash]. now rewrite not_slug_class, !IH. }
  rewrite E.
  now destruct (squash (fun c => negb (slug_char c)) (u "_") false (strip s)).
Qed.

Lemma safe_slug_slug (s : str) : is_slug (safe_slug s).
Proof.
  rewrite safe_slug_eq.
  assert (H : Forall (fun c => slug_char c = true)
                     (squash (fun c => negb (slug_char c)) (u "_") false (strip s))).
  { apply squash_class.
    - intros c Hc. now apply negb_false_iff in Hc.
    - repeat constructor. }
  destruct (squash (fun c => negb (slug_char c)) (u "_") false (strip s)) as [|c l].
  - split; [discriminate|]. split; [cbn; lia|]. repeat constructor.
  - split; [cbn [firstn]; discriminate|].
    split; [apply firstn_le_length | now apply Forall_firstn].
Qed.

Lemma safe_slug_fix (s : str) : is_slug s -> safe_slug s = s.
Proof.
  intros (Hne & Hlen & Hall). rewrite safe_slug_eq.
  rewrite strip_id.
  - rewrite squash_id.
    + destruct s as [|c t]; [congruence|]. now apply firstn_all2.
    + eapply Forall_impl; [|exact Hall]. intros c Hc. cbn beta. now rewrite Hc.
  - eapply Forall_impl; [|exact Hall]. intros c. apply slug_char_not_space.
Qed.

End Slug_facts.

(** The id [safe_slug] makes of a title is never empty, has at most 80
    characters, and is made of Basic Latin letters, digits, underscores and
    hyphens only. *)
Theorem safe_slug_safe `{U : Unicode} (s : str) :
  safe_slug s <> []
  /\ (length (safe_slug s) <= 80)%nat
  /\ Forall (fun c => slug_char c = true) (safe_slug s).
Proof. exact (safe_slug_slug s). Qed.

(** [safe_slug] leaves a text as it is exactly when the text is such an
    id; applying it twice is applying it once. *)
Theorem safe_slug_idempotent `{U : Unicode} :
  (forall s, safe_slug s = s <-> is_slug s)
  /\ (forall s, safe_slug (safe_slug s) = safe_slug s).
Proof.
  split.
  - intros s. split; [|apply safe_slug_fix].
    intros H. rewrite <- H. apply safe_slug_slug.
  - intros s. apply safe_slug_fix, safe_slug_slug.
Qed.

(** ** Dots and hyphens in a date *)

Lemma sub_dot_or_hyphen `{U : Unicode} (d : str) :
  Re.sub DOT_OR_HYPHEN (u "/") d = map to_slash d.
Proof.
  unfold Re.sub. change DOT_OR_HYPHEN with (Set_ false [IChar 46; IChar 45]).
  rewrite sub_class. induction d as [|c t IH]; [reflexivity|].
  cbn [flat_map map]. rewrite IH. unfold set_match, to_slash. cbn [existsb citem_match xorb].
  rewrite orb_false_r. now destruct ((c =? 46) || (c =? 45)).
Qed.

Lemma to_slash_twice (c : cp) : to_slash (to_slash c) = to_slash c.
Proof.
  unfold to_slash. destruct ((c =? 46) || (c =? 45)) eqn:H; [reflexivity|]. now rewrite H.
Qed.

(** The resolver reads a dot or a hyphen between the numbers of a date as
    a slash: whichever of the three separators the header patterns accept
    is written, and however they are mixed, the date resolves alike. *)
Theorem parse_datetime_separators `{U : Unicode} (d t : str) :
  parse_datetime (map to_slash d) t = parse_datetime d t.
Proof.
  unfold parse_datetime, datetime_text. rewrite !sub_dot_or_hyphen, map_map.
  now rewrite (map_ext _ _ to_slash_twice).
Qed.

(** ** The title of a conversation *)



Section Anchored.
Context `{U : Unicode}.

(** An expression that begins with [^] matches at the start of the text
    only. *)
Lemma sub_anchored_later (r : regex) (repl : str) (s : str) :
  forall pos k, (0 < pos)%nat -> sub_from (Cat Bol r) repl pos k s = skipn k s.
Proof.
  induction s as [|c t IH]; intros pos k Hpos.
  - now destruct k.
  - destruct k as [|k]; cbn [sub_from skipn].
    + cbn [run m_pos]. destruct pos as [|pos]; [lia|]. cbn [Nat.eqb flat_map hd_error].
      rewrite IH by lia. reflexivity.
    + apply IH. lia.
Qed.

Lemma sub_anchored (r : regex) (repl : str) (s : str) :
  Re.sub (Cat Bol r) repl s
  = match hd_error (run r (init s)) with
    | Some m => if Nat.ltb 0 (m_pos m) then repl ++ skipn (m_pos m) s else s
    | None => s
    end.
Proof.
  assert (Hrun : run (Cat Bol r) (init s) = run r (init s)).
  { cbn [run init m_pos Nat.eqb flat_map]. apply app_nil_r. }
  destruct s as [|c t].
  - unfold Re.sub. cbn [sub_from].
    destruct (hd_error (run r (init []))) as [m|] eqn:E; [|reflexivity].
    destruct (run r (init [])) as [|x l] eqn:Er; [discriminate|].
    injection E as ->.
    destruct (run_consumes r (init []) m) as (w & Hw1 & Hw2); [rewrite Er; now left|].
    cbn [init m_rest m_pos] in Hw1, Hw2. symmetry in Hw1. apply app_eq_nil in Hw1.
    destruct Hw1 as [-> _]. rewrite Hw2. reflexivity.
  - unfold Re.sub. cbn [sub_from].
    change {| m_pos := 0; m_rest := c :: t; m_groups := [] |} with (init (c :: t)).
    rewrite Hrun.
    destruct (hd_error (run r (init (c :: t)))) as [m|] eqn:E.
    + destruct (Nat.ltb 0 (m_pos m)) eqn:Hlt.
      * rewrite sub_anchored_later by lia.
        apply Nat.ltb_lt in Hlt.
        destruct (m_pos m) as [|n]; [lia|].
        replace (pred (S n - 0)) with n by lia. reflexivity.
      * now rewrite sub_anchored_later by lia.
    + now rewrite sub_anchored_later by lia.
Qed.

(** A literal of a pattern compiled with IGNORECASE reads a character that
    is the literal up to the case of Basic Latin letters. *)
Lemma litI_reads (a x : cp) : lower_ascii x = lower_ascii a -> reads (litI a) x.
Proof.
  intros H pos t gs.
  assert (Hone : forall p : cp -> bool, p x = true ->
                   one p {| m_pos := pos; m_rest := x :: t; m_groups := gs |}
                   = [{| m_pos := S pos; m_rest := t; m_groups := gs |}]).
  { intros p Hp. unfold one. cbn [m_rest m_pos m_groups]. now rewrite Hp. }
  unfold litI, is_letter, lower_ascii in *.
  destruct (in_range 65 90 a) eqn:Ha1.
  - cbn [orb run]. apply Hone. unfold lit_icase.
    apply in_range_in in Ha1.
    destruct (in_range 65 90 x) eqn:Hx.
    + apply in_range_in in Hx. assert (x = a) by lia. subst x.
      assert (E1 : in_range 97 122 (a + 32) = true) by (apply in_range_in; lia).
      assert (E2 : (a =? a + 32 - 32) = true) by (apply N.eqb_eq; lia).
      rewrite E1, E2. cbn [andb]. now rewrite orb_true_r.
    + subst x. now rewrite N.eqb_refl.
  - cbn [orb]. destruct (in_range 97 122 a) eqn:Ha2.
    + cbn [run]. apply Hone. unfold lit_icase.
      apply in_range_in in Ha2. rewrite (proj2 (in_range_in 97 122 a) Ha2).
      destruct (in_range 65 90 x) eqn:Hx.
      * apply in_range_in in Hx.
        assert (E2 : (x =? a - 32) = true) by (apply N.eqb_eq; lia).
        rewrite E2. cbn [andb]. now rewrite orb_true_r.
      * subst x. now rewrite N.eqb_refl.
    + cbn [run]. apply Hone.
      destruct (in_range 65 90 x) eqn:Hx.
      * apply in_range_in in Hx. exfalso.
        assert (Hr : in_range 97 122 a = true) by (apply in_range_in; lia). congruence.
      * subst x. apply N.eqb_refl.
Qed.

Lemma run_literals (L : list regex) (P : str) :
  Forall2 reads L P ->
  forall K pos tl gs,
    run (cat (L ++ K)) {| m_pos := pos; m_rest := P ++ tl; m_groups := gs |}
    = run (cat K) {| m_pos := (pos + length P)%nat; m_rest := tl; m_groups := gs |}.
Proof.
  induction 1 as [|l x L P Hl _ IH]; intros K pos tl gs.
  - cbn [app length]. now rewrite Nat.add_0_r.
  - cbn [app cat fold_right run]. rewrite Hl. cbn [flat_map]. rewrite app_nil_r.
    change (fold_right Cat Empty (L ++ K)) with (cat (L ++ K)).
    rewrite IH. cbn [length]. now rewrite Nat.add_succ_r.
Qed.

Lemma literals_read (L P : str) :
  map lower_ascii P = map lower_ascii L -> Forall2 reads (map litI L) P.
Proof.
  revert P. induction L as [|a L IH]; intros [|x P] H; try discriminate; [constructor|].
  cbn [map] in *. injection H as Hx HP.
  constructor; [now apply litI_reads | now apply IH].
Qed.

Lemma span_spaces (ws : str) (x : cp) (t : str) :
  Forall is_space ws -> isspace x = false ->
  span (set_match false [ISpace]) (ws ++ x :: t) = (ws, x :: t).
Proof.
  intros Hws Hx. induction Hws as [|c ws Hc _ IH].
  - cbn [app]. rewrite span_cons. unfold set_match. cbn [existsb citem_match xorb].
    now rewrite Hx.
  - cbn [app]. rewrite span_cons, IH. unfold set_match. cbn [existsb citem_match xorb fst snd].
    unfold is_space in Hc. now rewrite Hc.
Qed.

(** A prefix, white space, and a text that begins with no white space:
    the match of [^prefix\s+] ends where that text begins. *)
Lemma prefix_first (L P ws : str) (x : cp) (t : str) :
  map lower_ascii P = map lower_ascii L ->
  ws <> [] -> Forall is_space ws -> isspace x = false ->
  hd_error (run (cat (map litI L ++ [plus space])) (init (P ++ ws ++ x :: t)))
  = Some {| m_pos := (length P + length ws)%nat; m_rest := x :: t; m_groups := [] |}.
Proof.
  intros HP Hne Hws Hx. unfold init.
  rewrite (run_literals _ _ (literals_read L P HP)).
  change (cat [plus space]) with (Cat (Rep 1 None true (Set_ false [ISpace])) Empty).
  assert (Hcat : forall a st, run (Cat a Empty) st = run a st).
  { intros a st. cbn [run]. induction (run a st) as [|y l IHl]; [reflexivity|].
    cbn [flat_map app]. now rewrite IHl. }
  rewrite Hcat, plus_class_first. cbn [m_rest m_pos m_groups].
  rewrite span_spaces by assumption. cbn [fst snd].
  destruct ws as [|w ws']; [congruence|]. reflexivity.
Qed.

End Anchored.

Lemma title_patterns_shape :
  CHAT_WITH = Cat Bol (cat (map litI (u "WhatsApp Chat with") ++ [plus space]))
  /\ DISCUSSION_AVEC = Cat Bol (cat (map litI (u "Discussion WhatsApp avec") ++ [plus space])).
Proof. split; vm_compute; reflexivity. Qed.

Lemma stem_txt (dir : path) (X : str) : X <> [] -> stem (dir ++ [X ++ u ".txt"]) = X.
Proof.
  intros HX. unfold stem, name. rewrite last_last. unfold split_ext.
  rewrite rev_app_distr. change (rev (u ".txt")) with [116; 120; 116; DOT].
  cbn [app break_at].
  change (116 =? DOT) with false. change (120 =? DOT) with false.
  change (DOT =? DOT) with true. cbn iota.
  destruct (rev X) as [|c r] eqn:E.
  - apply (f_equal (@rev cp)) in E. rewrite rev_involutive in E. now subst X.
  - rewrite <- E. now rewrite rev_involutive.
Qed.

Section Title_facts.
Context `{U : Unicode}.

Lemma strip_prefix (L P ws : str) (x : cp) (t : str) :
  map lower_ascii P = map lower_ascii L ->
  ws <> [] -> Forall is_space ws -> isspace x = false ->
  Re.sub (Cat Bol (cat (map litI L ++ [plus space]))) [] (P ++ ws ++ x :: t) = x :: t.
Proof.
  intros HP Hne Hws Hx. rewrite sub_anchored, (prefix_first L P ws x t HP Hne Hws Hx).
  cbn [m_pos].
  assert (Hlt : Nat.ltb 0 (length P + length ws) = true).
  { apply Nat.ltb_lt. destruct ws; [congruence|]. cbn [length]. lia. }
  rewrite Hlt. cbn [app]. rewrite app_assoc, <- length_app.
  rewrite skipn_app, skipn_all, Nat.sub_diag. reflexivity.
Qed.

Lemma no_prefix (r : regex) (repl s : str) :
  matches (Cat Bol r) s = false -> Re.sub (Cat Bol r) repl s = s.
Proof.
  unfold matches, match_. intros H. rewrite sub_anchored.
  assert (Hrun : run (Cat Bol r) (init s) = run r (init s)).
  { cbn [run init m_pos Nat.eqb flat_map]. apply app_nil_r. }
  rewrite Hrun in H. now destruct (hd_error (run r (init s))).
Qed.

Lemma other_letter (a b x : cp) (L : str) (K : list regex) (t : str) :
  x = b \/ x + 32 = b ->
  lit_icase a b = false -> lit_icase a (b - 32) = false -> in_range 97 122 a = true ->
  matches (Cat Bol (cat (map litI (a :: L) ++ K))) (x :: t) = false.
Proof.
  intros Hx H1 H2 Ha. unfold matches, match_.
  assert (Hl : litI a = LitI a).
  { unfold litI, is_letter. rewrite Ha, orb_true_r.
    apply in_range_in in Ha. rewrite in_range_out by lia. reflexivity. }
  cbn [run init m_pos Nat.eqb flat_map map app cat fold_right].
  rewrite Hl. cbn [run]. unfold one, init. cbn [m_rest].
  assert (Hno : lit_icase a x = false).
  { destruct Hx as [->|Hx]; [exact H1|]. replace x with (b - 32) by lia. exact H2. }
  now rewrite Hno.
Qed.

End Title_facts.

(** A transcript named "WhatsApp Chat with X.txt" or "Discussion WhatsApp
    avec X.txt", the prefix in any case of the letters, has the title X with
    its underscores turned into spaces: the prefix and the white space after
    it go, whatever X is, a dot in it included (in the first case X is not
    to begin with the second prefix, which would go as well). *)
Theorem title_strips_prefix `{U : Unicode} (dir : path) (P ws : str) (x : cp) (t : str) :
  ws <> [] -> Forall is_space ws -> isspace x = false ->
  (map lower_ascii P = u "whatsapp chat with" /\ matches DISCUSSION_AVEC (x :: t) = false)
  \/ map lower_ascii P = u "discussion whatsapp avec" ->
  detect_title_from_txtname (dir ++ [P ++ ws ++ x :: t ++ u ".txt"])
  = replace (ch "_") [SPACE] (x :: t).
Proof.
  intros Hne Hws Hx HP.
  destruct title_patterns_shape as [E1 E2].
  assert (Hstem : stem (dir ++ [P ++ ws ++ x :: t ++ u ".txt"]) = P ++ ws ++ x :: t).
  { replace (P ++ ws ++ x :: t ++ u ".txt") with ((P ++ ws ++ x :: t) ++ u ".txt")
      by (now rewrite <- !app_assoc).
    apply stem_txt. destruct P; [destruct ws; [congruence|]|]; discriminate. }
  assert (Hsubs : Re.sub DISCUSSION_AVEC [] (Re.sub CHAT_WITH [] (P ++ ws ++ x :: t)) = x :: t).
  { destruct HP as [[HP Hd]|HP].
    - rewrite E1, strip_prefix; trivial.
      rewrite E2. apply no_prefix. now rewrite <- E2.
    - rewrite E1, no_prefix.
      + rewrite E2. now apply strip_prefix.
      + destruct P as [|p P]; [discriminate|]. cbn [map] in HP. injection HP as Hp _.
        change (u "WhatsApp Chat with") with (87 :: u "hatsApp Chat with").
        assert (E : map litI (87 :: u "hatsApp Chat with") = map litI (119 :: u "hatsApp Chat with"))
          by reflexivity.
        rewrite E. cbn [app].
        apply (other_letter 119 100 p); trivial.
        unfold lower_ascii in Hp. destruct (in_range 65 90 p); [now right | now left]. }
  unfold detect_title_from_txtname. rewrite Hstem, Hsubs.
  unfold replace. cbn [flat_map]. now destruct (x =? ch "_").
Qed.

(** The title of "WhatsApp Chat with Alice_B.txt" is "Alice B". *)
Lemma title_strips_prefix_witness :
  @detect_title_from_txtname latin1 ([u "upload"] ++ [u "whatsapp CHAT With" ++ [SPACE; SPACE]
                                                      ++ ch "A" :: u "lice_B" ++ u ".txt"])
  = u "Alice B".
Proof.
  apply (@title_strips_prefix latin1 [u "upload"] (u "whatsapp CHAT With") [SPACE; SPACE]
           (ch "A") (u "lice_B")).
  - discriminate.
  - repeat constructor.
  - reflexivity.
  - left. split; vm_compute; reflexivity.
Defined.

(** ** The kind of a file *)

Lemma str_eqb_sym (a b : str) : str_eqb a b = str_eqb b a.
Proof.
  destruct (str_eqb b a) eqn:E.
  - apply str_eqb_eq in E. subst. apply str_eqb_refl.
  - apply str_eqb_neq in E. apply str_eqb_neq. congruence.
Qed.

Lemma kinds_differ :
  u "image" <> u "video" /\ u "image" <> u "audio" /\ u "image" <> u "doc"
  /\ u "video" <> u "audio" /\ u "video" <> u "doc" /\ u "audio" <> u "doc".
Proof. repeat split; intros H; vm_compute in H; discriminate H. Qed.

Lemma exts_disjoint (e : str) :
  (In e [u ".jpg"; u ".jpeg"; u ".png"; u ".gif"; u ".webp"; u ".heic"] ->
   str_in e [u ".mp4"; u ".3gp"; u ".mov"; u ".avi"; u ".mkv"; u ".m4v"] = false
   /\ str_in e [u ".opus"; u ".ogg"; u ".mp3"; u ".wav"; u ".m4a"] = false)
  /\ (In e [u ".mp4"; u ".3gp"; u ".mov"; u ".avi"; u ".mkv"; u ".m4v"] ->
      str_in e [u ".opus"; u ".ogg"; u ".mp3"; u ".wav"; u ".m4a"] = false).
Proof.
  split; intros H; cbn [In] in H;
    repeat (destruct H as [<-|H]; [vm_compute; auto|]); destruct H.
Qed.

(** The kind is "image", "video" or "audio" exactly for the extensions
    listed under that kind in [MEDIA_EXTS], in whatever case they are
    written, and "doc" for every other path, one without extension
    included: no extension is listed under two kinds. *)
Theorem classify_ext_table `{U : Unicode} (p : path) :
  (forall k exts, In (k, exts) MEDIA_EXTS -> k <> u "doc" ->
                  (classify_ext p = k <-> In (lower (suffix p)) exts))
  /\ (classify_ext p = u "doc" <->
      forall k exts, In (k, exts) MEDIA_EXTS -> k <> u "doc" -> ~ In (lower (suffix p)) exts)
  /\ In (classify_ext p) (map fst MEDIA_EXTS).
Proof.
  unfold classify_ext. generalize (lower (suffix p)) as e. intros e.
  destruct kinds_differ as (D1 & D2 & D3 & D4 & D5 & D6).
  destruct (exts_disjoint e) as [X1 X2].
  unfold MEDIA_EXTS. cbn [kind_of_ext In map fst].
  rewrite <- !str_in_iff in X1, X2.
  assert (Hdoc : (if str_in e [u ".pdf"; u ".txt"; u ".vcf"; u ".csv"; u ".doc"; u ".docx";
                               u ".xls"; u ".xlsx"; u ".zip"]
                  then u "doc" else u "doc") = u "doc").
  { destruct (str_in e [u ".pdf"; u ".txt"; u ".vcf"; u ".csv"; u ".doc"; u ".docx";
                        u ".xls"; u ".xlsx"; u ".zip"]); reflexivity. }
  rewrite Hdoc. clear Hdoc.
  destruct (str_in e [u ".jpg"; u ".jpeg"; u ".png"; u ".gif"; u ".webp"; u ".heic"]) eqn:E1;
    destruct (str_in e [u ".mp4"; u ".3gp"; u ".mov"; u ".avi"; u ".mkv"; u ".m4v"]) eqn:E2;
    destruct (str_in e [u ".opus"; u ".ogg"; u ".mp3"; u ".wav"; u ".m4a"]) eqn:E3;
    try (destruct (X1 eq_refl); discriminate); try (specialize (X2 eq_refl); discriminate);
    (split; [|split]);
    try (intros k exts [H|[H|[H|[H|[]]]]] Hk; injection H as <- <-;
         rewrite <- str_in_iff, ?E1, ?E2, ?E3; split; congruence);
    try (split; [congruence|]; intros H; exfalso;
         first [ apply (H _ _ (or_introl eq_refl) D3); now apply str_in_iff
               | apply (H _ _ (or_intror (or_introl eq_refl)) D5); now apply str_in_iff
               | apply (H _ _ (or_intror (or_intror (or_introl eq_refl))) D6);
                 now apply str_in_iff ]);
    try (split; [|reflexivity]; intros _ k exts [H|[H|[H|[H|[]]]]] Hk; injection H as <- <-;
         rewrite <- str_in_iff, ?E1, ?E2, ?E3; congruence);
    auto 6.
Qed.

(** ** The catalogue of the linker *)

Lemma set_add_in (s : list str) (x y : str) : In y (set_add s x) <-> In y s \/ y = x.
Proof.
  unfold set_add. destruct (str_in x s) eqn:E.
  - apply str_in_iff in E. split; [tauto|]. intros [H| ->]; assumption.
  - rewrite in_app_iff. cbn [In].
    split; [intros [H|[<-|[]]]; auto | intros [H| ->]; auto].
Qed.

Lemma set_add_nodup (s : list str) (x : str) : NoDup s -> NoDup (set_add s x).
Proof.
  intros H. unfold set_add. destruct (str_in x s) eqn:E; [exact H|].
  assert (Hx : ~ In x s).
  { intros Hin. apply str_in_iff in Hin. congruence. }
  apply NoDup_rev in H. rewrite <- (rev_involutive (s ++ [x])).
  apply NoDup_rev. rewrite rev_app_distr. cbn [rev app]. constructor; [|exact H].
  now rewrite <- in_rev.
Qed.

Lemma fold_set_add (l acc : list str) :
  NoDup acc ->
  NoDup (fold_left set_add l acc)
  /\ forall y, In y (fold_left set_add l acc) <-> In y acc \/ In y l.
Proof.
  revert acc. induction l as [|x l IH]; intros acc Hacc; cbn [fold_left].
  - split; [exact Hacc|]. intros y. cbn [In]. tauto.
  - destruct (IH (set_add acc x) (set_add_nodup acc x Hacc)) as [H1 H2].
    split; [exact H1|]. intros y. rewrite H2, set_add_in. cbn [In].
    split; intros H; intuition congruence.
Qed.

Lemma keys_set {V : Type} (k : str) (v : V) (d : Dict.t V) :
  Dict.keys (Dict.set k v d) = set_add (Dict.keys d) k.
Proof.
  induction d as [|[k' v'] d IH]; [reflexivity|].
  cbn [Dict.set].
  assert (Hadd : set_add (Dict.keys ((k', v') :: d)) k
                 = if str_eqb k' k then k' :: Dict.keys d
                   else k' :: set_add (Dict.keys d) k).
  { unfold set_add, str_in, Dict.keys. cbn [map fst existsb].
    rewrite (str_eqb_sym k k'). destruct (str_eqb k' k); cbn [orb]; [reflexivity|].
    now destruct (existsb (str_eqb k) (map fst d)). }
  rewrite Hadd. destruct (str_eqb k' k); [reflexivity|].
  change (Dict.keys ((k', v') :: Dict.set k v d)) with (k' :: Dict.keys (Dict.set k v d)).
  now rewrite IH.
Qed.

Lemma in_get {V : Type} (k : str) (v : V) (d : Dict.t V) :
  NoDup (Dict.keys d) -> In (k, v) d -> Dict.get k d = Some v.
Proof.
  induction d as [|[k' v'] d IH]; intros Hnd Hin; [destruct Hin|].
  cbn [Dict.keys map fst] in Hnd. inversion Hnd as [|? ? Hk' Hd]. subst.
  cbn [Dict.get]. destruct Hin as [H|H].
  - injection H as -> ->. now rewrite str_eqb_refl.
  - destruct (str_eqb k' k) eqn:E.
    + apply str_eqb_eq in E. subst k'. exfalso. apply Hk'.
      change (In k (map fst d)). apply in_map_iff. now exists (k, v).
    + now apply IH.
Qed.

Section Catalogue_facts.
Context `{U : Unicode}.

Lemma media_files_snoc (tree : list entry) (e : entry) :
  media_files (tree ++ [e])
  = if is_media e then Dict.set (name (e_path e)) (e_path e) (media_files tree)
    else media_files tree.
Proof. unfold media_files. now rewrite fold_left_app. Qed.

Lemma media_names_snoc (tree : list entry) (e : entry) :
  media_names (tree ++ [e])
  = media_names tree ++ (if is_media e then [name (e_path e)] else []).
Proof.
  unfold media_names. rewrite filter_app, map_app. cbn [filter].
  now destruct (is_media e).
Qed.

Lemma media_files_keys (tree : list entry) :
  Dict.keys (media_files tree) = fold_left set_add (media_names tree) [].
Proof.
  induction tree as [|e tree IH] using rev_ind; [reflexivity|].
  rewrite media_files_snoc, media_names_snoc, fold_left_app.
  destruct (is_media e); cbn [fold_left]; [|exact IH].
  now rewrite keys_set, IH.
Qed.

Lemma media_files_nodup (tree : list entry) : NoDup (Dict.keys (media_files tree)).
Proof. rewrite media_files_keys. apply fold_set_add. constructor. Qed.

Lemma media_files_get (tree : list entry) (k : str) (p : path) :
  Dict.get k (media_files tree) = Some p <->
  exists before e after,
    tree = before ++ e :: after
    /\ is_media e = true /\ name (e_path e) = k /\ e_path e = p
    /\ forall e', In e' after -> is_media e' = true -> name (e_path e') <> k.
Proof.
  induction tree as [|e0 tree IH] using rev_ind.
  - split; [discriminate|]. intros (before & e & after & H & _). now destruct before.
  - assert (Hlast : forall before e after,
               tree ++ [e0] = before ++ e :: after ->
               (after = [] /\ tree = before /\ e0 = e)
               \/ exists after', after = after' ++ [e0] /\ tree = before ++ e :: after').
    { intros before e after H.
      destruct after as [|x after' _] using rev_ind.
      - apply app_inj_tail in H. left. tauto.
      - right. exists after'.
        rewrite app_comm_cons, app_assoc in H. apply app_inj_tail in H.
        destruct H as [-> ->]. auto. }
    rewrite media_files_snoc. destruct (is_media e0) eqn:Hm.
    + destruct (str_eqb (name (e_path e0)) k) eqn:Hk.
      * apply str_eqb_eq in Hk. rewrite <- Hk, get_set_same. split.
        -- intros H. injection H as <-. exists tree, e0, []. repeat split; trivial.
           intros e' [].
        -- intros (before & e & after & H & He & Hn & Hp & Hafter).
           apply Hlast in H. destruct H as [(-> & -> & ->)|(after' & -> & ->)].
           ++ now rewrite Hp.
           ++ exfalso. apply (Hafter e0); [apply in_or_app; right; now left | exact Hm |].
              congruence.
      * apply str_eqb_neq in Hk. rewrite get_set_other by congruence. rewrite IH. split.
        -- intros (before & e & after & -> & He & Hn & Hp & Hafter).
           exists before, e, (after ++ [e0]). rewrite <- app_assoc. repeat split; trivial.
           intros e' Hin Hm'. apply in_app_or in Hin. destruct Hin as [Hin|[<-|[]]]; auto.
        -- intros (before & e & after & H & He & Hn & Hp & Hafter).
           apply Hlast in H. destruct H as [(-> & -> & ->)|(after' & -> & ->)]; [congruence|].
           exists before, e, after'. repeat split; trivial.
           intros e' Hin. apply Hafter. apply in_or_app. now left.
    + rewrite IH. split.
      * intros (before & e & after & -> & He & Hn & Hp & Hafter).
        exists before, e, (after ++ [e0]). rewrite <- app_assoc. repeat split; trivial.
        intros e' Hin Hm'. apply in_app_or in Hin. destruct Hin as [Hin|[<-|[]]]; auto.
        congruence.
      * intros (before & e & after & H & He & Hn & Hp & Hafter).
        apply Hlast in H. destruct H as [(-> & -> & ->)|(after' & -> & ->)]; [congruence|].
        exists before, e, after'. repeat split; trivial.
        intros e' Hin. apply Hafter. apply in_or_app. now left.
Qed.

End Catalogue_facts.

(** The catalogue has one entry for every name of a media file under the
    media root: the names come in the order in which they are first met,
    each once, and a name that several files carry, in different folders,
    stands for the last of them. *)
Theorem media_files_lookup `{U : Unicode} (tree : list entry) :
  Dict.keys (media_files tree) = fold_left set_add (media_names tree) []
  /\ NoDup (Dict.keys (media_files tree))
  /\ (forall k, In k (Dict.keys (media_files tree)) <-> In k (media_names tree))
  /\ (forall k p,
        Dict.get k (media_files tree) = Some p <->
        exists before e after,
          tree = before ++ e :: after
          /\ is_media e = true /\ name (e_path e) = k /\ e_path e = p
          /\ forall e', In e' after -> is_media e' = true -> name (e_path e') <> k).
Proof.
  split; [apply media_files_keys|].
  split; [apply media_files_nodup|].
  split; [|apply media_files_get].
  intros k. rewrite media_files_keys.
  destruct (fold_set_add (media_names tree) [] (NoDup_nil _)) as [_ H].
  rewrite H. cbn [In]. tauto.
Qed.

(** ** The linker: where the attachments come from *)

Section Linked_facts.
Context `{U : Unicode}.
Variable mf : Dict.t path.

Lemma linked_refl (m : Message) : linked mf m m.
Proof. exists []. split; [now rewrite app_nil_r | constructor]. Qed.

Lemma linked_trans (a b c : Message) : linked mf a b -> linked mf b c -> linked mf a c.
Proof.
  intros (l1 & H1 & F1) (l2 & H2 & F2). exists (l1 ++ l2).
  split; [now rewrite H2, H1, app_assoc | now apply Forall_app].
Qed.

Lemma linked_append (m : Message) (p : path) (k : str) :
  Dict.get k mf = Some p -> linked mf m (append_attachment m (attachment_of p k)).
Proof.
  intros H. exists [attachment_of p k]. split; [reflexivity|].
  constructor; [|constructor]. exists p. now split.
Qed.

Lemma claim_named_linked (m : Message) (a : Dict.t bool) (k : str) :
  linked mf m (fst (claim_named mf (m, a) k)).
Proof.
  unfold claim_named. destruct (Dict.get k mf) as [p|] eqn:Hp; [|apply linked_refl].
  destruct (Dict.get k a) as [[|]|]; cbn [fst]; try apply linked_refl.
  now apply linked_append.
Qed.

Lemma claims_linked (names : list str) (m m0 : Message) (a : Dict.t bool) :
  linked mf m0 m -> linked mf m0 (fst (fold_left (claim_named mf) names (m, a))).
Proof.
  revert m a. induction names as [|k names IH]; intros m a H; [exact H|].
  cbn [fold_left].
  destruct (claim_named mf (m, a) k) as [m1 a1] eqn:E.
  apply IH. eapply linked_trans; [exact H|].
  pose proof (claim_named_linked m a k) as H1. now rewrite E in H1.
Qed.

Lemma fallback_linked (m : Message) (a : Dict.t bool) :
  NoDup (Dict.keys mf) -> linked mf m (fst (fallback mf m a)).
Proof.
  intros Hnd. unfold fallback.
  destruct (attachments m); [|apply linked_refl].
  destruct (is_placeholder (text m)); [|apply linked_refl].
  destruct (first_of_day (date_of (timestamp m)) mf a) as [[k p]|] eqn:E;
    [|apply linked_refl].
  cbn [fst]. apply linked_append. apply in_get; [exact Hnd|].
  apply first_of_day_spec in E. destruct E as (before & after & -> & _).
  apply in_or_app. right. now left.
Qed.

End Linked_facts.

Lemma link_attachments_linked `{U : Unicode} (tree : list entry) (conv : Conversation) :
  Forall2 (linked (media_files tree)) (messages conv)
          (messages (link_attachments tree conv)).
Proof.
  unfold link_attachments. cbn [messages set_messages].
  rewrite link_state_eq, pass1_thread, pass2_thread.
  eapply Forall2_compose; [apply linked_trans | |].
  - eapply Forall2_impl; [|apply thread_pointwise].
    intros m m' (a & ->). unfold claim_all. apply claims_linked, linked_refl.
  - eapply Forall2_impl; [|apply thread_pointwise].
    intros m m' (a & ->). apply fallback_linked, media_files_nodup.
Qed.

(** Whatever [link_attachments] attaches comes from the catalogue: the
    file name of the attachment is a name of the catalogue, its path is the
    path the catalogue has for that name, printed relative to the media
    root, and its kind is the kind of that path. *)
Theorem attachments_from_catalogue `{U : Unicode} (tree : list entry) (conv : Conversation) :
  Forall2 (linked (media_files tree)) (messages conv)
          (messages (link_attachments tree conv))
  /\ (fresh (messages conv) ->
      forall m a, In m (messages (link_attachments tree conv)) -> In a (attachments m) ->
                  exists p, Dict.get (filename a) (media_files tree) = Some p
                            /\ relpath a = path_str p /\ kind a = classify_ext p
                            /\ In (filename a) (media_names tree)).
Proof.
  split; [apply link_attachments_linked|].
  intros Hfresh m a Hm Ha.
  pose proof (link_attachments_linked tree conv) as H.
  assert (Hall : forall l l', Forall2 (linked (media_files tree)) l l' -> fresh l ->
                   forall m, In m l' -> Forall (catalogued (media_files tree)) (attachments m)).
  { clear. induction 1 as [|x y l l' Hxy _ IH]; intros Hf m Hm; [destruct Hm|].
    inversion Hf as [|? ? Hx Hl]. subst. destruct Hm as [<-|Hm]; [|now apply IH].
    destruct Hxy as (more & E & F). rewrite E, Hx. exact F. }
  specialize (Hall _ _ H Hfresh m Hm). rewrite Forall_forall in Hall.
  destruct (Hall a Ha) as (p & Hp & E). exists p.
  split; [exact Hp|]. split; [now rewrite E|]. split; [now rewrite E|].
  assert (Hk : In (filename a) (Dict.keys (media_files tree))).
  { apply get_in_keys. congruence. }
  rewrite media_files_keys in Hk.
  destruct (fold_set_add (media_names tree) [] (NoDup_nil _)) as [_ Hin].
  apply Hin in Hk. now destruct Hk.
Qed.

(** The messages of "WhatsApp Chat with Bob", one naming a picture that
    is in the archive. *)
Lemma attachments_from_catalogue_witness :
  let m := new_message (mk_datetime 2024 3 5 9 0 0) (u "Alice")
                       (u "IMG-20240305-WA0001.jpg (file attached)") in
  let conv := new_conversation (u "Bob") [m] [u "upload"] in
  fresh (messages conv)
  /\ forall m' a, In m' (messages (@link_attachments latin1 IMG_TREE conv)) ->
                  In a (attachments m') ->
                  exists p, Dict.get (filename a) (media_files IMG_TREE) = Some p
                            /\ relpath a = path_str p /\ kind a = classify_ext p
                            /\ In (filename a) (media_names IMG_TREE).
Proof.
  intros m conv.
  assert (Hfresh : fresh (messages conv)) by repeat constructor.
  split; [exact Hfresh|].
  exact (proj2 (@attachments_from_catalogue latin1 IMG_TREE conv) Hfresh).
Defined.

(** ** The linker: an archive without media *)

Section No_media.
Context `{U : Unicode}.

Lemma media_files_none (tree : list entry) :
  (forall e, In e tree -> is_media e = false) -> media_files tree = [].
Proof.
  induction tree as [|e tree IH] using rev_ind; intros H; [reflexivity|].
  rewrite media_files_snoc, (H e) by (apply in_or_app; right; now left).
  apply IH. intros e' He'. apply H. apply in_or_app. now left.
Qed.

Lemma claims_none (names : list str) (st : Message * Dict.t bool) :
  fold_left (claim_named []) names st = st.
Proof.
  induction names as [|k names IH]; [reflexivity|].
  cbn [fold_left]. destruct st as [m a]. cbn [claim_named Dict.get]. exact IH.
Qed.

Lemma pass1_none (msgs : list Message) (a : Dict.t bool) : pass1 [] msgs a = (msgs, a).
Proof.
  induction msgs as [|m msgs IH]; [reflexivity|].
  cbn [pass1]. now rewrite claims_none, IH.
Qed.

Lemma pass2_none (msgs : list Message) (a : Dict.t bool) : pass2 [] msgs a = (msgs, a).
Proof.
  induction msgs as [|m msgs IH]; [reflexivity|].
  cbn [pass2].
  assert (E : fallback [] m a = (m, a)).
  { unfold fallback. destruct (attachments m); [|reflexivity].
    now destruct (is_placeholder (text m)). }
  now rewrite E, IH.
Qed.

End No_media.

(** When the archive holds no media file (no file at all, or files with
    other extensions only), [link_attachments] leaves the conversation as
    it is, placeholders included. *)
Theorem link_attachments_no_media `{U : Unicode} (tree : list entry) (conv : Conversation) :
  (forall e, In e tree -> is_media e = false) ->
  link_attachments tree conv = conv.
Proof.
  intros H. unfold link_attachments, link_state.
  rewrite (media_files_none tree H). cbn [none_assigned map].
  rewrite pass1_none, pass2_none. now destruct conv.
Qed.

(** An archive with a folder and a file that is no media file. *)
Lemma link_attachments_no_media_witness :
  let tree := [{| e_path := [u "media"]; e_is_file := false |};
               {| e_path := [u "media"; u "notes.bak"]; e_is_file := true |};
               {| e_path := [u "folder.jpg"]; e_is_file := false |}] in
  let conv := new_conversation (u "Bob")
                [placeholder_message (mk_datetime 2024 3 5 9 0 0) (u "Bob")] [u "upload"] in
  @link_attachments latin1 tree conv = conv.
Proof.
  intros tree conv. apply (@link_attachments_no_media latin1 tree conv).
  intros e [<-|[<-|[<-|[]]]]; reflexivity.
Defined.

(** ** The line loop: one message for every header *)

Section Header_facts.
Context `{U : Unicode}.
Variable now : nat -> datetime.

Lemma opened_by_append (line : str) (m : Message) (s : str) :
  opened_by line m -> opened_by line (append_text m s).
Proof.
  intros (d & t & a & b & more & Hc & Ha & Ht & Hx).
  exists d, t, a, b, (more ++ s). cbn [append_text author text attachments].
  repeat split; trivial. now rewrite Ht, app_assoc.
Qed.

Lemma parse_line_opened (hs : list str) (st : pstate) (raw : str) :
  Forall2 opened_by hs (flush st) ->
  Forall2 opened_by (hs ++ (if is_header raw then [raw] else []))
          (flush (parse_line now st raw)).
Proof.
  intros H. unfold is_header, parse_line.
  destruct (classify (normalize raw)) as [[[[d t] a] b]|] eqn:E.
  - assert (Hnew : forall ts, opened_by raw (new_message ts a (strip b))).
    { intros ts. exists d, t, a, b, []. cbn [new_message author text attachments].
      repeat split; trivial. now rewrite app_nil_r. }
    destruct (parse_datetime d t) as [ts|]; unfold flush at 1; cbn [current closed];
      apply Forall2_app; trivial; constructor; auto.
  - rewrite app_nil_r. destruct (current st) as [c|] eqn:Ec; [|exact H].
    unfold flush in *. cbn [current closed]. rewrite Ec in H.
    apply Forall2_app_inv_r in H. destruct H as (h1 & h2 & H1 & H2 & ->).
    apply Forall2_app; [exact H1|].
    inversion H2 as [|h c' h2' l' Hh Hnil]. subst.
    constructor; [now apply opened_by_append | exact Hnil].
Qed.

Lemma parse_lines_opened (lines : list str) :
  forall (hs : list str) (st : pstate),
    Forall2 opened_by hs (flush st) ->
    Forall2 opened_by (hs ++ filter is_header lines) (flush (parse_lines now lines st)).
Proof.
  induction lines as [|l lines IH]; intros hs st H.
  - now rewrite app_nil_r.
  - cbn [filter]. unfold parse_lines. cbn [fold_left].
    apply (parse_line_opened hs st l) in H. apply IH in H.
    rewrite <- app_assoc in H. now destruct (is_header l).
Qed.

Lemma emitted_opened (lines : list str) :
  Forall2 opened_by (filter is_header lines) (emitted now lines).
Proof. apply (parse_lines_opened lines [] pstate0). constructor. Qed.

End Header_facts.

(** The parser makes one message for every line that is a header, and no
    other: in the order of the lines, each message has the author of its
    header and a text that begins with the body of the header, trimmed;
    the lines that are no headers add no message, and a transcript without
    a header gives no message at all. *)
Theorem one_message_per_header `{U : Unicode} (now : nat -> datetime) (f : txt_file)
        (data : str) :
  first_decoding f ENCODINGS = Some data ->
  exists title_ msgs,
    parse_chat_text now f = Returns (title_, msgs)
    /\ Forall2 opened_by (filter is_header (splitlines data)) (emitted now (splitlines data))
    /\ Permutation (emitted now (splitlines data)) msgs
    /\ length msgs = length (filter is_header (splitlines data))
    /\ (msgs = [] <-> forall line, In line (splitlines data) -> is_header line = false).
Proof.
  intros Hd. unfold parse_chat_text. rewrite Hd.
  exists (detect_title_from_txtname (txt_path f)),
         (sort_messages (emitted now (splitlines data))).
  pose proof (emitted_opened now (splitlines data)) as Ho.
  pose proof (sort_messages_perm (emitted now (splitlines data))) as Hp.
  assert (Hlen : length (sort_messages (emitted now (splitlines data)))
                 = length (filter is_header (splitlines data))).
  { rewrite <- (Permutation_length Hp). symmetry. eapply Forall2_length. exact Ho. }
  split; [reflexivity|]. split; [exact Ho|]. split; [exact Hp|]. split; [exact Hlen|].
  split.
  - intros E. rewrite E in Hlen. cbn [length] in Hlen.
    intros line Hin. destruct (is_header line) eqn:Hh; [|reflexivity].
    assert (Hin' : In line (filter is_header (splitlines data))) by (apply filter_In; auto).
    destruct (filter is_header (splitlines data)); [destruct Hin' | discriminate].
  - intros Hno.
    assert (E : filter is_header (splitlines data) = []).
    { destruct (filter is_header (splitlines data)) as [|x l] eqn:E; [reflexivity|].
      assert (Hx : In x (filter is_header (splitlines data))) by (rewrite E; now left).
      apply filter_In in Hx. destruct Hx as [Hx1 Hx2]. rewrite (Hno x Hx1) in Hx2.
      discriminate. }
    rewrite E in Hlen. now destruct (sort_messages (emitted now (splitlines data))).
Qed.

(** A transcript with a notice, two headers and a continuation line. *)
Lemma one_message_per_header_witness :
  let now := fun k => mk_datetime 2025 1 1 0 0 (N.of_nat k) in
  let data := u "Messages are end-to-end encrypted
[05/03/2024 14:30:00] Alice: Hello
  second line
[05/03/2024 14:31:00] Bob: Hi" in
  let f := {| txt_path := [u "WhatsApp Chat with Bob.txt"];
              read_text := fun enc => match enc with utf_8_sig => Some data | _ => None end |} in
  exists title_ msgs,
    @parse_chat_text latin1 now f = Returns (title_, msgs)
    /\ Forall2 opened_by (filter is_header (splitlines data)) (emitted now (splitlines data))
    /\ Permutation (emitted now (splitlines data)) msgs
    /\ length msgs = length (filter is_header (splitlines data))
    /\ (msgs = [] <-> forall line, In line (splitlines data) -> is_header line = false).
Proof.
  intros now data f.
  apply (@one_message_per_header latin1 now f data). reflexivity.
Defined.

(** ** Sorting with a key *)

Section Sort_facts.
Context {A : Type} (ahead : A -> A -> bool).

Lemma insert_by_perm (x : A) (l : list A) : Permutation (x :: l) (insert_by ahead x l).
Proof.
  induction l as [|y l IH]; cbn [insert_by]; [reflexivity|].
  destruct (ahead x y); [reflexivity|].
  rewrite perm_swap. now apply perm_skip.
Qed.

Lemma sort_by_perm (l : list A) : Permutation l (sort_by ahead l).
Proof.
  induction l as [|x l IH]; [reflexivity|].
  cbn [sort_by fold_right]. rewrite <- insert_by_perm. now apply perm_skip.
Qed.

Hypothesis ahead_total : forall a b, ahead a b = false -> ahead b a = true.
Hypothesis ahead_trans : forall a b c, ahead a b = true -> ahead b c = true -> ahead a c = true.

Lemma insert_by_sorted (x : A) (l : list A) :
  StronglySorted (fun a b => ahead a b = true) l ->
  StronglySorted (fun a b => ahead a b = true) (insert_by ahead x l).
Proof.
  induction 1 as [|y l Hl IH Hy]; cbn [insert_by].
  - constructor; constructor.
  - destruct (ahead x y) eqn:E.
    + constructor; [now constructor|].
      constructor; [exact E|].
      eapply Forall_impl; [|exact Hy]. intros z Hz. now apply (ahead_trans x y z).
    + constructor; [exact IH|].
      apply (Permutation_Forall (insert_by_perm x l)).
      constructor; [now apply ahead_total | exact Hy].
Qed.

Lemma sort_by_sorted (l : list A) :
  StronglySorted (fun a b => ahead a b = true) (sort_by ahead l).
Proof.
  induction l as [|x l IH]; [constructor|].
  cbn [sort_by fold_right]. now apply insert_by_sorted.
Qed.

End Sort_facts.

(** The head of a list sorted by a key, largest first: the first of the
    elements with the largest key. *)
Lemma sort_desc_head {A : Type} (key : A -> N) (l : list A) (g : A) :
  hd_error (sort_by (fun a b => key b <=? key a) l) = Some g ->
  exists before after,
    l = before ++ g :: after
    /\ Forall (fun x => key x < key g) before
    /\ Forall (fun x => key x <= key g) after.
Proof.
  revert g. induction l as [|x l IH]; intros g H; [discriminate|].
  cbn [sort_by fold_right] in H.
  change (fold_right (insert_by (fun a b => key b <=? key a)) [] l)
    with (sort_by (fun a b => key b <=? key a) l) in H.
  destruct (sort_by (fun a b => key b <=? key a) l) as [|y s] eqn:E.
  - cbn in H. injection H as <-.
    assert (Hl : l = []).
    { apply Permutation_nil. rewrite <- E. symmetry. apply sort_by_perm. }
    subst l. exists [], []. repeat split; constructor.
  - specialize (IH y eq_refl). destruct IH as (b & a & -> & Hb & Ha).
    cbn [insert_by] in H. destruct (key y <=? key x) eqn:Hle.
    + apply N.leb_le in Hle. cbn in H. injection H as <-.
      exists [], (b ++ y :: a). repeat split; [constructor|].
      apply Forall_app. split.
      * eapply Forall_impl; [|exact Hb]. cbn beta. intros z Hz. lia.
      * constructor; [exact Hle|].
        eapply Forall_impl; [|exact Ha]. cbn beta. intros z Hz. lia.
    + apply N.leb_gt in Hle. cbn in H. injection H as <-.
      exists (x :: b), a. repeat split; trivial. now constructor.
Qed.

(** ** [detect_txt_file] *)

(** [detect_txt_file] finds no transcript exactly when neither search
    yields a path; otherwise it returns a path of the largest size, the
    first such one in the order of the two searches, the top level before
    the folders (a path that does not exist counting for size 0). *)
Theorem detect_txt_file_largest (top deep : list globbed) :
  (detect_txt_file top deep = None <-> top = [] /\ deep = [])
  /\ (forall p,
        detect_txt_file top deep = Some p ->
        exists before g after,
          top ++ deep = before ++ g :: after /\ g_path g = p
          /\ Forall (fun x => size_key x < size_key g) before
          /\ Forall (fun x => size_key x <= size_key g) after).
Proof.
  unfold detect_txt_file. split.
  - destruct (top ++ deep) as [|x l] eqn:E.
    + split; [|reflexivity]. intros _. now apply app_eq_nil in E.
    + split.
      * intros H.
        destruct (sort_by (fun a b => size_key b <=? size_key a) (x :: l)) as [|y s] eqn:Es;
          [|discriminate].
        exfalso. apply (@Permutation_nil_cons _ l x). rewrite <- Es. symmetry.
        apply Permutation_sym, Permutation_sym, sort_by_perm.
      * intros [-> ->]. discriminate.
  - intros p H. destruct (top ++ deep) as [|x l] eqn:E; [discriminate|].
    destruct (hd_error (sort_by (fun a b => size_key b <=? size_key a) (x :: l)))
      as [g|] eqn:Hg; [|discriminate].
    cbn [option_map] in H. injection H as <-.
    apply sort_desc_head in Hg. destruct Hg as (b & a & Hl & Hb & Ha).
    exists b, g, a. auto.
Qed.

(** Two transcripts of the same size, one of them in a folder, a smaller
    one and a dangling link. *)
Lemma detect_txt_file_largest_witness :
  let a := {| g_path := [u "a.txt"]; g_size := Some 10 |} in
  let b := {| g_path := [u "b.txt"]; g_size := Some 50 |} in
  let c := {| g_path := [u "old"; u "c.txt"]; g_size := Some 50 |} in
  let d := {| g_path := [u "d.txt"]; g_size := None |} in
  exists before g after,
    [a; d; b] ++ [a; d; b; c] = before ++ g :: after /\ g_path g = [u "b.txt"]
    /\ Forall (fun x => size_key x < size_key g) before
    /\ Forall (fun x => size_key x <= size_key g) after.
Proof.
  intros a b c d.
  apply (proj2 (detect_txt_file_largest [a; d; b] [a; d; b; c]) [u "b.txt"]).
  reflexivity.
Defined.

(** ** A stable sort has one result *)

Lemma dt_leb_antisym (a b : datetime) :
  dt_leb a b = true -> dt_leb b a = true -> dt_eqb a b = true.
Proof.
  unfold dt_leb, dt_ltb, dt_eqb. rewrite (lex_compare_antisym (fields a) (fields b)).
  destruct (lex_compare (fields a) (fields b)); cbn; congruence.
Qed.

Lemma dt_eqb_refl (a : datetime) : dt_eqb a a = true.
Proof.
  unfold dt_eqb. now rewrite (proj2 (lex_compare_eq (fields a) (fields a)) eq_refl).
Qed.

Lemma dt_eqb_sym (a b : datetime) : dt_eqb a b = dt_eqb b a.
Proof.
  unfold dt_eqb. rewrite (lex_compare_antisym (fields b) (fields a)).
  now destruct (lex_compare (fields b) (fields a)).
Qed.

Lemma filter_head_in (t : datetime) (l : list Message) (x : Message) (r : list Message) :
  filter (at_time t) l = x :: r -> In x l /\ at_time t x = true.
Proof.
  intros H. apply filter_In. rewrite H. now left.
Qed.

Lemma at_time_self (m : Message) : at_time (timestamp m) m = true.
Proof. unfold at_time. apply dt_eqb_refl. Qed.

Lemma stable_sort_unique (l1 : list Message) :
  forall l2,
    StronglySorted not_later l1 -> StronglySorted not_later l2 ->
    (forall t, filter (at_time t) l1 = filter (at_time t) l2) ->
    l1 = l2.
Proof.
  induction l1 as [|x l1 IH]; intros l2 S1 S2 H.
  - destruct l2 as [|y l2]; [reflexivity|].
    specialize (H (timestamp y)). cbn [filter] in H.
    rewrite (at_time_self y) in H. discriminate.
  - destruct l2 as [|y l2].
    + specialize (H (timestamp x)). cbn [filter] in H.
      rewrite (at_time_self x) in H. discriminate.
    + inversion S1 as [|? ? S1' F1]. inversion S2 as [|? ? S2' F2]. subst.
      assert (Hxy : at_time (timestamp x) y = true).
      { pose proof (H (timestamp x)) as Hx. pose proof (H (timestamp y)) as Hy.
        cbn [filter] in Hx, Hy.
        rewrite (at_time_self x) in Hx. rewrite (at_time_self y) in Hy.
        assert (Hx' : In x (y :: l2)).
        { apply (filter_In (at_time (timestamp x))). cbn [filter]. rewrite <- Hx. now left. }
        assert (Hy' : In y (x :: l1)).
        { apply (filter_In (at_time (timestamp y))). cbn [filter]. rewrite Hy. now left. }
        rewrite Forall_forall in F1, F2.
        assert (L1 : dt_leb (timestamp y) (timestamp x) = true).
        { destruct Hx' as [->|Hx']; [apply dt_leb_refl | now apply F2]. }
        assert (L2 : dt_leb (timestamp x) (timestamp y) = true).
        { destruct Hy' as [->|Hy']; [apply dt_leb_refl | now apply F1]. }
        unfold at_time. now apply dt_leb_antisym. }
      assert (E : x = y).
      { specialize (H (timestamp x)). cbn [filter] in H.
        rewrite (at_time_self x), Hxy in H. now injection H. }
      subst y. f_equal. apply IH; trivial.
      intros t. specialize (H t). cbn [filter] in H.
      destruct (at_time t x); [now injection H | exact H].
Qed.

(** Sorting what was sorted, with more messages after it, is sorting all
    of it at once. *)
Lemma sort_sort (l l' : list Message) :
  sort_messages (sort_messages l ++ l') = sort_messages (l ++ l').
Proof.
  apply stable_sort_unique; try apply sort_messages_sorted.
  intros t. rewrite !sort_messages_stable, !filter_app. now rewrite sort_messages_stable.
Qed.

(** ** The loop that fills [convs] *)

Lemma somes_app {A : Type} (l1 l2 : list (option A)) : somes (l1 ++ l2) = somes l1 ++ somes l2.
Proof. unfold somes. apply flat_map_app. Qed.

Lemma collect_snoc (loaded : list (option Conversation)) (r : option Conversation) :
  collect (loaded ++ [r])
  = match r with
    | Some conv => add_conversation (collect loaded) conv
    | None => collect loaded
    end.
Proof. unfold collect. now rewrite fold_left_app. Qed.

Lemma add_conversation_other (convs : Dict.t Conversation) (conv : Conversation) (k : str) :
  k <> chat_id conv -> Dict.get k (add_conversation convs conv) = Dict.get k convs.
Proof.
  intros H. unfold add_conversation.
  destruct (Dict.get (chat_id conv) convs); now apply get_set_other.
Qed.

Lemma add_conversation_same (convs : Dict.t Conversation) (conv : Conversation) :
  Dict.get (chat_id conv) (add_conversation convs conv)
  = Some match Dict.get (chat_id conv) convs with
         | Some old => merge_into old conv
         | None => conv
         end.
Proof.
  unfold add_conversation.
  destruct (Dict.get (chat_id conv) convs); apply get_set_same.
Qed.

Lemma collect_get (k : str) (loaded : list (option Conversation)) :
  Dict.get k (collect loaded)
  = match filter (with_id k) (somes loaded) with
    | [] => None
    | c0 :: rest =>
        Some match rest with
             | [] => c0
             | _ :: _ => set_messages c0 (sort_messages (flat_map messages (c0 :: rest)))
             end
    end.
Proof.
  induction loaded as [|r loaded IH] using rev_ind; [reflexivity|].
  rewrite collect_snoc, somes_app, filter_app.
  destruct r as [conv|]; [|cbn [somes flat_map filter]; now rewrite app_nil_r].
  cbn [somes flat_map app filter]. unfold with_id at 2.
  destruct (str_eqb (chat_id conv) k) eqn:Hk.
  - apply str_eqb_eq in Hk. subst k. rewrite add_conversation_same, IH.
    destruct (filter (with_id (chat_id conv)) (somes loaded)) as [|c0 rest]; [reflexivity|].
    cbn [app]. f_equal. unfold merge_into.
    destruct rest as [|c1 rest]; cbn [app].
    + cbn [flat_map]. now rewrite app_nil_r.
    + change (set_messages (set_messages c0 ?a) ?b) with (set_messages c0 b).
      change (messages (set_messages c0 ?a)) with a.
      assert (Hfm : forall l, flat_map messages (l ++ [conv])
                              = flat_map messages l ++ messages conv).
      { intros l. rewrite flat_map_app. cbn [flat_map]. now rewrite app_nil_r. }
      rewrite sort_sort, <- Hfm. reflexivity.
  - apply str_eqb_neq in Hk. rewrite add_conversation_other by congruence.
    now rewrite app_nil_r.
Qed.

(** After the uploads are gone through, an id stands for the first
    conversation loaded with that id: its title and its media root stay,
    and its messages are those of all the conversations loaded with that
    id, sorted by time stamp, messages of one time stamp in the order of
    the uploads; an id that no upload has is not there. *)
Theorem collect_lookup (loaded : list (option Conversation)) (k : str) :
  (Dict.get k (collect loaded) = None <-> filter (with_id k) (somes loaded) = [])
  /\ (forall c0 rest,
        filter (with_id k) (somes loaded) = c0 :: rest ->
        exists c,
          Dict.get k (collect loaded) = Some c
          /\ chat_id c = k /\ title c = title c0 /\ base_dir c = base_dir c0
          /\ Permutation (flat_map messages (c0 :: rest)) (messages c)
          /\ (rest = [] -> c = c0)
          /\ (rest <> [] ->
              messages c = sort_messages (flat_map messages (c0 :: rest))
              /\ StronglySorted not_later (messages c))).
Proof.
  rewrite collect_get. split.
  - destruct (filter (with_id k) (somes loaded)); split; congruence.
  - intros c0 rest E. rewrite E.
    assert (Hid : chat_id c0 = k).
    { assert (Hin : In c0 (filter (with_id k) (somes loaded))) by (rewrite E; now left).
      apply filter_In in Hin. destruct Hin as [_ Hin]. now apply str_eqb_eq in Hin. }
    destruct rest as [|c1 rest].
    + exists c0. split; [reflexivity|]. split; [exact Hid|].
      split; [reflexivity|]. split; [reflexivity|].
      split; [cbn [flat_map]; now rewrite app_nil_r|].
      split; [reflexivity | congruence].
    + eexists. split; [reflexivity|]. cbn [set_messages chat_id title base_dir messages].
      split; [exact Hid|]. split; [reflexivity|]. split; [reflexivity|].
      split; [apply sort_messages_perm|].
      split; [intros H; discriminate H|].
      intros _. split; [reflexivity | apply sort_messages_sorted].
Qed.

(** Three uploads of two conversations. *)
Lemma collect_lookup_witness :
  let t1 := mk_datetime 2024 3 5 9 0 0 in
  let t2 := mk_datetime 2024 3 5 10 0 0 in
  let a := @new_conversation latin1 (u "Manon") [new_message t2 (u "A") (u "two")] [u "a"] in
  let b := @new_conversation latin1 (u "Bob") [] [u "b"] in
  let c := @new_conversation latin1 (u "Manon") [new_message t1 (u "B") (u "one")] [u "c"] in
  exists conv,
    Dict.get (u "Manon") (collect [Some a; None; Some b; Some c]) = Some conv
    /\ chat_id conv = u "Manon" /\ title conv = title a /\ base_dir conv = base_dir a
    /\ Permutation (flat_map messages [a; c]) (messages conv)
    /\ ([c] = [] -> conv = a)
    /\ ([c] <> [] ->
        messages conv = sort_messages (flat_map messages [a; c])
        /\ StronglySorted not_later (messages conv)).
Proof.
  intros t1 t2 a b c.
  apply (proj2 (collect_lookup [Some a; None; Some b; Some c] (u "Manon")) a [c]).
  reflexivity.
Defined.

Lemma set_new {V : Type} (k : str) (v : V) (d : Dict.t V) :
  Dict.get k d = None -> Dict.set k v d = d ++ [(k, v)].
Proof.
  induction d as [|[k' v'] d IH]; intros H; [reflexivity|].
  cbn [Dict.get Dict.set] in *. destruct (str_eqb k' k); [discriminate|].
  cbn [app]. now rewrite IH.
Qed.

Lemma set_old {V : Type} (k : str) (v old : V) (d : Dict.t V) :
  Dict.get k d = Some old ->
  exists d1 d2, d = d1 ++ (k, old) :: d2 /\ Dict.set k v d = d1 ++ (k, v) :: d2.
Proof.
  induction d as [|[k' v'] d IH]; intros H; [discriminate|].
  cbn [Dict.get Dict.set] in *. destruct (str_eqb k' k) eqn:E.
  - apply str_eqb_eq in E. subst k'. injection H as ->. now exists [], d.
  - destruct (IH H) as (d1 & d2 & -> & ->). now exists ((k', v') :: d1), d2.
Qed.

Lemma all_messages_app (d1 d2 : Dict.t Conversation) :
  all_messages (d1 ++ d2) = all_messages d1 ++ all_messages d2.
Proof. unfold all_messages. apply flat_map_app. Qed.

Lemma add_conversation_messages (convs : Dict.t Conversation) (conv : Conversation) :
  Permutation (all_messages (add_conversation convs conv))
              (all_messages convs ++ messages conv).
Proof.
  unfold add_conversation.
  destruct (Dict.get (chat_id conv) convs) as [old|] eqn:E.
  - destruct (set_old (chat_id conv) (merge_into old conv) old convs E)
      as (d1 & d2 & -> & ->).
    assert (Hcons : forall k c d, all_messages ((k, c) :: d) = messages c ++ all_messages d)
      by reflexivity.
    rewrite !all_messages_app, !Hcons. unfold merge_into. cbn [set_messages messages].
    rewrite <- (sort_messages_perm (messages old ++ messages conv)).
    rewrite <- !app_assoc. apply Permutation_app_head, Permutation_app_head.
    apply Permutation_app_comm.
  - rewrite set_new by exact E. rewrite all_messages_app.
    unfold all_messages at 2. cbn [flat_map snd]. now rewrite app_nil_r.
Qed.

Lemma add_conversation_keys (convs : Dict.t Conversation) (conv : Conversation) :
  Dict.keys (add_conversation convs conv) = set_add (Dict.keys convs) (chat_id conv).
Proof.
  unfold add_conversation. destruct (Dict.get (chat_id conv) convs); apply keys_set.
Qed.

Lemma collect_nodup (loaded : list (option Conversation)) : NoDup (Dict.keys (collect loaded)).
Proof.
  induction loaded as [|r loaded IH] using rev_ind; [constructor|].
  rewrite collect_snoc. destruct r as [conv|]; [|exact IH].
  rewrite add_conversation_keys. now apply set_add_nodup.
Qed.

(** The merge loses no message and makes none: the messages of all the
    conversations kept are the messages of all the conversations loaded,
    each as many times; and every id stands for one conversation. *)
Theorem collect_keeps_messages (loaded : list (option Conversation)) :
  Permutation (all_messages (collect loaded)) (flat_map messages (somes loaded))
  /\ NoDup (Dict.keys (collect loaded))
  /\ (forall k c, In (k, c) (collect loaded) -> chat_id c = k).
Proof.
  split; [|split; [apply collect_nodup|]].
  - induction loaded as [|r loaded IH] using rev_ind; [reflexivity|].
    rewrite collect_snoc, somes_app, flat_map_app.
    destruct r as [conv|].
    + change (flat_map messages (somes [Some conv])) with (messages conv ++ []).
      rewrite app_nil_r, add_conversation_messages. now apply Permutation_app_tail.
    + change (flat_map messages (somes [@None Conversation])) with (@nil Message).
      now rewrite app_nil_r.
  - intros k c Hin. apply in_get in Hin; [|apply collect_nodup].
    rewrite collect_get in Hin.
    destruct (filter (with_id k) (somes loaded)) as [|c0 rest] eqn:E; [discriminate|].
    assert (Hid : chat_id c0 = k).
    { assert (H0 : In c0 (filter (with_id k) (somes loaded))) by (rewrite E; now left).
      apply filter_In in H0. destruct H0 as [_ H0]. now apply str_eqb_eq in H0. }
    injection Hin as <-. now destruct rest.
Qed.

(** ** [load_zip] *)

Lemma extends_sorted (l l' : list Message) :
  Forall2 extends l l' -> StronglySorted not_later l -> StronglySorted not_later l'.
Proof.
  induction 1 as [|x y l l' Hxy Hl IH]; intros S; [constructor|].
  inversion S as [|? ? S' F]. subst. constructor; [now apply IH|].
  destruct Hxy as (Ht & _).
  clear IH S S'. induction Hl as [|a b l l' Hab _ IHl]; [constructor|].
  inversion F as [|? ? Fa Fl]. subst. constructor; [|now apply IHl].
  destruct Hab as (Hb & _). unfold not_later in *. now rewrite Ht, Hb.
Qed.

(** What [load_zip] returns is ready to be merged and shown: it raises
    exactly when the transcript cannot be read; otherwise the conversation
    has the title of the transcript's file name, an id that is the slug of
    that title, the folder of the upload as media root, and its messages are
    in the order of their time stamps, also after the linker has gone over
    them, with nothing attached but files of the archive. *)
Theorem load_zip_result `{U : Unicode} (now : nat -> datetime) (f : txt_file)
        (tree : list entry) (dir : path) :
  (load_zip now f tree dir = Raises RuntimeError <-> forall enc, read_text f enc = None)
  /\ (forall conv,
        load_zip now f tree dir = Returns conv ->
        title conv = detect_title_from_txtname (txt_path f)
        /\ chat_id conv = safe_slug (title conv) /\ is_slug (chat_id conv)
        /\ base_dir conv = dir
        /\ StronglySorted not_later (messages conv)
        /\ forall m a, In m (messages conv) -> In a (attachments m) ->
                       In (filename a) (media_names tree)).
Proof.
  unfold load_zip, parse_chat_text. split.
  - rewrite <- first_decoding_none.
    destruct (first_decoding f ENCODINGS); split; congruence.
  - intros conv H.
    destruct (first_decoding f ENCODINGS) as [data|] eqn:Hd; [|discriminate].
    injection H as <-.
    set (c0 := new_conversation (detect_title_from_txtname (txt_path f))
                                (sort_messages (emitted now (splitlines data))) dir).
    assert (Hfresh : fresh (messages c0)).
    { apply (parsed_messages_fresh now f (detect_title_from_txtname (txt_path f))).
      unfold parse_chat_text. now rewrite Hd. }
    split; [reflexivity|]. split; [reflexivity|].
    split; [apply safe_slug_slug|]. split; [reflexivity|]. split.
    + apply (extends_sorted (messages c0)); [|apply sort_messages_sorted].
      apply (link_state_ok tree c0).
    + intros m a Hm Ha.
      pose proof (link_attachments_linked tree c0) as Hl.
      assert (Hcat : forall l l', Forall2 (linked (media_files tree)) l l' -> fresh l ->
                       In m l' -> catalogued (media_files tree) a).
      { clear - Ha. induction 1 as [|x y l l' Hxy _ IH]; intros Hf Hin; [destruct Hin|].
        inversion Hf as [|? ? Hx Hl]. subst. destruct Hin as [->|Hin]; [|now apply IH].
        destruct Hxy as (more & E & F). rewrite E, Hx in Ha.
        rewrite Forall_forall in F. now apply F. }
      specialize (Hcat _ _ Hl Hfresh Hm). destruct Hcat as (p & Hp & _).
      assert (Hk : In (filename a) (Dict.keys (media_files tree))).
      { apply get_in_keys. congruence. }
      rewrite media_files_keys in Hk.
      destruct (fold_set_add (media_names tree) [] (NoDup_nil _)) as [_ Hin].
      apply Hin in Hk. now destruct Hk.
Qed.

(** A transcript of two messages out of order, one naming a picture of the
    archive. *)
Lemma load_zip_result_witness :
  let now := fun k => mk_datetime 2025 1 1 0 0 (N.of_nat k) in
  let data := u "[05/03/2024 14:31:00] Bob: IMG-20240305-WA0001.jpg (file attached)
[05/03/2024 14:30:00] Alice: Hello" in
  let f := {| txt_path := [u "WhatsApp Chat with Bob & Co.txt"];
              read_text := fun enc => match enc with utf_8 => Some data | _ => None end |} in
  exists conv,
    @load_zip latin1 now f IMG_TREE [u "upload_1"] = Returns conv
    /\ title conv = u "Bob & Co" /\ chat_id conv = u "Bob_Co"
    /\ StronglySorted not_later (messages conv)
    /\ forall m a, In m (messages conv) -> In a (attachments m) ->
                   In (filename a) (media_names IMG_TREE).
Proof.
  intros now data f.
  assert (E : exists conv, @load_zip latin1 now f IMG_TREE [u "upload_1"] = Returns conv).
  { eexists. vm_compute. reflexivity. }
  destruct E as (conv & E). exists conv.
  destruct (proj2 (@load_zip_result latin1 now f IMG_TREE [u "upload_1"]) conv E)
    as (Ht & Hid & _ & _ & Hs & Ha).
  split; [exact E|].
  split; [rewrite Ht; vm_compute; reflexivity|].
  split; [rewrite Hid, Ht; vm_compute; reflexivity|].
  split; [exact Hs | exact Ha].
Defined.

(** ** The list of conversations in the sidebar *)

Lemma get_in_iff {V : Type} (k : str) (v : V) (d : Dict.t V) :
  NoDup (Dict.keys d) -> (Dict.get k d = Some v <-> In (k, v) d).
Proof. intros H. split; [apply get_in | now apply in_get]. Qed.

Section Sidebar_facts.
Context `{L : Libc}.

Lemma listed_in (convs : Dict.t Conversation) (cid : str) :
  In cid (map fst (listed convs)) <->
  exists c, In (cid, c) convs /\ messages c <> [].
Proof.
  unfold listed. rewrite in_map_iff. split.
  - intros ([k lbl] & <- & H). apply in_flat_map in H.
    destruct H as ([k' c] & Hin & H). destruct (messages c) as [|m l] eqn:E; [destruct H|].
    destruct H as [H|[]]. injection H as <- _. exists c. split; [exact Hin|]. congruence.
  - intros (c & Hin & Hne). destruct (messages c) as [|m l] eqn:E; [congruence|].
    exists (cid, item_label c m l). split; [reflexivity|].
    apply in_flat_map. exists (cid, c). split; [exact Hin|]. rewrite E. now left.
Qed.

Lemma listed_nodup (convs : Dict.t Conversation) :
  NoDup (Dict.keys convs) -> NoDup (map fst (listed convs)).
Proof.
  induction convs as [|[k c] convs IH]; intros H; [constructor|].
  cbn [Dict.keys map fst] in H. inversion H as [|? ? Hk Hd]. subst.
  unfold listed. cbn [flat_map]. fold (listed convs).
  destruct (messages c) as [|m l]; cbn [app map fst]; [now apply IH|].
  constructor; [|now apply IH].
  intros Hin. apply listed_in in Hin. destruct Hin as (c' & Hin & _).
  apply Hk. change (In k (map fst convs)). apply in_map_iff. now exists (k, c').
Qed.

End Sidebar_facts.

(** The sidebar lists the conversations that have a message, each once,
    the one whose last message is the latest first; every id it lists is an
    id of [convs], so that looking up the chosen conversation cannot fail,
    and the list is empty exactly when no conversation has a message. *)
Theorem sidebar_newest_first `{L : Libc} (loaded : list (option Conversation)) :
  let convs := collect loaded in
  (forall cid, In cid (map fst (items convs)) <->
               exists c, Dict.get cid convs = Some c /\ messages c <> [])
  /\ NoDup (map fst (items convs))
  /\ StronglySorted (fun a b => dt_leb (last_timestamp convs b) (last_timestamp convs a) = true)
                    (items convs)
  /\ (items convs = [] <-> forall k c, Dict.get k convs = Some c -> messages c = []).
Proof.
  intros convs.
  assert (Hnd : NoDup (Dict.keys convs)) by apply collect_nodup.
  assert (Hperm : Permutation (listed convs) (items convs)) by apply sort_by_perm.
  assert (Hin : forall cid, In cid (map fst (items convs)) <->
                            exists c, Dict.get cid convs = Some c /\ messages c <> []).
  { intros cid.
    rewrite <- (Permutation_in' (eq_refl cid) (Permutation_map fst Hperm)), listed_in.
    split; intros (c & H1 & H2); exists c; split; trivial; now apply get_in_iff. }
  split; [exact Hin|]. split; [|split].
  - apply (Permutation_NoDup (Permutation_map fst Hperm)). now apply listed_nodup.
  - unfold items.
    apply (sort_by_sorted
             (fun a b => dt_leb (last_timestamp convs b) (last_timestamp convs a))).
    + intros a b. apply dt_leb_total.
    + intros a b c H1 H2. now apply (dt_leb_trans _ (last_timestamp convs b)).
  - split.
    + intros E k c Hg. destruct (messages c) as [|m l] eqn:Em; [reflexivity|].
      assert (Hk : In k (map fst (items convs))).
      { apply Hin. exists c. split; [exact Hg|]. congruence. }
      rewrite E in Hk. destruct Hk.
    + intros Hall. destruct (items convs) as [|[k lbl] l] eqn:E; [reflexivity|].
      assert (Hk : In k (map fst ((k, lbl) :: l))) by now left.
      apply Hin in Hk. destruct Hk as (c & Hg & Hne). now rewrite (Hall k c Hg) in Hne.
Qed.

(** ** The controls *)

Lemma authors_spec (msgs : list Message) :
  NoDup (authors msgs) /\ forall a, In a (authors msgs) <-> In a (map author msgs).
Proof.
  unfold authors.
  destruct (fold_set_add (map author msgs) [] (NoDup_nil _)) as [H1 H2].
  split; [exact H1|]. intros a. rewrite H2. cbn [In]. tauto.
Qed.

(** The authors are shown by default exactly when the conversation has
    messages of three authors or more, that is in a group. *)
Theorem show_author_in_groups (conv : Conversation) :
  show_author_default conv = true <->
  exists a b c,
    In a (map author (messages conv)) /\ In b (map author (messages conv))
    /\ In c (map author (messages conv))
    /\ a <> b /\ a <> c /\ b <> c.
Proof.
  unfold show_author_default.
  destruct (authors_spec (messages conv)) as [Hnd Hin].
  rewrite Nat.ltb_lt. split.
  - intros H. destruct (authors (messages conv)) as [|a [|b [|c l]]] eqn:E;
      cbn [length] in H; try lia.
    exists a, b, c. rewrite <- !Hin. cbn [In].
    inversion Hnd as [|? ? Ha Hnd']. inversion Hnd' as [|? ? Hb _]. subst.
    cbn [In] in Ha, Hb.
    repeat split; auto; intros ->; tauto.
  - intros (a & b & c & Ha & Hb & Hc & Hab & Hac & Hbc).
    apply Hin in Ha, Hb, Hc.
    assert (Hl : (length [a; b; c] <= length (authors (messages conv)))%nat).
    { apply NoDup_incl_length.
      - constructor; [cbn [In]; intros [H|[H|[]]]; congruence|].
        constructor; [cbn [In]; intros [H|[]]; congruence|].
        constructor; [intros [] | constructor].
      - intros x [<-|[<-|[<-|[]]]]; assumption. }
    cbn [length] in Hl. lia.
Qed.

(** ** Splitting and joining *)







(** ** The rendered conversation *)


Section Render_facts.
Context `{U : Unicode} `{L : Libc}.
Variable read_bytes : path -> option (list Byte.byte).



End Render_facts.



(** ** Images as data URLs *)

Lemma b64_char_alphabet (n : N) : b64_alphabet (Base64.char n) = true.
Proof.
  unfold Base64.char, b64_alphabet.
  destruct (n <? 26) eqn:H1.
  - apply N.ltb_lt in H1. rewrite (proj2 (in_range_in 65 90 (65 + n))) by lia. reflexivity.
  - apply N.ltb_ge in H1. destruct (n <? 52) eqn:H2.
    + apply N.ltb_lt in H2.
      rewrite (proj2 (in_range_in 97 122 (97 + (n - 26)))) by lia. now rewrite orb_true_r.
    + apply N.ltb_ge in H2. destruct (n <? 62) eqn:H3.
      * apply N.ltb_lt in H3.
        rewrite (proj2 (in_range_in 48 57 (48 + (n - 52)))) by lia.
        now rewrite !orb_true_r.
      * destruct (n =? 62); reflexivity.
Qed.

Lemma b64_alphabet_ascii (c : cp) : b64_alphabet c = true -> (c <? 128) = true.
Proof.
  unfold b64_alphabet. rewrite !orb_true_iff, !in_range_in, !N.eqb_eq, N.ltb_lt. lia.
Qed.

Lemma encode_spec (n : nat) :
  forall bs, (length bs <= n)%nat ->
             Forall (fun c => b64_alphabet c = true) (Base64.encode bs)
             /\ length (Base64.encode bs) = (4 * ((length bs + 2) / 3))%nat.
Proof.
  induction n as [n IH] using (well_founded_induction lt_wf). intros bs Hn.
  destruct bs as [|a [|b [|c t]]].
  - split; [constructor | reflexivity].
  - split; [|reflexivity]. cbn [Base64.encode].
    repeat constructor; apply b64_char_alphabet.
  - split; [|reflexivity]. cbn [Base64.encode].
    repeat constructor; apply b64_char_alphabet.
  - cbn [Base64.encode length] in *.
    destruct (IH (length t)) with (bs := t) as [H1 H2]; [lia | lia |].
    split.
    + repeat (constructor; [apply b64_char_alphabet|]). exact H1.
    + rewrite H2.
      replace (S (S (S (length t))) + 2)%nat with (length t + 2 + 1 * 3)%nat by lia.
      rewrite Nat.div_add by lia. lia.
Qed.

Lemma decode_encoded (data : list Byte.byte) :
  Base64.decode_ascii (Base64.b64encode data) = Some (Base64.b64encode data).
Proof.
  unfold Base64.decode_ascii, Base64.b64encode.
  destruct (encode_spec (length (map Byte.to_N data)) (map Byte.to_N data) (le_n _)) as [H _].
  assert (E : forallb (fun b => b <? 128) (Base64.encode (map Byte.to_N data)) = true).
  { apply forallb_forall. rewrite Forall_forall in H. intros x Hx.
    apply b64_alphabet_ascii. now apply H. }
  now rewrite E.
Qed.

(** [b64_image] gives nothing exactly when the file cannot be read;
    otherwise it gives a data URL with the type of the extension, whose
    payload has four characters of the base64 alphabet for every three
    bytes of the file, the last group padded: the payload is always ASCII,
    so that decoding it never fails. *)
Theorem b64_image_result `{U : Unicode}
        (read_bytes : path -> option (list Byte.byte)) (p : path) :
  (b64_image read_bytes p = None <-> read_bytes p = None)
  /\ (forall data,
        read_bytes p = Some data ->
        exists payload,
          b64_image read_bytes p
          = Some (u "data:" ++ mime_of p ++ u ";base64," ++ payload)
          /\ Forall (fun c => b64_alphabet c = true) payload
          /\ length payload = (4 * ((length data + 2) / 3))%nat).
Proof.
  unfold b64_image. split.
  - destruct (read_bytes p) as [data|]; [|tauto].
    rewrite decode_encoded. split; discriminate.
  - intros data ->. rewrite decode_encoded. exists (Base64.b64encode data).
    split; [reflexivity|].
    destruct (encode_spec (length (map Byte.to_N data)) (map Byte.to_N data) (le_n _))
      as [H1 H2].
    split; [exact H1|]. rewrite length_map in H2. exact H2.
Qed.

(** A file of four bytes. *)
Lemma b64_image_result_witness :
  let read := fun _ : path => Some [Byte.x4d; Byte.x61; Byte.x6e; Byte.x21] in
  exists payload,
    @b64_image latin1 read [u "upload"; u "pic.PNG"]
    = Some (u "data:" ++ u "image/png" ++ u ";base64," ++ payload)
    /\ Forall (fun c => b64_alphabet c = true) payload
    /\ length payload = 8%nat.
Proof.
  intros read.
  apply (proj2 (@b64_image_result latin1 read [u "upload"; u "pic.PNG"])
               [Byte.x4d; Byte.x61; Byte.x6e; Byte.x21]).
  reflexivity.
Defined.

Lemma image_keys (e : str) :
  Dict.mem e IMAGE_MIME
  = str_in e [u ".jpg"; u ".jpeg"; u ".png"; u ".gif"; u ".webp"; u ".heic"].
Proof.
  unfold Dict.mem, IMAGE_MIME, str_in. cbn [Dict.get existsb].
  rewrite !(str_eqb_sym e).
  now destruct (str_eqb (u ".jpg") e), (str_eqb (u ".jpeg") e), (str_eqb (u ".png") e),
               (str_eqb (u ".gif") e), (str_eqb (u ".webp") e), (str_eqb (u ".heic") e).
Qed.

(** The two tables agree: a path whose kind is "image" (the only ones
    [render_chat_html] asks a data URL for) has an image type, and every
    other path the type "application/octet-stream". *)
Theorem image_kind_has_image_mime `{U : Unicode} (p : path) :
  (classify_ext p = u "image" <-> mime_of p <> u "application/octet-stream")
  /\ (classify_ext p = u "image" -> starts_with (u "image/") (mime_of p) = true).
Proof.
  unfold classify_ext, mime_of. generalize (lower (suffix p)) as e. intros e.
  pose proof (image_keys e) as Hk. unfold Dict.mem in Hk.
  assert (Hkind : kind_of_ext e MEDIA_EXTS = u "image"
                  <-> str_in e [u ".jpg"; u ".jpeg"; u ".png"; u ".gif"; u ".webp"; u ".heic"]
                      = true).
  { unfold MEDIA_EXTS. cbn [kind_of_ext].
    destruct (str_in e [u ".jpg"; u ".jpeg"; u ".png"; u ".gif"; u ".webp"; u ".heic"]);
      [tauto|].
    destruct kinds_differ as (D1 & D2 & D3 & _).
    split; [|discriminate]. intros H. exfalso.
    destruct (str_in e _); [congruence|].
    destruct (str_in e _); [congruence|].
    destruct (str_in e _); congruence. }
  rewrite Hkind, <- Hk.
  assert (Hval : forall m, Dict.get e IMAGE_MIME = Some m ->
                           starts_with (u "image/") m = true).
  { intros m Hm. apply get_in in Hm. unfold IMAGE_MIME in Hm. cbn [In] in Hm.
    repeat (destruct Hm as [Hm|Hm]; [injection Hm as _ <-; reflexivity|]). destruct Hm. }
  destruct (Dict.get e IMAGE_MIME) as [m|] eqn:Em.
  - specialize (Hval m eq_refl). split; [|intros _; exact Hval].
    split; [|reflexivity]. intros _ Hm. rewrite Hm in Hval. vm_compute in Hval.
    discriminate Hval.
  - split; [|discriminate]. split; [discriminate|]. intros H. now elim H.
Qed.

(** ** The linker: messages it leaves alone *)

Section Untouched_facts.
Context `{U : Unicode}.
Variable mf : Dict.t path.

Lemma claims_unknown (names : list str) (m : Message) (a : Dict.t bool) :
  (forall k, In k names -> Dict.get k mf = None) ->
  fold_left (claim_named mf) names (m, a) = (m, a).
Proof.
  induction names as [|k names IH]; intros H; [reflexivity|].
  cbn [fold_left]. unfold claim_named at 2. rewrite (H k (or_introl eq_refl)).
  apply IH. intros k' Hk'. apply H. now right.
Qed.

Lemma fallback_skips (m : Message) (a : Dict.t bool) :
  is_placeholder (text m) = false \/ attachments m <> [] -> fallback mf m a = (m, a).
Proof.
  intros H. unfold fallback. destruct (attachments m) as [|x l]; [|reflexivity].
  destruct H as [H|H]; [now rewrite H | congruence].
Qed.

End Untouched_facts.

Lemma media_names_keys `{U : Unicode} (tree : list entry) (k : str) :
  In k (media_names tree) <-> Dict.get k (media_files tree) <> None.
Proof.
  rewrite get_in_keys, media_files_keys.
  destruct (fold_set_add (media_names tree) [] (NoDup_nil _)) as [_ H].
  rewrite H. cbn [In]. tauto.
Qed.

(** A message that is no placeholder, or has attachments already, and
    whose text names no media file of the archive comes out of
    [link_attachments] as it went in, whatever the other messages are. *)
Theorem ordinary_messages_untouched `{U : Unicode} (tree : list entry) (conv : Conversation) :
  Forall2 (fun m m' =>
             (forall k, In k (files_in_text (text m)) -> ~ In k (media_names tree)) ->
             is_placeholder (text m) = false \/ attachments m <> [] ->
             m' = m)
          (messages conv) (messages (link_attachments tree conv)).
Proof.
  unfold link_attachments. cbn [messages set_messages].
  rewrite link_state_eq, pass1_thread, pass2_thread.
  set (R := fun m m' : Message =>
              (forall k, In k (files_in_text (text m)) -> ~ In k (media_names tree)) ->
              is_placeholder (text m) = false \/ attachments m <> [] -> m' = m).
  eapply (Forall2_compose R).
  - intros x y z Hxy Hyz Hn Hp.
    rewrite (Hxy Hn Hp) in Hyz. rewrite (Hyz Hn Hp). reflexivity.
  - eapply Forall2_impl; [|apply thread_pointwise].
    intros m m' (a & ->) Hn _. unfold claim_all. rewrite (claims_unknown (media_files tree)); [reflexivity|].
    intros k Hk. specialize (Hn k Hk). rewrite media_names_keys in Hn.
    destruct (Dict.get k (media_files tree)) eqn:E; [|reflexivity].
    exfalso. apply Hn. discriminate.
  - eapply Forall2_impl; [|apply thread_pointwise].
    intros m m' (a & ->) _ Hp. now rewrite fallback_skips.
Qed.

(** ** From the catalogue to the page *)

Lemma split_from_piece (c rest cur : str) :
  ~ In SLASH c ->
  split_from [SLASH] cur 0 (c ++ rest) = split_from [SLASH] (rev c ++ cur) 0 rest.
Proof.
  revert cur. induction c as [|x c IH]; intros cur Hc; [reflexivity|].
  cbn [app split_from starts_with].
  assert (Hx : (SLASH =? x) = false).
  { apply N.eqb_neq. intros E. apply Hc. now left. }
  rewrite Hx. cbn [andb]. rewrite IH by (intros H; apply Hc; now right).
  cbn [rev]. now rewrite <- app_assoc.
Qed.

Lemma split_path_str (p : path) :
  p <> [] -> Forall component p -> split [SLASH] (path_str p) = p.
Proof.
  unfold split. induction p as [|c p IH]; intros Hne Hp; [congruence|].
  inversion Hp as [|? ? (_ & _ & Hc) Hp']. subst.
  destruct p as [|d p].
  - cbn [path_str]. rewrite <- (app_nil_r c) at 1.
    rewrite split_from_piece by exact Hc. cbn [split_from].
    now rewrite app_nil_r, rev_involutive.
  - change (path_str (c :: d :: p)) with (c ++ SLASH :: path_str (d :: p)).
    rewrite split_from_piece by exact Hc. cbn [split_from starts_with length pred].
    rewrite N.eqb_refl. cbn [andb]. rewrite app_nil_r, rev_involutive.
    f_equal. apply IH; [discriminate | exact Hp'].
Qed.

Lemma parts_of_path_str (p : path) : Forall component p -> parts_of (path_str p) = p.
Proof.
  intros Hp. unfold parts_of. destruct p as [|c p]; [reflexivity|].
  rewrite split_path_str by (trivial; discriminate).
  apply forallb_filter_id. apply forallb_forall. intros x Hx.
  rewrite Forall_forall in Hp. destruct (Hp x Hx) as (H1 & H2 & _).
  apply andb_true_iff. split; apply negb_true_iff.
  - destruct (str_eqb x []) eqn:E; [|reflexivity]. apply str_eqb_eq in E. congruence.
  - destruct (str_eqb x [DOT]) eqn:E; [|reflexivity]. apply str_eqb_eq in E. congruence.
Qed.

Lemma joinpath_relative (base : path) (x : cp) (t : str) :
  x <> SLASH -> joinpath base (x :: t) = base ++ parts_of (x :: t).
Proof.
  intros Hx. unfold joinpath.
  destruct x as [|q]; [reflexivity|].
  do 6 (try (destruct q as [q|q|]; try reflexivity)).
  now elim Hx.
Qed.

Lemma joinpath_path_str (base p : path) :
  Forall component p -> joinpath base (path_str p) = base ++ p.
Proof.
  intros Hp.
  transitivity (base ++ parts_of (path_str p)); [|now rewrite parts_of_path_str].
  destruct p as [|c p]; [reflexivity|].
  inversion Hp as [|? ? (H1 & _ & H3) _]. subst.
  destruct c as [|x c]; [congruence|].
  assert (E : exists t, path_str (@cons str (x :: c) p) = x :: t).
  { destruct p; cbn [path_str app]; eauto. }
  destruct E as (t & ->). apply joinpath_relative.
  intros ->. apply H3. now left.
Qed.

(** In a conversation as [load_zip] returns it, the path that
    [link_attachments] has written into an attachment leads
    [render_chat_html] back to the file of the catalogue in the folder of
    the upload: an image that can be read is embedded in the page with its
    own bytes.  Once the conversation has been merged into one that was
    loaded before, the page looks for the file in the folder of that first
    conversation, which is the right place only when the two folders are
    the same. *)
Theorem attachment_found_again `{U : Unicode}
        (read_bytes : path -> option (list Byte.byte))
        (now : nat -> datetime) (f : txt_file) (tree : list entry) (dir : path)
        (conv : Conversation) :
  (forall e, In e tree -> is_media e = true -> Forall component (e_path e)) ->
  load_zip now f tree dir = Returns conv ->
  forall m a,
    In m (messages conv) -> In a (attachments m) ->
    exists p,
      Dict.get (filename a) (media_files tree) = Some p
      /\ joinpath (base_dir conv) (relpath a) = dir ++ p
      /\ (kind a = u "image" ->
          forall data,
            read_bytes (dir ++ p) = Some data ->
            attachment_html read_bytes (base_dir conv) a
            = u "<img class=" ++ quoted (u "media") ++ u " src="
              ++ quoted (u "data:" ++ mime_of (dir ++ p) ++ u ";base64,"
                         ++ Base64.b64encode data)
              ++ u " alt=" ++ quoted (filename a) ++ u ">")
      /\ (kind a = u "image" ->
          read_bytes (dir ++ p) = None ->
          attachment_html read_bytes (base_dir conv) a
          = div_of (u "doc") ++ u "🖼" ++ u " " ++ filename a ++ u "</div>")
      /\ (forall old,
             joinpath (base_dir (merge_into old conv)) (relpath a) = base_dir old ++ p
             /\ (joinpath (base_dir (merge_into old conv)) (relpath a) = dir ++ p
                 <-> base_dir old = dir)).
Proof.
  intros Hcomp Hload m a Hm Ha.
  unfold load_zip in Hload.
  destruct (parse_chat_text now f) as [[title_ msgs]|e] eqn:Hparse; [|discriminate].
  injection Hload as <-.
  set (c0 := new_conversation title_ msgs dir) in *.
  assert (Hfresh : fresh (messages c0))
    by exact (parsed_messages_fresh now f title_ msgs Hparse).
  pose proof (link_attachments_linked tree c0) as Hl.
  assert (Hcat : forall l l', Forall2 (linked (media_files tree)) l l' -> fresh l ->
                   In m l' -> catalogued (media_files tree) a).
  { clear - Ha. induction 1 as [|x y l l' Hxy _ IH]; intros Hf Hin; [destruct Hin|].
    inversion Hf as [|? ? Hx Hl]. subst. destruct Hin as [->|Hin]; [|now apply IH].
    destruct Hxy as (more & E & F). rewrite E, Hx in Ha.
    rewrite Forall_forall in F. now apply F. }
  specialize (Hcat _ _ Hl Hfresh Hm). destruct Hcat as (p & Hp & Ea).
  assert (Hrel : relpath a = path_str p) by (rewrite Ea; reflexivity).
  assert (Hkind : kind a = classify_ext p) by (rewrite Ea; reflexivity).
  assert (Hp' : Forall component p).
  { apply media_files_get in Hp. destruct Hp as (l1 & e & l2 & -> & He & _ & <- & _).
    apply Hcomp; [|exact He]. apply in_or_app. right. now left. }
  assert (Hj : forall base, joinpath base (relpath a) = base ++ p)
    by (intros base; rewrite Hrel; now apply joinpath_path_str).
  exists p. split; [exact Hp|].
  change (base_dir (link_attachments tree c0)) with dir.
  split; [apply Hj|].
  unfold attachment_html. rewrite Hj.
  split; [|split].
  - intros Hk data Hd. rewrite Hk, str_eqb_refl. unfold b64_image.
    now rewrite Hd, decode_encoded.
  - intros Hk Hd. rewrite Hk, str_eqb_refl. unfold b64_image. now rewrite Hd.
  - intros old. change (base_dir (merge_into old (link_attachments tree c0)))
      with (base_dir old).
    split; [apply Hj|]. rewrite Hj. split; [apply app_inv_tail | now intros ->].
Qed.

(** An upload whose transcript names the picture of the archive. *)
Lemma attachment_found_again_witness :
  let now := fun k => mk_datetime 2025 1 1 0 0 (N.of_nat k) in
  let data := u "[05/03/2024 14:31:00] Bob: IMG-20240305-WA0001.jpg (file attached)" in
  let f := {| txt_path := [u "WhatsApp Chat with Bob.txt"];
              read_text := fun _ => Some data |} in
  exists conv m a,
    @load_zip latin1 now f IMG_TREE [u "upload_1"] = Returns conv
    /\ (forall e, In e IMG_TREE -> @is_media latin1 e = true -> Forall component (e_path e))
    /\ In m (messages conv) /\ In a (attachments m)
    /\ joinpath (base_dir conv) (relpath a) = [u "upload_1"] ++ IMG_PATH.
Proof.
  intros now data f.
  assert (E : exists conv, @load_zip latin1 now f IMG_TREE [u "upload_1"] = Returns conv).
  { eexists. vm_compute. reflexivity. }
  destruct E as (conv & E).
  assert (Hc : forall e, In e IMG_TREE -> @is_media latin1 e = true ->
                         Forall component (e_path e)).
  { intros e [<-|[]] _.
    repeat constructor; try discriminate; vm_compute; intuition discriminate. }
  assert (Hin : exists m a, In m (messages conv) /\ In a (attachments m)
                            /\ filename a = IMG_NAME).
  { vm_compute in E. injection E as <-.
    eexists. eexists. split; [left; reflexivity|]. split; [left; reflexivity|].
    vm_compute. reflexivity. }
  destruct Hin as (m & a & Hm & Ha & Hn).
  exists conv, m, a.
  split; [exact E|]. split; [exact Hc|]. split; [exact Hm|]. split; [exact Ha|].
  destruct (@attachment_found_again latin1 (fun _ => None) now f IMG_TREE [u "upload_1"]
              conv Hc E m a Hm Ha) as (p & Hp & Hj & _).
  rewrite Hn in Hp. vm_compute in Hp. injection Hp as <-. exact Hj.
Defined.

(** ** File names in the text of a message *)

Lemma hd_error_app_some {A : Type} (l l' : list A) (x : A) :
  hd_error l = Some x -> hd_error (l ++ l') = Some x.
Proof. destruct l; [discriminate | exact (fun H => H)]. Qed.

Lemma hd_error_map_some {A B : Type} (f : A -> B) (l : list A) (x : A) :
  hd_error l = Some x -> hd_error (map f l) = Some (f x).
Proof. destruct l; [discriminate|]. cbn [hd_error map]. now intros [= ->]. Qed.

(** When all the ways to read the head of an expression end in the same
    state, the first match is the first way to read the rest from there. *)
Lemma hd_flat_map_const {A B : Type} (f : A -> list B) (l : list A) (x : A) :
  l <> [] -> (forall y, In y l -> y = x) -> hd_error (flat_map f l) = hd_error (f x).
Proof.
  induction l as [|y l IH]; intros Hne Hall; [congruence|].
  cbn [flat_map]. rewrite (Hall y (or_introl eq_refl)).
  destruct (f x) as [|b bs] eqn:E; [|reflexivity].
  cbn [app]. destruct l as [|z l]; [reflexivity|].
  apply IH; [discriminate | intros y' Hy'; apply Hall; now right].
Qed.

Lemma first_dot_unique (u1 u2 r1 r2 : str) :
  ~ In DOT u1 -> ~ In DOT u2 -> u1 ++ DOT :: r1 = u2 ++ DOT :: r2 -> u1 = u2 /\ r1 = r2.
Proof.
  revert u2. induction u1 as [|a u1 IH]; intros [|b u2] H1 H2 E; cbn [app] in E.
  - injection E as E. now split.
  - injection E as E _. exfalso. apply H2. now left.
  - injection E as E _. exfalso. apply H1. now left.
  - injection E as -> E. destruct (IH u2) as [-> ->]; trivial.
    + intros H. apply H1. now right.
    + intros H. apply H2. now right.
    + now split.
Qed.

Lemma firstn_length_app {A : Type} (l1 l2 : list A) : firstn (length l1) (l1 ++ l2) = l1.
Proof. induction l1 as [|a l1 IH]; [reflexivity|]. cbn [length app firstn]. now rewrite IH. Qed.

Lemma mstate_eq (a b : mstate) :
  m_pos a = m_pos b -> m_rest a = m_rest b -> m_groups a = m_groups b -> a = b.
Proof. destruct a, b. cbn. now intros -> -> ->. Qed.

Section Name_facts.
Context `{U : Unicode}.

(** A repetition of one-character steps can stop after any run of
    characters of the class whose length is within the bounds. *)
Lemma rep_one_complete (p : cp -> bool) (g : bool) (w : str) :
  forall (fuel lo : nat) (hi : option nat) (st m : mstate),
    consumes st w m -> m_groups m = m_groups st ->
    Forall (fun c => p c = true) w ->
    (lo <= length w)%nat -> (forall h, hi = Some h -> (length w <= h)%nat) ->
    (length (m_rest st) < fuel)%nat ->
    In m (rep (one p) lo hi g fuel st).
Proof.
  induction w as [|c w IH]; intros fuel lo hi st m [Hr Hp] Hg Hw Hlo Hhi Hfuel;
    (destruct fuel as [|fuel]; [lia|]); apply in_rep_step.
  - left. split; [cbn [length] in Hlo; lia|].
    apply mstate_eq; [cbn [length] in Hp; lia | now rewrite Hr | exact Hg].
  - right. split.
    + intros ->. specialize (Hhi 0%nat eq_refl). cbn [length] in Hhi. lia.
    + inversion Hw as [|? ? Hc Hw']. subst.
      exists {| m_pos := S (m_pos st); m_rest := w ++ m_rest m; m_groups := m_groups st |}.
      split; [|split].
      * apply in_one. exists c, (w ++ m_rest m). now repeat split.
      * cbn [m_pos]. lia.
      * apply IH; cbn [m_pos m_rest m_groups]; trivial.
        -- split; [reflexivity|]. cbn [m_pos]. cbn [length] in Hp. lia.
        -- cbn [length] in Hlo. lia.
        -- intros h Hh. destruct hi as [h0|]; [|discriminate].
           cbn [option_map] in Hh. injection Hh as <-.
           specialize (Hhi h0 eq_refl). cbn [length] in Hhi. lia.
        -- rewrite Hr in Hfuel. cbn [app length] in Hfuel. lia.
Qed.

(** The first result of a greedy repetition within its bounds: the whole
    run, when the text does not go on with the class. *)
Lemma rep_one_first (p : cp -> bool) (w : str) :
  forall (fuel lo : nat) (hi : option nat) (pos : nat) (rest : str) (gs : list (nat * str)),
    Forall (fun c => p c = true) w ->
    (lo <= length w)%nat -> (forall h, hi = Some h -> (length w <= h)%nat) ->
    match rest with [] => True | c :: _ => p c = false end ->
    (length (w ++ rest) < fuel)%nat ->
    hd_error (rep (one p) lo hi true fuel
                  {| m_pos := pos; m_rest := w ++ rest; m_groups := gs |})
    = Some {| m_pos := (pos + length w)%nat; m_rest := rest; m_groups := gs |}.
Proof.
  induction w as [|c w IH]; intros fuel lo hi pos rest gs Hw Hlo Hhi Hnext Hfuel;
    (destruct fuel as [|fuel]; [lia|]).
  - cbn [length] in Hlo. replace lo with 0%nat by lia.
    cbn [rep app length].
    assert (Hone : one p {| m_pos := pos; m_rest := rest; m_groups := gs |} = []).
    { unfold one. cbn [m_rest]. destruct rest as [|x t]; [reflexivity|]. now rewrite Hnext. }
    rewrite Hone. cbn [flat_map].
    rewrite Nat.add_0_r. now destruct hi as [[|h]|].
  - inversion Hw as [|? ? Hc Hw']. subst.
    assert (Hone : one p {| m_pos := pos; m_rest := (c :: w) ++ rest; m_groups := gs |}
                   = [{| m_pos := S pos; m_rest := w ++ rest; m_groups := gs |}]).
    { unfold one. cbn [m_rest app m_pos m_groups]. now rewrite Hc. }
    assert (Hrec : hd_error (rep (one p) (pred lo) (option_map pred hi) true fuel
                                 {| m_pos := S pos; m_rest := w ++ rest; m_groups := gs |})
                   = Some {| m_pos := (pos + length (c :: w))%nat; m_rest := rest;
                             m_groups := gs |}).
    { rewrite IH; trivial.
      - cbn [length]. now rewrite Nat.add_succ_r.
      - cbn [length] in Hlo. lia.
      - intros h Hh. destruct hi as [h0|]; [|discriminate].
        cbn [option_map] in Hh. injection Hh as <-.
        specialize (Hhi h0 eq_refl). cbn [length] in Hhi. lia.
      - cbn [app length] in Hfuel. lia. }
    cbn [rep]. rewrite Hone. cbn [flat_map m_pos].
    rewrite (proj2 (Nat.ltb_lt pos (S pos)) (Nat.lt_succ_diag_r _)), app_nil_r.
    destruct hi as [[|h]|].
    + specialize (Hhi 0%nat eq_refl). cbn [length] in Hhi. lia.
    + now apply hd_error_app_some.
    + now apply hd_error_app_some.
Qed.

Lemma in_run_lit (c : cp) (st m : mstate) :
  In m (run (Lit c) st) <-> consumes st [c] m /\ m_groups m = m_groups st.
Proof.
  cbn [run]. rewrite in_one. split.
  - intros (x & t & Hr & Hx & ->). apply N.eqb_eq in Hx. subst x.
    repeat split; cbn [m_rest m_pos m_groups length app]; trivial. lia.
  - intros [[Hr Hp] Hg]. exists c, (m_rest m). split; [exact Hr|].
    split; [apply N.eqb_refl|]. apply mstate_eq; cbn [m_pos m_rest m_groups]; trivial.
    cbn [length] in Hp. lia.
Qed.

Lemma in_run_class_rep (neg : bool) (items : list citem) (lo : nat) (hi : option nat)
      (g : bool) (st m : mstate) :
  In m (run (Rep lo hi g (Set_ neg items)) st) <->
  exists w, consumes st w m /\ m_groups m = m_groups st
            /\ Forall (fun c => set_match neg items c = true) w
            /\ (lo <= length w)%nat /\ (forall h, hi = Some h -> (length w <= h)%nat).
Proof.
  cbn [run]. change (run (Set_ neg items)) with (one (set_match neg items)). split.
  - intros H. apply rep_one_consumes in H. destruct H as (w & H1 & H2 & H3 & H4 & H5).
    exists w. auto.
  - intros (w & H1 & H2 & H3 & H4 & H5). apply (rep_one_complete _ _ w); trivial. lia.
Qed.

Lemma slug_class (c : cp) :
  set_match false (alnum_ascii ++ [IChar (ch "_"); IChar (ch "-")]) c = slug_char c.
Proof.
  unfold set_match, slug_char, alnum_ascii. cbn [app existsb citem_match xorb].
  change (ch "A") with 65. change (ch "Z") with 90. change (ch "a") with 97.
  change (ch "z") with 122. change (ch "0") with 48. change (ch "9") with 57.
  change (ch "_") with 95. change (ch "-") with 45.
  now destruct (in_range 97 122 c), (in_range 65 90 c), (in_range 48 57 c),
               (c =? 95), (c =? 45).
Qed.

Lemma alnum_class (c : cp) : set_match false alnum_ascii c = is_alnum_ascii c.
Proof.
  unfold set_match, is_alnum_ascii, is_letter, alnum_ascii. cbn [existsb citem_match xorb].
  change (ch "A") with 65. change (ch "Z") with 90. change (ch "a") with 97.
  change (ch "z") with 122. change (ch "0") with 48. change (ch "9") with 57.
  now destruct (in_range 97 122 c), (in_range 65 90 c), (in_range 48 57 c).
Qed.

Lemma digit_class (c : cp) : set_match false [IDigit] c = isdecimal c.
Proof. unfold set_match. cbn [existsb citem_match xorb]. apply orb_false_r. Qed.

Lemma Forall_class (p q : cp -> bool) (w : str) :
  (forall c, p c = q c) ->
  Forall (fun c => p c = true) w <-> Forall (fun c => q c = true) w.
Proof.
  intros H. rewrite !Forall_forall. split; intros F c Hc; [rewrite <- H | rewrite H]; auto.
Qed.

Lemma consumes_split (st m : mstate) (w1 w2 : str) :
  consumes st (w1 ++ w2) m ->
  exists x, consumes st w1 x /\ m_groups x = m_groups st /\ consumes x w2 m.
Proof.
  intros [Hr Hp].
  exists {| m_pos := (m_pos st + length w1)%nat; m_rest := w2 ++ m_rest m;
            m_groups := m_groups st |}.
  split; [|split]; [split | reflexivity | split]; cbn [m_pos m_rest m_groups]; trivial.
  - now rewrite Hr, app_assoc.
  - rewrite Hp, length_app. lia.
Qed.

Lemma in_name_head (st m : mstate) :
  In m (run (cat NAME_HEAD) st) <->
  exists w1 w2 w3,
    consumes st (w1 ++ 45 :: w2 ++ 45 :: 87 :: 65 :: w3 ++ [DOT]) m
    /\ m_groups m = m_groups st
    /\ w1 <> [] /\ Forall (fun c => slug_char c = true) w1
    /\ length w2 = 8%nat /\ Forall (fun c => isdecimal c = true) w2
    /\ w3 <> [] /\ Forall (fun c => isdecimal c = true) w3.
Proof.
  unfold NAME_HEAD. cbn [cat fold_right]. split.
  - intros H.
    apply in_run_cat in H. destruct H as (x1 & H1 & H).
    apply in_run_cat in H. destruct H as (x2 & H2 & H).
    apply in_run_cat in H. destruct H as (x3 & H3 & H).
    apply in_run_cat in H. destruct H as (x4 & H4 & H).
    apply in_run_cat in H. destruct H as (x5 & H5 & H).
    apply in_run_cat in H. destruct H as (x6 & H6 & H).
    apply in_run_cat in H. destruct H as (x7 & H7 & H).
    apply in_run_cat in H. destruct H as (x8 & H8 & H).
    destruct H as [<-|[]].
    apply in_run_class_rep in H1. destruct H1 as (w1 & C1 & G1 & F1 & L1 & _).
    apply in_run_lit in H2. destruct H2 as [C2 G2].
    apply in_run_class_rep in H3. destruct H3 as (w2 & C3 & G3 & F3 & L3 & B3).
    apply in_run_lit in H4. destruct H4 as [C4 G4].
    apply in_run_lit in H5. destruct H5 as [C5 G5].
    apply in_run_lit in H6. destruct H6 as [C6 G6].
    apply in_run_class_rep in H7. destruct H7 as (w3 & C7 & G7 & F7 & L7 & _).
    apply in_run_lit in H8. destruct H8 as [C8 G8].
    exists w1, w2, w3.
    split.
    { apply (consumes_trans _ x1); [exact C1|].
      apply (consumes_trans _ x2 _ [45]); [exact C2|].
      apply (consumes_trans _ x3); [exact C3|].
      apply (consumes_trans _ x4 _ [45]); [exact C4|].
      apply (consumes_trans _ x5 _ [87]); [exact C5|].
      apply (consumes_trans _ x6 _ [65]); [exact C6|].
      apply (consumes_trans _ x7); [exact C7 | exact C8]. }
    split; [congruence|].
    split; [intros ->; cbn [length] in L1; lia|].
    split; [now apply (Forall_class _ _ w1 slug_class)|].
    split; [apply Nat.le_antisymm; [exact (B3 8%nat eq_refl) | exact L3]|].
    split; [now apply (Forall_class _ _ w2 digit_class)|].
    split; [intros ->; cbn [length] in L7; lia|].
    now apply (Forall_class _ _ w3 digit_class).
  - intros (w1 & w2 & w3 & C & G & N1 & F1 & L2 & F2 & N3 & F3).
    apply consumes_split in C. destruct C as (x1 & C1 & G1 & C).
    apply (consumes_split x1 m [45]) in C. destruct C as (x2 & C2 & G2 & C).
    apply consumes_split in C. destruct C as (x3 & C3 & G3 & C).
    apply (consumes_split x3 m [45]) in C. destruct C as (x4 & C4 & G4 & C).
    apply (consumes_split x4 m [87]) in C. destruct C as (x5 & C5 & G5 & C).
    apply (consumes_split x5 m [65]) in C. destruct C as (x6 & C6 & G6 & C).
    apply consumes_split in C. destruct C as (x7 & C7 & G7 & C8).
    apply in_run_cat. exists x1. split.
    { apply in_run_class_rep. exists w1.
      split; [exact C1|]. split; [exact G1|].
      split; [now apply (Forall_class _ _ w1 slug_class)|].
      split; [|discriminate]. destruct w1; [congruence | cbn [length]; lia]. }
    apply in_run_cat. exists x2. split; [now apply in_run_lit|].
    apply in_run_cat. exists x3. split.
    { apply in_run_class_rep. exists w2.
      split; [exact C3|]. split; [exact G3|].
      split; [now apply (Forall_class _ _ w2 digit_class)|].
      split; [exact (Nat.eq_le_incl _ _ (eq_sym L2))|].
      intros h [= <-]. exact (Nat.eq_le_incl _ _ L2). }
    apply in_run_cat. exists x4. split; [now apply in_run_lit|].
    apply in_run_cat. exists x5. split; [now apply in_run_lit|].
    apply in_run_cat. exists x6. split; [now apply in_run_lit|].
    apply in_run_cat. exists x7. split.
    { apply in_run_class_rep. exists w3.
      split; [exact C7|]. split; [exact G7|].
      split; [now apply (Forall_class _ _ w3 digit_class)|].
      split; [|discriminate]. destruct w3; [congruence | cbn [length]; lia]. }
    apply in_run_cat. exists m. split; [|now left].
    apply in_run_lit. split; [exact C8 | congruence].
Qed.

End Name_facts.

Section Name_found.
Context `{U : Unicode}.
Variables pfx d8 ds ext tail : str.
Hypothesis pfx_ok : pfx <> [] /\ Forall (fun c => slug_char c = true) pfx.
Hypothesis d8_ok : length d8 = 8%nat /\ Forall (fun c => isdecimal c = true) d8.
Hypothesis ds_ok : ds <> [] /\ Forall (fun c => isdecimal c = true) ds.
Hypothesis ext_ok :
  ext <> [] /\ (length ext <= 5)%nat /\ Forall (fun c => is_alnum_ascii c = true) ext.
Hypothesis tail_ok : ends_name tail.

Lemma no_dot (w1 w2 w3 : str) :
  Forall (fun c => slug_char c = true) w1 ->
  Forall (fun c => isdecimal c = true) w2 ->
  Forall (fun c => isdecimal c = true) w3 ->
  ~ In DOT (w1 ++ 45 :: w2 ++ 45 :: 87 :: 65 :: w3).
Proof.
  rewrite !Forall_forall. intros F1 F2 F3 H.
  apply in_app_or in H. destruct H as [H|[H|H]].
  - apply F1 in H. discriminate H.
  - discriminate H.
  - apply in_app_or in H. destruct H as [H|[H|[H|[H|H]]]]; try discriminate H.
    + apply F2 in H. discriminate H.
    + apply F3 in H. discriminate H.
Qed.

Lemma dot_last (w1 w2 w3 r : str) :
  (w1 ++ 45 :: w2 ++ 45 :: 87 :: 65 :: w3 ++ [DOT]) ++ r
  = (w1 ++ 45 :: w2 ++ 45 :: 87 :: 65 :: w3) ++ DOT :: r.
Proof. repeat (rewrite <- app_assoc; cbn [app]). reflexivity. Qed.

Lemma name_head_reached (x : mstate) :
  In x (run (cat NAME_HEAD)
            (init ((pfx ++ 45 :: d8 ++ 45 :: 87 :: 65 :: ds ++ [DOT]) ++ ext ++ tail)))
  <-> x = {| m_pos := length (pfx ++ 45 :: d8 ++ 45 :: 87 :: 65 :: ds ++ [DOT]);
             m_rest := ext ++ tail; m_groups := [] |}.
Proof.
  destruct pfx_ok as [P1 P2], d8_ok as [D1 D2], ds_ok as [S1 S2].
  rewrite in_name_head. split.
  - intros (w1 & w2 & w3 & [Hr Hp] & G & N1 & F1 & L2 & F2 & N3 & F3).
    cbn [init m_rest m_pos m_groups] in Hr, Hp, G.
    rewrite !dot_last in Hr.
    apply first_dot_unique in Hr; [|now apply no_dot..].
    destruct Hr as [Eu Er].
    apply mstate_eq; cbn [m_pos m_rest m_groups]; [|now rewrite Er | exact G].
    rewrite Hp. cbn [Nat.add].
    rewrite <- (app_nil_r (w1 ++ 45 :: w2 ++ 45 :: 87 :: 65 :: w3 ++ [DOT])).
    rewrite <- (app_nil_r (pfx ++ 45 :: d8 ++ 45 :: 87 :: 65 :: ds ++ [DOT])).
    rewrite !dot_last.
    apply (f_equal (fun l : str => length (l ++ [DOT]))). symmetry. exact Eu.
  - intros ->. exists pfx, d8, ds.
    split; [split; reflexivity|]. repeat (split; trivial).
Qed.

Lemma filename_pat_first :
  exists m,
    hd_error (run filename_pat
                  (init ((pfx ++ 45 :: d8 ++ 45 :: 87 :: 65 :: ds ++ [DOT]) ++ ext ++ tail)))
    = Some m
    /\ group 1 m = (pfx ++ 45 :: d8 ++ 45 :: 87 :: 65 :: ds ++ [DOT]) ++ ext.
Proof.
  destruct ext_ok as (E1 & E2 & E3).
  set (W := pfx ++ 45 :: d8 ++ 45 :: 87 :: 65 :: ds ++ [DOT]).
  set (X8 := {| m_pos := length W; m_rest := ext ++ tail; m_groups := [] |}).
  set (X9 := {| m_pos := (length W + length ext)%nat; m_rest := tail; m_groups := [] |}).
  assert (H9 : hd_error (run (cat (NAME_HEAD ++ [times 1 5 (Set_ false alnum_ascii)]))
                             (init (W ++ ext ++ tail)))
               = Some X9).
  { rewrite run_cat_app.
    rewrite (hd_flat_map_const _ _ X8).
    - cbn [cat fold_right run].
      change (run (Set_ false alnum_ascii)) with (one (set_match false alnum_ascii)).
      assert (Hid : forall l : list mstate, flat_map (fun st => [st]) l = l).
      { induction l as [|a l IH]; [reflexivity|]. cbn [flat_map app]. now rewrite IH. }
      rewrite Hid. unfold X8. cbn [m_rest].
      apply rep_one_first.
      + now apply (Forall_class _ _ ext alnum_class).
      + destruct ext; [congruence | cbn [length]; lia].
      + intros h [= <-]. exact E2.
      + unfold ends_name in tail_ok. destruct tail as [|c t]; [exact I|].
        now rewrite alnum_class.
      + cbn [m_rest]. apply Nat.lt_succ_diag_r.
    - intros Hnil.
      assert (Hin : In X8 (run (cat NAME_HEAD) (init (W ++ ext ++ tail))))
        by now apply name_head_reached.
      rewrite Hnil in Hin. destruct Hin.
    - intros y Hy. now apply name_head_reached. }
  exists (set_group 1 (firstn (m_pos X9 - 0) (W ++ ext ++ tail)) X9). split.
  - rewrite (proj1 file_patterns_shape).
    change (run (Group 1 ?r) ?st)
      with (map (fun st' => set_group 1 (firstn (m_pos st' - m_pos st) (m_rest st)) st')
                (run r st)).
    apply (hd_error_map_some
             (fun st' => set_group 1 (firstn (m_pos st' - 0) (W ++ ext ++ tail)) st')).
    exact H9.
  - unfold group, set_group. cbn [m_groups lookup Nat.eqb m_pos X9].
    rewrite Nat.sub_0_r, app_assoc, <- length_app. apply firstn_length_app.
Qed.

End Name_found.

Lemma finditer_first `{U : Unicode} (r : regex) (s : str) (m : mstate) :
  hd_error (run r (init s)) = Some m -> In m (finditer r s).
Proof.
  intros H. unfold finditer. unfold init in H.
  destruct s; cbn [finditer_from]; rewrite H; now left.
Qed.

(** A message whose text begins with the name of a WhatsApp media file
    names that file: the name is among the file names that
    [link_attachments] reads in the text, whatever follows it, as long as
    no letter or digit follows at once. *)
Theorem whatsapp_name_found `{U : Unicode} (nm tail : str) :
  whatsapp_name nm -> ends_name tail -> In nm (files_in_text (nm ++ tail)).
Proof.
  intros (pfx & d8 & ds & ext & -> & P1 & P2 & D1 & D2 & S1 & S2 & E1 & E2 & E3) Ht.
  destruct (filename_pat_first pfx d8 ds ext tail) as (m & Hm & Hg); auto.
  assert (Hnm : pfx ++ u "-" ++ d8 ++ u "-WA" ++ ds ++ [DOT] ++ ext
                = (pfx ++ 45 :: d8 ++ 45 :: 87 :: 65 :: ds ++ [DOT]) ++ ext).
  { change (u "-") with [45]. change (u "-WA") with [45; 87; 65].
    repeat (rewrite <- app_assoc; cbn [app]). reflexivity. }
  rewrite Hnm. clear Hnm.
  set (W := pfx ++ 45 :: d8 ++ 45 :: 87 :: 65 :: ds ++ [DOT]) in *.
  rewrite <- (app_assoc W ext tail).
  unfold files_in_text.
  apply (fold_set_add _ [] (NoDup_nil _)). right.
  apply in_or_app. left. apply in_map_iff. exists m.
  split; [exact Hg | exact (finditer_first _ _ _ Hm)].
Qed.

(** The usual line of an export with its media. *)
Lemma whatsapp_name_found_witness :
  @whatsapp_name latin1 IMG_NAME /\ ends_name (u " (file attached)")
  /\ In IMG_NAME (@files_in_text latin1 (IMG_NAME ++ u " (file attached)")).
Proof.
  assert (Hn : @whatsapp_name latin1 IMG_NAME).
  { exists (u "IMG"), (u "20240305"), (u "0001"), (u "jpg").
    split; [reflexivity|]. split; [discriminate|]. split; [repeat constructor|].
    split; [reflexivity|]. split; [repeat constructor|].
    split; [discriminate|]. split; [repeat constructor|].
    split; [discriminate|]. split; [cbn; lia|]. repeat constructor. }
  assert (Ht : ends_name (u " (file attached)")) by reflexivity.
  split; [exact Hn|]. split; [exact Ht|].
  exact (@whatsapp_name_found latin1 IMG_NAME (u " (file attached)") Hn Ht).
Defined.

(** ** What a file name in a text looks like *)

Section Plain_names.
Context `{U : Unicode}.

Lemma rep_reads (P : str -> Prop) (f : mstate -> list mstate) (g : bool) (fuel : nat) :
  P [] -> (forall a b, P a -> P b -> P (a ++ b)) ->
  (forall st m, In m (f st) -> exists w, consumes st w m /\ P w) ->
  forall (lo : nat) (hi : option nat) (st m : mstate),
    In m (rep f lo hi g fuel st) -> exists w, consumes st w m /\ P w.
Proof.
  intros Pnil Papp Hf. induction fuel as [|fuel IH]; intros lo hi st m H; [destruct H|].
  apply in_rep_step in H. destruct H as [[-> ->]|(Hhi & x & Hx & _ & Hm)].
  - exists []. split; [apply consumes_refl | exact Pnil].
  - apply Hf in Hx. destruct Hx as (w1 & C1 & P1).
    apply IH in Hm. destruct Hm as (w2 & C2 & P2).
    exists (w1 ++ w2). split; [now apply (consumes_trans _ x) | now apply Papp].
Qed.

Lemma run_reads_only (P : cp -> bool) (r : regex) :
  reads_only P r ->
  forall st m, In m (run r st) ->
               exists w, consumes st w m /\ Forall (fun c => P c = true) w.
Proof.
  assert (Hone : forall p : cp -> bool,
             (forall x, p x = true -> P x = true) ->
             forall st m, In m (one p st) ->
                          exists w, consumes st w m /\ Forall (fun c => P c = true) w).
  { intros p Hp st m H. apply one_consumes in H. destruct H as (c & C & Hc & _).
    exists [c]. split; [exact C|]. constructor; [now apply Hp | constructor]. }
  assert (Hstay : forall st : mstate,
             exists w, consumes st w st /\ Forall (fun c => P c = true) w).
  { intros st. exists []. split; [apply consumes_refl | constructor]. }
  induction r as [c|c| |neg items|a IHa b IHb|a IHa b IHb|lo hi g a IHa|n a IHa| | |];
    cbn [reads_only]; intros Hr st m H.
  - apply (Hone (fun x => x =? c)); [|exact H].
    intros x Hx. apply N.eqb_eq in Hx. now subst.
  - now apply (Hone (lit_icase c)).
  - now apply (Hone (fun x => negb (x =? LF))).
  - now apply (Hone (set_match neg items)).
  - destruct Hr as [Ha Hb]. apply in_run_cat in H. destruct H as (x & H1 & H2).
    destruct (IHa Ha _ _ H1) as (w1 & C1 & P1). destruct (IHb Hb _ _ H2) as (w2 & C2 & P2).
    exists (w1 ++ w2). split; [now apply (consumes_trans _ x) | now apply Forall_app].
  - destruct Hr as [Ha Hb]. apply in_run_alt in H. destruct H as [H|H]; eauto.
  - cbn [run] in H.
    apply (rep_reads (fun w => Forall (fun c => P c = true) w) (run a) g
                     (S (length (m_rest st)))) with (lo := lo) (hi := hi);
      [constructor | intros x y Hx Hy; now apply Forall_app | now apply IHa | exact H].
  - apply in_run_group in H. destruct H as (x & H1 & ->).
    destruct (IHa Hr _ _ H1) as (w & [C1 C2] & Pw). exists w. split; [|exact Pw].
    split; exact C1 || exact C2.
  - cbn [run] in H. destruct (Nat.eqb (m_pos st) 0); [|destruct H].
    destruct H as [<-|[]]. apply Hstay.
  - apply in_run_eol in H. destruct H as [-> _]. apply Hstay.
  - destruct H as [<-|[]]. apply Hstay.
Qed.

(** Every match that [finditer] yields is a match of the expression at
    some place of the text. *)
Lemma finditer_from_in (r : regex) (s : str) :
  forall (pos skip : nat) (m : mstate),
    In m (finditer_from r pos skip s) ->
    exists pre s',
      s = pre ++ s'
      /\ In m (run r {| m_pos := (pos + length pre)%nat; m_rest := s'; m_groups := [] |}).
Proof.
  assert (Hhd : forall (l : list mstate) (x : mstate), hd_error l = Some x -> In x l).
  { intros [|y l] x; [discriminate|]. cbn [hd_error]. intros [= ->]. now left. }
  assert (Hcons : forall c t pos m,
             (exists pre s',
                 t = pre ++ s'
                 /\ In m (run r {| m_pos := (S pos + length pre)%nat; m_rest := s';
                                   m_groups := [] |})) ->
             exists pre s',
               c :: t = pre ++ s'
               /\ In m (run r {| m_pos := (pos + length pre)%nat; m_rest := s';
                                 m_groups := [] |})).
  { intros c t pos m (pre & s' & -> & H). exists (c :: pre), s'. split; [reflexivity|].
    cbn [length]. now rewrite Nat.add_succ_r. }
  assert (Hhere : forall s0 pos m,
             hd_error (run r {| m_pos := pos; m_rest := s0; m_groups := [] |}) = Some m ->
             exists pre s',
               s0 = pre ++ s'
               /\ In m (run r {| m_pos := (pos + length pre)%nat; m_rest := s';
                                 m_groups := [] |})).
  { intros s0 pos m H. exists [], s0. split; [reflexivity|].
    cbn [length]. rewrite Nat.add_0_r. now apply Hhd. }
  induction s as [|c t IH]; intros pos skip m H.
  - destruct skip as [|skip]; cbn [finditer_from] in H; [|destruct H].
    destruct (hd_error (run r {| m_pos := pos; m_rest := []; m_groups := [] |})) as [m0|] eqn:E;
      [|destruct H].
    destruct H as [<-|[]]. now apply Hhere.
  - destruct skip as [|skip]; cbn [finditer_from] in H.
    + destruct (hd_error (run r {| m_pos := pos; m_rest := c :: t; m_groups := [] |}))
        as [m0|] eqn:E.
      * destruct H as [<-|H]; [now apply Hhere|]. apply Hcons. now apply IH in H.
      * apply Hcons. now apply IH in H.
    + apply Hcons. now apply IH in H.
Qed.

Lemma name_char_spec (x : cp) :
  name_char x = true <->
  128 <= x \/ 65 <= x <= 90 \/ 97 <= x <= 122 \/ 48 <= x <= 57 \/ x = 95 \/ x = 46 \/ x = 45.
Proof.
  unfold name_char, is_alnum_ascii, is_letter, is_ascii.
  rewrite !orb_true_iff, negb_true_iff, !in_range_in, !N.eqb_eq, N.ltb_ge. tauto.
Qed.

Lemma isalnum_spec (x : cp) : isalnum x = true -> name_char x = true.
Proof.
  unfold isalnum, name_char, is_alnum_ascii, is_letter.
  destruct (is_ascii x); [|reflexivity]. cbn [negb orb].
  now destruct (in_range 48 57 x), (in_range 65 90 x), (in_range 97 122 x).
Qed.

Lemma isdecimal_spec (x : cp) : isdecimal x = true -> name_char x = true.
Proof.
  unfold isdecimal, decimal, name_char, is_alnum_ascii, is_letter.
  destruct (is_ascii x); [|reflexivity]. cbn [negb orb].
  destruct (in_range 48 57 x); [|discriminate]. intros _. now rewrite !orb_true_r.
Qed.

Lemma lit_icase_plain (c : cp) :
  in_range 97 122 c = true -> forall x, lit_icase c x = true -> name_char x = true.
Proof.
  intros Hc x H. apply in_range_in in Hc. apply name_char_spec.
  unfold lit_icase in H.
  rewrite !orb_true_iff, !andb_true_iff, !orb_true_iff, !in_range_in, !N.eqb_eq in H.
  lia.
Qed.

Ltac plain_set :=
  let x := fresh "x" in
  let H := fresh "H" in
  intros x H; unfold set_match in H; cbn [existsb citem_match xorb] in H;
  repeat (apply orb_true_iff in H; destruct H as [H|H]);
  first [ discriminate H
        | now apply isalnum_spec
        | now apply isdecimal_spec
        | apply name_char_spec; apply in_range_in in H; lia
        | apply name_char_spec; apply N.eqb_eq in H; lia ].

Lemma file_patterns_plain :
  reads_only name_char filename_pat /\ reads_only name_char generic_file_pat.
Proof.
  split.
  - unfold filename_pat. cbn [reads_only].
    repeat match goal with |- _ /\ _ => split end;
      first [ exact I | reflexivity | plain_set ].
  - unfold generic_file_pat. cbn [reads_only].
    repeat match goal with |- _ /\ _ => split end;
      first [ exact I | reflexivity | apply lit_icase_plain; reflexivity | plain_set ].
Qed.

Lemma match_plain (r : regex) (body : str) (m : mstate) (n : nat) (a : regex) :
  r = Group n a -> reads_only name_char r ->
  In m (finditer r body) ->
  (exists pre post, body = pre ++ group n m ++ post)
  /\ Forall (fun c => name_char c = true) (group n m).
Proof.
  intros -> Hr H. unfold finditer in H. apply finditer_from_in in H.
  destruct H as (pre & s' & -> & H). apply in_run_group in H.
  destruct H as (x & Hx & ->). cbn [reads_only] in Hr.
  destruct (run_reads_only _ _ Hr _ _ Hx) as (w & C & Pw).
  assert (Hg : forall v, group n (set_group n v x) = v).
  { intros v. unfold group, set_group. cbn [m_groups lookup]. now rewrite Nat.eqb_refl. }
  rewrite !Hg, (consumes_firstn _ _ _ C). split; [|exact Pw].
  exists pre, (m_rest x). destruct C as [C _]. cbn [m_rest] in C. now rewrite C.
Qed.

End Plain_names.

Lemma Forall2_chain {A : Type} (R S : A -> A -> Prop) (l1 l2 l3 : list A) :
  Forall2 R l1 l2 -> Forall2 S l2 l3 ->
  Forall2 (fun x z => exists y, R x y /\ S y z) l1 l3.
Proof.
  intros H12. revert l3. induction H12 as [|x y l1 l2 Hxy _ IH]; intros l3 H23;
    inversion H23; subst; constructor; eauto.
Qed.

Section By_name_facts.
Context `{U : Unicode}.
Variable mf : Dict.t path.

Lemma claims_frame (nm : str) (names : list str) :
  ~ In nm names ->
  forall m a,
    count_named nm (fst (fold_left (claim_named mf) names (m, a))) = count_named nm m
    /\ text (fst (fold_left (claim_named mf) names (m, a))) = text m
    /\ timestamp (fst (fold_left (claim_named mf) names (m, a))) = timestamp m
    /\ (attachments (fst (fold_left (claim_named mf) names (m, a))) = [] ->
        attachments m = []).
Proof.
  induction names as [|k names IH]; intros Hn m a; [now repeat split|].
  cbn [fold_left].
  assert (Hk : k <> nm) by (intros ->; apply Hn; now left).
  assert (Hnames : ~ In nm names) by (intros H; apply Hn; now right).
  assert (Hstep : exists m1 a1,
             claim_named mf (m, a) k = (m1, a1)
             /\ count_named nm m1 = count_named nm m /\ text m1 = text m
             /\ timestamp m1 = timestamp m /\ (attachments m1 = [] -> attachments m = [])).
  { unfold claim_named. destruct (Dict.get k mf) as [p|]; [|now exists m, a].
    destruct (Dict.get k a) as [[|]|]; try now exists m, a.
    exists (append_attachment m (attachment_of p k)), (Dict.set k true a).
    split; [reflexivity|]. rewrite count_named_append.
    rewrite (proj2 (str_eqb_neq k nm) Hk). split; [lia|]. repeat split.
    cbn [append_attachment attachments]. intros H. now apply app_eq_nil in H. }
  destruct Hstep as (m1 & a1 & -> & C1 & T1 & S1 & A1).
  destruct (IH Hnames m1 a1) as (C2 & T2 & S2 & A2).
  repeat split; try congruence. intros H. auto.
Qed.

Lemma fallback_by_date (nm : str) (m : Message) (a : Dict.t bool) :
  count_named nm (fst (fallback mf m a)) <> count_named nm m ->
  attachments m = [] /\ is_placeholder (text m) = true
  /\ name_date nm = Some (date_of (timestamp m)).
Proof.
  unfold fallback. destruct (attachments m) as [|x l] eqn:Ea; [|cbn [fst]; congruence].
  destruct (is_placeholder (text m)); [|cbn [fst]; congruence].
  destruct (first_of_day (date_of (timestamp m)) mf a) as [[k p]|] eqn:E;
    [|cbn [fst]; congruence].
  cbn [fst]. rewrite count_named_append. intros H.
  destruct (str_eqb k nm) eqn:Ek; [|lia].
  apply str_eqb_eq in Ek. subst k.
  apply first_of_day_spec in E. destruct E as (_ & _ & _ & _ & Hd & _).
  now repeat split.
Qed.

End By_name_facts.

(** The file names that [link_attachments] reads in a text are pieces of
    the text made of letters, digits, [_], [.] and [-] (and characters
    outside Basic Latin): a file whose name has a space or a bracket is
    never attached to the message that names it; when it is attached, then
    to a placeholder message of the day its name carries. *)
Theorem names_in_text_are_plain `{U : Unicode} :
  (forall body k,
      In k (files_in_text body) ->
      (exists pre post, body = pre ++ k ++ post)
      /\ Forall (fun c => name_char c = true) k)
  /\ (forall tree conv nm,
         (exists c, In c nm /\ name_char c = false) ->
         Forall2 (fun m m' =>
                    count_named nm m' <> count_named nm m ->
                    attachments m = [] /\ is_placeholder (text m) = true
                    /\ name_date nm = Some (date_of (timestamp m)))
                 (messages conv) (messages (link_attachments tree conv))).
Proof.
  assert (Hplain : forall body k,
             In k (files_in_text body) ->
             (exists pre post, body = pre ++ k ++ post)
             /\ Forall (fun c => name_char c = true) k).
  { intros body k H. unfold files_in_text in H.
    apply (fold_set_add _ [] (NoDup_nil _)) in H. destruct H as [[]|H].
    destruct file_patterns_shape as (S1 & S2 & _).
    destruct file_patterns_plain as [P1 P2].
    apply in_app_or in H. destruct H as [H|H]; apply in_map_iff in H;
      destruct H as (m & <- & H).
    - exact (match_plain _ _ _ _ _ S1 P1 H).
    - exact (match_plain _ _ _ _ _ S2 P2 H). }
  split; [exact Hplain|].
  intros tree conv nm (c & Hc & Hno).
  assert (Hnot : forall body, ~ In nm (files_in_text body)).
  { intros body H. apply Hplain in H. destruct H as [_ H].
    rewrite Forall_forall in H. specialize (H c Hc). congruence. }
  unfold link_attachments. cbn [messages set_messages].
  rewrite link_state_eq, pass1_thread, pass2_thread.
  eapply Forall2_impl;
    [|eapply Forall2_chain; apply thread_pointwise].
  cbn beta. intros m m' (m1 & (a & ->) & (a' & ->)) Hcount.
  unfold claim_all in *.
  destruct (claims_frame (media_files tree) nm _ (Hnot (text m)) m a) as (C1 & T1 & S1 & A1).
  rewrite <- C1 in Hcount. apply fallback_by_date in Hcount.
  destruct Hcount as (Ha & Hp & Hd).
  rewrite T1 in Hp. rewrite S1 in Hd. auto.
Qed.

(** ** Other file names in the text of a message *)

Lemma lower_ascii_cases (x c : cp) :
  lower_ascii x = c -> x = c \/ (x = c - 32 /\ 97 <= c <= 122).
Proof.
  unfold lower_ascii. destruct (in_range 65 90 x) eqn:E; [|now left].
  apply in_range_in in E. intros <-. right. lia.
Qed.

Section Generic_found.
Context `{U : Unicode}.

Ltac letter_case H :=
  apply lower_ascii_cases in H;
  destruct H as [H|[H ?]]; [|try (exfalso; lia)]; subst.

Ltac each_case He :=
  match type of He with
  | _ = map lower_ascii ?e =>
      destruct e as [|? [|? [|? [|? [|? ?]]]]]; try discriminate He;
      cbn [map] in He; injection He; clear He; intros;
      repeat match goal with
             | H : _ = lower_ascii _ |- _ => symmetry in H; letter_case H
             end
  end.

(** The optional [x] of [docx?] and [xlsx?]. *)
Lemma opt_alt_first (L e tail : str) (pos : nat) (gs : list (nat * str)) :
  map lower_ascii L = L ->
  map lower_ascii e = L \/ map lower_ascii e = L ++ [120] ->
  match tail with [] => True | c :: _ => lit_icase 120 c = false end ->
  hd_error (run (cat (map litI L ++ [opt (litI (ch "x"))]))
                {| m_pos := pos; m_rest := e ++ tail; m_groups := gs |})
  = Some {| m_pos := (length e + pos)%nat; m_rest := tail; m_groups := gs |}.
Proof.
  intros HL He Ht.
  assert (Hopt : forall (w : str) (p : nat),
             Forall (fun c => lit_icase 120 c = true) w -> (length w <= 1)%nat ->
             hd_error (run (cat [opt (litI (ch "x"))])
                           {| m_pos := p; m_rest := w ++ tail; m_groups := gs |})
             = Some {| m_pos := (p + length w)%nat; m_rest := tail; m_groups := gs |}).
  { intros w p Hw Hlen.
    change (cat [opt (litI (ch "x"))]) with (Cat (Rep 0 (Some 1%nat) true (LitI 120)) Empty).
    cbn [run].
    assert (Hid : forall l : list mstate, flat_map (fun st => [st]) l = l).
    { induction l as [|a l IH]; [reflexivity|]. cbn [flat_map app]. now rewrite IH. }
    rewrite Hid. cbn [m_rest].
    change (run (LitI 120)) with (one (lit_icase 120)).
    apply rep_one_first; trivial; [lia | now intros h [= <-] | lia]. }
  destruct He as [He|He].
  - rewrite <- HL in He.
    rewrite (run_literals _ _ (literals_read L e He)).
    pose proof (Hopt [] (pos + length e)%nat (Forall_nil _) (Nat.le_0_l _)) as H0.
    cbn [app length] in H0. rewrite H0. do 2 f_equal. lia.
  - apply map_eq_app in He. destruct He as (P & X & -> & HP & HX).
    destruct X as [|x [|y X]]; try discriminate HX. cbn [map] in HX. injection HX as HX.
    rewrite <- HL in HP. rewrite <- app_assoc.
    rewrite (run_literals _ _ (literals_read L P HP)).
    assert (Hx : lit_icase 120 x = true) by (letter_case HX; reflexivity).
    pose proof (Hopt [x] (pos + length P)%nat
                     (Forall_cons _ Hx (Forall_nil _)) (le_n _)) as H0.
    cbn [app length] in H0 |- *. rewrite H0, length_app. cbn [length]. do 2 f_equal. lia.
Qed.

(** The alternatives of [generic_file_pat] read the extension, and the
    first one that reads anything reads the whole of it. *)
Lemma suffix_first (e tail : str) (pos : nat) (gs : list (nat * str)) :
  In (map lower_ascii e) SUFFIX_NAMES ->
  match tail with [] => True | c :: _ => lit_icase 120 c = false end ->
  hd_error (run (alt (litsI (u "jpg")) MEDIA_SUFFIXES)
                {| m_pos := pos; m_rest := e ++ tail; m_groups := gs |})
  = Some {| m_pos := (length e + pos)%nat; m_rest := tail; m_groups := gs |}.
Proof.
  intros He Ht.
  set (A18 := alt (litsI (u "jpg"))
                  (map litsI [u "jpeg"; u "png"; u "gif"; u "mp4"; u "3gp"; u "mov"; u "avi";
                              u "mkv"; u "m4v"; u "opus"; u "ogg"; u "mp3"; u "wav"; u "m4a";
                              u "pdf"; u "webp"; u "heic"])).
  set (DOCX := cat (map litI (u "doc") ++ [opt (litI (ch "x"))])).
  set (XLSX := cat (map litI (u "xls") ++ [opt (litI (ch "x"))])).
  assert (Hd : forall x1 rest,
             lower_ascii x1 = 100 ->
             run A18 {| m_pos := pos; m_rest := x1 :: rest; m_groups := gs |} = []).
  { intros x1 rest H. letter_case H; vm_compute; reflexivity. }
  assert (Hx : forall x1 rest,
             lower_ascii x1 = 120 ->
             run A18 {| m_pos := pos; m_rest := x1 :: rest; m_groups := gs |} = []
             /\ run DOCX {| m_pos := pos; m_rest := x1 :: rest; m_groups := gs |} = []).
  { intros x1 rest H. letter_case H; split; vm_compute; reflexivity. }
  assert (Hfam : forall L a,
             (map lower_ascii e = L \/ map lower_ascii e = L ++ [120]) ->
             L = a :: tl L ->
             exists x1 rest, e ++ tail = x1 :: rest /\ lower_ascii x1 = a).
  { intros L a H HL. rewrite HL in H.
    destruct e as [|x1 e']; [destruct H as [H|H]; discriminate H|].
    exists x1, (e' ++ tail). split; [reflexivity|].
    destruct H as [H|H]; cbn [map app] in H; now injection H. }
  unfold SUFFIX_NAMES in He. cbn [In] in He.
  do 18 (destruct He as [He|He]; [each_case He; vm_compute; reflexivity|]).
  change (alt (litsI (u "jpg")) MEDIA_SUFFIXES)
    with (Alt (Alt (Alt A18 DOCX) XLSX) (litsI (u "zip"))).
  assert (Hdoc : map lower_ascii e = u "doc" \/ map lower_ascii e = u "doc" ++ [120]
                 \/ map lower_ascii e = u "xls" \/ map lower_ascii e = u "xls" ++ [120]
                 \/ u "zip" = map lower_ascii e).
  { destruct He as [He|[He|[He|[He|[He|[]]]]]]; auto. }
  clear He. destruct Hdoc as [H|[H|[H|[H|H]]]].
  5: { change (Alt (Alt (Alt A18 DOCX) XLSX) (litsI (u "zip")))
         with (alt (litsI (u "jpg")) MEDIA_SUFFIXES).
       each_case H; vm_compute; reflexivity. }
  1, 2: destruct (Hfam (u "doc") 100) as (x1 & rest & E & Hl); [auto | reflexivity|];
        cbn [run]; rewrite E, (Hd x1 rest Hl), <- E; cbn [app];
        apply hd_error_app_some, hd_error_app_some;
        apply opt_alt_first; [reflexivity | auto | exact Ht].
  1, 2: destruct (Hfam (u "xls") 120) as (x1 & rest & E & Hl); [auto | reflexivity|];
        cbn [run]; rewrite E, (proj1 (Hx x1 rest Hl)), (proj2 (Hx x1 rest Hl)), <- E;
        cbn [app]; apply hd_error_app_some;
        apply opt_alt_first; [reflexivity | auto | exact Ht].
Qed.

End Generic_found.

Lemma flat_map_nil_all {A B : Type} (f : A -> list B) (l : list A) :
  (forall x, In x l -> f x = []) -> flat_map f l = [].
Proof.
  induction l as [|a l IH]; intros H; [reflexivity|].
  cbn [flat_map]. rewrite (H a (or_introl eq_refl)), IH; [reflexivity|].
  intros x Hx. apply H. now right.
Qed.

Section Backtracking.
Context `{U : Unicode}.

(** A greedy repetition followed by more: when the rest of the expression
    reads nothing after any longer run, the first match is the first one
    after the run [w1]. *)
Lemma greedy_backtrack (p : cp -> bool) (f : mstate -> list mstate) (w1 : str) :
  forall (fuel lo pos : nat) (rest1 : str) (gs : list (nat * str)),
    Forall (fun c => p c = true) w1 ->
    (lo <= length w1)%nat ->
    (length (w1 ++ rest1) < fuel)%nat ->
    (forall fuel' x,
        In x (rep (one p) 1 None true fuel'
                  {| m_pos := (pos + length w1)%nat; m_rest := rest1; m_groups := gs |}) ->
        f x = []) ->
    f {| m_pos := (pos + length w1)%nat; m_rest := rest1; m_groups := gs |} <> [] ->
    hd_error (flat_map f (rep (one p) lo None true fuel
                              {| m_pos := pos; m_rest := w1 ++ rest1; m_groups := gs |}))
    = hd_error (f {| m_pos := (pos + length w1)%nat; m_rest := rest1; m_groups := gs |}).
Proof.
  induction w1 as [|c w1 IH]; intros fuel lo pos rest1 gs Hw Hlo Hfuel Hbeyond Hne;
    (destruct fuel as [|fuel]; [lia|]).
  - cbn [length] in Hlo. replace lo with 0%nat by lia.
    cbn [app length] in *. rewrite Nat.add_0_r in *.
    specialize (Hbeyond (S fuel)). cbn [rep option_map pred] in Hbeyond |- *.
    assert (Hmore : forall l : list mstate,
               (forall x, In x (l ++ []) -> f x = []) ->
               hd_error (flat_map f (l ++ [{| m_pos := pos; m_rest := rest1;
                                              m_groups := gs |}]))
               = hd_error (f {| m_pos := pos; m_rest := rest1; m_groups := gs |})).
    { intros l Hl. rewrite flat_map_app, (flat_map_nil_all f l).
      - cbn [app flat_map]. now rewrite app_nil_r.
      - intros x Hx. apply Hl. now rewrite app_nil_r. }
    apply Hmore. exact Hbeyond.
  - inversion Hw as [|? ? Hc Hw']. subst.
    assert (Hone : one p {| m_pos := pos; m_rest := (c :: w1) ++ rest1; m_groups := gs |}
                   = [{| m_pos := S pos; m_rest := w1 ++ rest1; m_groups := gs |}]).
    { unfold one. cbn [m_rest app m_pos m_groups]. now rewrite Hc. }
    cbn [rep option_map]. rewrite Hone. cbn [flat_map m_pos].
    rewrite (proj2 (Nat.ltb_lt pos (S pos)) (Nat.lt_succ_diag_r _)), app_nil_r.
    rewrite flat_map_app.
    replace (pos + length (c :: w1))%nat with (S pos + length w1)%nat in *
      by (cbn [length]; lia).
    assert (HIH := IH fuel (pred lo) (S pos) rest1 gs Hw'
                      ltac:(cbn [length] in Hlo; lia)
                      ltac:(cbn [app length] in Hfuel; lia) Hbeyond Hne).
    destruct (flat_map f (rep (one p) (pred lo) None true fuel
                              {| m_pos := S pos; m_rest := w1 ++ rest1; m_groups := gs |}))
      as [|y l] eqn:E.
    + exfalso. apply Hne. cbn [hd_error] in HIH.
      now destruct (f {| m_pos := (S pos + length w1)%nat; m_rest := rest1;
                         m_groups := gs |}).
    + rewrite <- HIH. reflexivity.
Qed.

Lemma class_then_no_dot (p : cp -> bool) (e tail : str) :
  ~ In DOT e -> p DOT = true ->
  match tail with [] => True | c :: _ => p c = false end ->
  forall v r,
    e ++ tail = v ++ r -> Forall (fun c => p c = true) v ->
    match r with [] => True | c :: _ => c <> DOT end.
Proof.
  intros He Hdot Ht. induction e as [|a e IH]; intros v r E Hv.
  - cbn [app] in E. destruct v as [|c v].
    + cbn [app] in E. subst r. destruct tail as [|c t]; [exact I|]. congruence.
    + subst tail. inversion Hv as [|? ? Hc _]. subst. cbn [app] in Ht. congruence.
  - destruct v as [|c v]; cbn [app] in E.
    + subst r. intros ->. apply He. now left.
    + injection E as <- E. inversion Hv as [|? ? _ Hv']. subst.
      apply (IH (fun H => He (or_intror H)) v r E Hv').
Qed.

Lemma name_part_class (c : cp) :
  set_match false [IWord; IChar DOT; IChar (ch "-")] c = name_part c.
Proof.
  unfold set_match, name_part. cbn [existsb citem_match xorb].
  change (ch "-") with 45. change DOT with 46.
  now destruct (isword c), (c =? 46), (c =? 45).
Qed.

Lemma suffix_no_dot (e : str) : In (map lower_ascii e) SUFFIX_NAMES -> ~ In DOT e.
Proof.
  intros He Hd. apply (in_map lower_ascii) in Hd. change (lower_ascii DOT) with 46 in Hd.
  unfold SUFFIX_NAMES in He. cbn [In] in He.
  repeat (destruct He as [He|He];
          [rewrite <- He in Hd; vm_compute in Hd; intuition discriminate|]).
  destruct He.
Qed.

Lemma not_x (c : cp) : name_part c = false -> lit_icase 120 c = false.
Proof.
  intros H. destruct (lit_icase 120 c) eqn:E; [|reflexivity].
  unfold lit_icase in E.
  rewrite !orb_true_iff, !andb_true_iff, !orb_true_iff, !in_range_in, !N.eqb_eq in E.
  assert (Hc : c = 120 \/ c = 88) by lia.
  destruct Hc as [-> | ->]; vm_compute in H; discriminate H.
Qed.

Lemma generic_pat_first (stem e tail : str) :
  stem <> [] -> Forall (fun c => name_part c = true) stem ->
  In (map lower_ascii e) SUFFIX_NAMES -> ends_generic tail ->
  exists m,
    hd_error (run generic_file_pat (init ((stem ++ DOT :: e) ++ tail))) = Some m
    /\ group 1 m = stem ++ DOT :: e.
Proof.
  intros Hne Hstem He Ht.
  set (p := set_match false [IWord; IChar DOT; IChar (ch "-")]).
  set (SUFF := alt (litsI (u "jpg")) MEDIA_SUFFIXES).
  set (f := run (cat [Lit DOT; SUFF])).
  set (X := {| m_pos := (length e + S (length stem))%nat; m_rest := tail; m_groups := [] |}).
  assert (Hx : match tail with [] => True | c :: _ => lit_icase 120 c = false end).
  { unfold ends_generic in Ht. destruct tail as [|c t]; [exact I | now apply not_x]. }
  assert (Hp : match tail with [] => True | c :: _ => p c = false end).
  { unfold ends_generic in Ht. destruct tail as [|c t]; [exact I|].
    unfold p. now rewrite name_part_class. }
  assert (Hid : forall l : list mstate, flat_map (fun st => [st]) l = l).
  { induction l as [|a l IH]; [reflexivity|]. cbn [flat_map app]. now rewrite IH. }
  assert (Hf : hd_error (f {| m_pos := (0 + length stem)%nat; m_rest := DOT :: e ++ tail;
                              m_groups := [] |})
               = Some X).
  { unfold f. change (cat [Lit DOT; SUFF]) with (Cat (Lit DOT) (Cat SUFF Empty)).
    change (run (Cat (Lit DOT) (Cat SUFF Empty)) ?st)
      with (flat_map (fun y => flat_map (run Empty) (run SUFF y)) (run (Lit DOT) st)).
    change (run (Lit DOT) ?st) with (one (fun x => x =? DOT) st).
    unfold one. cbn [m_rest m_pos m_groups]. rewrite N.eqb_refl. cbn [flat_map].
    change (run Empty) with (fun st : mstate => [st]).
    rewrite Hid, app_nil_r. unfold SUFF. now rewrite suffix_first. }
  assert (H1 : hd_error (run (cat [plus (Set_ false [IWord; IChar DOT; IChar (ch "-")]);
                                   Lit DOT; SUFF])
                             (init ((stem ++ DOT :: e) ++ tail)))
               = Some X).
  { change (run (cat [plus (Set_ false [IWord; IChar DOT; IChar (ch "-")]); Lit DOT; SUFF])
                ?st)
      with (flat_map f (rep (one p) 1 None true (S (length (m_rest st))) st)).
    unfold init. cbn [m_rest]. rewrite <- app_assoc. cbn [app].
    rewrite <- Hf. apply greedy_backtrack.
    - apply (Forall_class _ _ stem name_part_class). exact Hstem.
    - destruct stem; [congruence | cbn [length]; lia].
    - apply Nat.lt_succ_diag_r.
    - intros fuel' x Hin. apply rep_one_consumes in Hin.
      destruct Hin as (w & [Hr _] & Hw & Hlen & _). cbn [m_rest] in Hr.
      destruct w as [|c w]; [cbn [length] in Hlen; lia|].
      cbn [app] in Hr. injection Hr as _ Hr.
      inversion Hw as [|? ? _ Hw']. subst.
      pose proof (class_then_no_dot p e tail (suffix_no_dot e He) eq_refl Hp
                                    w (m_rest x) Hr Hw') as Hhead.
      unfold f. change (cat [Lit DOT; SUFF]) with (Cat (Lit DOT) (Cat SUFF Empty)).
      change (run (Cat (Lit DOT) (Cat SUFF Empty)) x)
        with (flat_map (fun y => flat_map (run Empty) (run SUFF y)) (run (Lit DOT) x)).
      change (run (Lit DOT) x) with (one (fun c => c =? DOT) x).
      unfold one. destruct (m_rest x) as [|c0 t0]; [reflexivity|].
      apply N.eqb_neq in Hhead. now rewrite Hhead.
    - intros Hnil. rewrite Hnil in Hf. discriminate Hf. }
  exists (set_group 1 (firstn (m_pos X - 0) ((stem ++ DOT :: e) ++ tail)) X). split.
  - rewrite (proj1 (proj2 file_patterns_shape)).
    change (run (Group 1 ?r) ?st)
      with (map (fun st' => set_group 1 (firstn (m_pos st' - m_pos st) (m_rest st)) st')
                (run r st)).
    apply (hd_error_map_some
             (fun st' => set_group 1 (firstn (m_pos st' - 0) ((stem ++ DOT :: e) ++ tail))
                                   st')).
    exact H1.
  - unfold group, set_group. cbn [m_groups lookup Nat.eqb m_pos X].
    rewrite Nat.sub_0_r.
    replace (length e + S (length stem))%nat with (length (stem ++ DOT :: e))
      by (rewrite length_app; cbn [length]; lia).
    apply firstn_length_app.
Qed.

End Backtracking.

(** A message whose text begins with a file name that ends in one of the
    extensions of the second pattern, in any case of the letters, names that
    file, as long as the text does not go on with a character that could
    belong to the name. *)
Theorem generic_name_found `{U : Unicode} (nm tail : str) :
  generic_name nm -> ends_generic tail -> In nm (files_in_text (nm ++ tail)).
Proof.
  intros (stem & e & -> & Hne & Hstem & He) Ht.
  change (stem ++ [DOT] ++ e) with (stem ++ DOT :: e).
  destruct (generic_pat_first stem e tail Hne Hstem He Ht) as (m & Hm & Hg).
  unfold files_in_text.
  apply (fold_set_add _ [] (NoDup_nil _)). right.
  apply in_or_app. right. apply in_map_iff. exists m.
  split; [exact Hg | exact (finditer_first _ _ _ Hm)].
Qed.

(** A document that kept its own name. *)
Lemma generic_name_found_witness :
  @generic_name latin1 (u "Report_2024.v2.PDF") /\ @ends_generic latin1 (u " (file attached)")
  /\ In (u "Report_2024.v2.PDF")
        (@files_in_text latin1 (u "Report_2024.v2.PDF" ++ u " (file attached)")).
Proof.
  assert (Hn : @generic_name latin1 (u "Report_2024.v2.PDF")).
  { exists (u "Report_2024.v2"), (u "PDF").
    split; [reflexivity|]. split; [discriminate|]. split.
    - apply Forall_forall. apply (proj1 (forallb_forall _ _)). vm_compute. reflexivity.
    - vm_compute. tauto. }
  assert (Ht : @ends_generic latin1 (u " (file attached)")) by reflexivity.
  split; [exact Hn|]. split; [exact Ht|].
  exact (@generic_name_found latin1 (u "Report_2024.v2.PDF") (u " (file attached)") Hn Ht).
Defined.

(** ** Whose messages go to the right *)

Lemma starts_with_prefix (p rest : str) : starts_with p (p ++ rest) = true.
Proof.
  induction p as [|a p IH]; [reflexivity|].
  cbn [app starts_with]. now rewrite N.eqb_refl, IH.
Qed.

Lemma me_names_spec (me_name a : str) :
  In a (me_names me_name) <->
  (strip me_name <> [] /\ a = strip me_name) \/ In a [u "You"; u "Vous"; u "Moi"].
Proof.
  unfold me_names. rewrite in_app_iff.
  destruct (strip me_name) as [|c t] eqn:E.
  - cbn [In]. split; [intros [[]|H]; now right | intros [[H _]|H]; [congruence | now right]].
  - cbn [In]. split.
    + intros [[H|[]]|H]; [left | now right]. split; [discriminate | now symmetry].
    + intros [[_ H]|H]; [left; left; now symmetry | now right].
Qed.

(** A message is shown on the right exactly when its author is the name
    typed in the sidebar, trimmed and not blank, or one of "You", "Vous" and
    "Moi", letter for letter. *)
Theorem own_messages_right `{U : Unicode} `{L : Libc}
        (read_bytes : path -> option (list Byte.byte))
        (conv : Conversation) (me_name : str) (show_author : bool) (m : Message) :
  let own := (strip me_name <> [] /\ author m = strip me_name)
             \/ In (author m) [u "You"; u "Vous"; u "Moi"] in
  let shown := bubble read_bytes conv (me_names me_name) show_author m in
  (own <-> starts_with (div_of (u "msg right")) shown = true)
  /\ (~ own <-> starts_with (div_of (u "msg left")) shown = true).
Proof.
  intros own shown.
  assert (Hown : own <-> str_in (author m) (me_names me_name) = true).
  { unfold own. now rewrite str_in_iff, me_names_spec. }
  assert (Hshown : exists rest,
             shown = div_of (u "msg " ++ (if str_in (author m) (me_names me_name)
                                          then u "right" else u "left")) ++ rest).
  { unfold shown, bubble. cbn [app concat]. eauto. }
  destruct Hshown as (rest & ->). rewrite Hown.
  destruct (str_in (author m) (me_names me_name)).
  - change (u "msg " ++ u "right") with (u "msg right").
    rewrite starts_with_prefix. split; [tauto|].
    split; [congruence|]. intros H. vm_compute in H. discriminate H.
  - change (u "msg " ++ u "left") with (u "msg left").
    rewrite starts_with_prefix. split; [|split; [trivial | intros _; discriminate]].
    split; [discriminate|]. intros H. vm_compute in H. discriminate H.
Qed.

(** ** The date in a file name *)

Lemma first_unique {A : Type} (c : A) (u1 u2 r1 r2 : list A) :
  ~ In c u1 -> ~ In c u2 -> u1 ++ c :: r1 = u2 ++ c :: r2 -> u1 = u2 /\ r1 = r2.
Proof.
  revert u2. induction u1 as [|a u1 IH]; intros [|b u2] H1 H2 E; cbn [app] in E.
  - injection E as E. now split.
  - injection E as E _. exfalso. apply H2. now left.
  - injection E as E _. exfalso. apply H1. now left.
  - injection E as -> E. destruct (IH u2) as [-> ->]; trivial.
    + intros H. apply H1. now right.
    + intros H. apply H2. now right.
    + now split.
Qed.

Lemma last_unique {A : Type} (c : A) (l1 l2 s1 s2 : list A) :
  ~ In c s1 -> ~ In c s2 -> l1 ++ c :: s1 = l2 ++ c :: s2 -> l1 = l2 /\ s1 = s2.
Proof.
  intros H1 H2 E. apply (f_equal (@rev A)) in E.
  rewrite !rev_app_distr in E. cbn [rev] in E. rewrite <- !app_assoc in E. cbn [app] in E.
  apply first_unique in E; [|now rewrite <- in_rev..].
  destruct E as [E1 E2]. apply rev_inj in E1, E2. now split.
Qed.

Lemma same_suffix {A : Type} (l1 l2 s1 s2 : list A) :
  l1 ++ s1 = l2 ++ s2 -> length s1 = length s2 -> l1 = l2 /\ s1 = s2.
Proof.
  intros E Hl. apply app_eq_len; [exact E|].
  apply (f_equal (@length A)) in E. rewrite !length_app in E. lia.
Qed.

Section Date_in_name.
Context `{U : Unicode}.

Lemma consumes_split_at (gs : list (nat * str)) (st m : mstate) (w1 w2 : str) :
  consumes st (w1 ++ w2) m ->
  exists x, consumes st w1 x /\ m_groups x = gs /\ consumes x w2 m.
Proof.
  intros [Hr Hp].
  exists {| m_pos := (m_pos st + length w1)%nat; m_rest := w2 ++ m_rest m; m_groups := gs |}.
  split; [|split]; [split | reflexivity | split]; cbn [m_pos m_rest m_groups]; trivial.
  - now rewrite Hr, app_assoc.
  - rewrite Hp, length_app. lia.
Qed.

Lemma in_run_any_rep (lo : nat) (hi : option nat) (g : bool) (st m : mstate) :
  In m (run (Rep lo hi g Any) st) <->
  exists w, consumes st w m /\ m_groups m = m_groups st
            /\ Forall (fun c => negb (c =? LF) = true) w
            /\ (lo <= length w)%nat /\ (forall h, hi = Some h -> (length w <= h)%nat).
Proof.
  cbn [run]. change (run Any) with (one (fun x => negb (x =? LF))). split.
  - intros H. apply rep_one_consumes in H. destruct H as (w & H1 & H2 & H3 & H4 & H5).
    exists w. auto.
  - intros (w & H1 & H2 & H3 & H4 & H5). apply (rep_one_complete _ _ w); trivial. lia.
Qed.

Lemma in_date_items (st m : mstate) :
  In m (run (cat DATE_ITEMS) st) <->
  exists a w2 w3 w4,
    consumes st (a ++ 45 :: w2 ++ 45 :: 87 :: 65 :: w3 ++ DOT :: w4) m
    /\ m_groups m = (1%nat, w2) :: m_groups st
    /\ (m_rest m = [] \/ m_rest m = [LF])
    /\ ~ In LF a
    /\ length w2 = 8%nat /\ Forall (fun c => isdecimal c = true) w2
    /\ w3 <> [] /\ Forall (fun c => isdecimal c = true) w3
    /\ w4 <> [] /\ (length w4 <= 5)%nat /\ Forall (fun c => is_alnum_ascii c = true) w4.
Proof.
  assert (Hlf : forall a : str,
             Forall (fun c => negb (c =? LF) = true) a <-> ~ In LF a).
  { intros a. rewrite Forall_forall. split.
    - intros H Hin. specialize (H LF Hin). now rewrite N.eqb_refl in H.
    - intros H c Hc. apply negb_true_iff, N.eqb_neq. intros ->. now apply H. }
  unfold DATE_ITEMS. cbn [cat fold_right]. split.
  - intros H.
    apply in_run_cat in H. destruct H as (x1 & H1 & H).
    apply in_run_cat in H. destruct H as (x2 & H2 & H).
    apply in_run_cat in H. destruct H as (x3 & H3 & H).
    apply in_run_cat in H. destruct H as (x4 & H4 & H).
    apply in_run_cat in H. destruct H as (x5 & H5 & H).
    apply in_run_cat in H. destruct H as (x6 & H6 & H).
    apply in_run_cat in H. destruct H as (x7 & H7 & H).
    apply in_run_cat in H. destruct H as (x8 & H8 & H).
    apply in_run_cat in H. destruct H as (x9 & H9 & H).
    apply in_run_cat in H. destruct H as (x10 & H10 & H).
    destruct H as [<-|[]].
    apply in_run_any_rep in H1. destruct H1 as (a & C1 & G1 & F1 & _ & _).
    apply in_run_lit in H2. destruct H2 as [C2 G2].
    apply in_run_group in H3. destruct H3 as (y & H3 & ->).
    apply in_run_class_rep in H3. destruct H3 as (w2 & C3 & G3 & F3 & L3 & B3).
    rewrite (consumes_firstn _ _ _ C3) in *.
    apply in_run_lit in H4. destruct H4 as [C4 G4].
    apply in_run_lit in H5. destruct H5 as [C5 G5].
    apply in_run_lit in H6. destruct H6 as [C6 G6].
    apply in_run_class_rep in H7. destruct H7 as (w3 & C7 & G7 & F7 & L7 & _).
    apply in_run_lit in H8. destruct H8 as [C8 G8].
    apply in_run_class_rep in H9. destruct H9 as (w4 & C9 & G9 & F9 & L9 & B9).
    apply in_run_eol in H10. destruct H10 as [-> Hend].
    exists a, w2, w3, w4.
    split.
    { apply (consumes_trans _ x1); [exact C1|].
      apply (consumes_trans _ x2 _ [45]); [exact C2|].
      apply (consumes_trans _ (set_group 1 w2 y)); [exact C3|].
      apply (consumes_trans _ x4 _ [45]); [exact C4|].
      apply (consumes_trans _ x5 _ [87]); [exact C5|].
      apply (consumes_trans _ x6 _ [65]); [exact C6|].
      apply (consumes_trans _ x7); [exact C7|].
      apply (consumes_trans _ x8 _ [DOT]); [exact C8 | exact C9]. }
    split.
    { rewrite G9, G8, G7, G6, G5, G4. unfold set_group. cbn [m_groups].
      now rewrite G3, G2, G1. }
    split; [exact Hend|].
    split; [now apply Hlf|].
    split; [apply Nat.le_antisymm; [exact (B3 8%nat eq_refl) | exact L3]|].
    split; [now apply (Forall_class _ _ w2 digit_class)|].
    split; [intros ->; cbn [length] in L7; lia|].
    split; [now apply (Forall_class _ _ w3 digit_class)|].
    split; [intros ->; cbn [length] in L9; lia|].
    split; [exact (B9 5%nat eq_refl)|].
    now apply (Forall_class _ _ w4 alnum_class).
  - intros (a & w2 & w3 & w4 & C & G & Hend & Fa & L2 & F2 & N3 & F3 & N4 & L4 & F4).
    set (gs := m_groups st) in *. set (gs' := (1%nat, w2) :: gs) in *.
    apply (consumes_split_at gs) in C. destruct C as (x1 & C1 & G1 & C).
    apply (consumes_split_at gs x1 m [45]) in C. destruct C as (x2 & C2 & G2 & C).
    apply (consumes_split_at gs') in C. destruct C as (x3 & C3 & G3 & C).
    apply (consumes_split_at gs' x3 m [45]) in C. destruct C as (x4 & C4 & G4 & C).
    apply (consumes_split_at gs' x4 m [87]) in C. destruct C as (x5 & C5 & G5 & C).
    apply (consumes_split_at gs' x5 m [65]) in C. destruct C as (x6 & C6 & G6 & C).
    apply (consumes_split_at gs') in C. destruct C as (x7 & C7 & G7 & C).
    apply (consumes_split_at gs' x7 m [DOT]) in C. destruct C as (x8 & C8 & G8 & C9).
    apply in_run_cat. exists x1. split.
    { apply in_run_any_rep. exists a.
      split; [exact C1|]. split; [exact G1|]. split; [now apply Hlf|].
      split; [lia | discriminate]. }
    apply in_run_cat. exists x2. split; [apply in_run_lit; split; [exact C2 | congruence]|].
    apply in_run_cat. exists x3. split.
    { apply in_run_group.
      exists {| m_pos := m_pos x3; m_rest := m_rest x3; m_groups := gs |}.
      assert (C3' : consumes x2 w2 {| m_pos := m_pos x3; m_rest := m_rest x3;
                                      m_groups := gs |})
        by (destruct C3 as [Hr Hp]; split; assumption).
      split.
      - apply in_run_class_rep. exists w2.
        split; [exact C3'|]. split; [cbn [m_groups]; congruence|].
        split; [now apply (Forall_class _ _ w2 digit_class)|].
        split; [exact (Nat.eq_le_incl _ _ (eq_sym L2))|].
        intros h [= <-]. exact (Nat.eq_le_incl _ _ L2).
      - rewrite (consumes_firstn _ _ _ C3'). unfold set_group. cbn [m_pos m_rest m_groups].
        apply mstate_eq; cbn [m_pos m_rest m_groups]; trivial. }
    apply in_run_cat. exists x4. split; [apply in_run_lit; split; [exact C4 | congruence]|].
    apply in_run_cat. exists x5. split; [apply in_run_lit; split; [exact C5 | congruence]|].
    apply in_run_cat. exists x6. split; [apply in_run_lit; split; [exact C6 | congruence]|].
    apply in_run_cat. exists x7. split.
    { apply in_run_class_rep. exists w3.
      split; [exact C7|]. split; [congruence|].
      split; [now apply (Forall_class _ _ w3 digit_class)|].
      split; [|discriminate]. destruct w3; [congruence | cbn [length]; lia]. }
    apply in_run_cat. exists x8. split; [apply in_run_lit; split; [exact C8 | congruence]|].
    apply in_run_cat. exists m. split.
    { apply in_run_class_rep. exists w4.
      split; [exact C9|]. split; [congruence|].
      split; [now apply (Forall_class _ _ w4 alnum_class)|].
      split; [destruct w4; [congruence | cbn [length]; lia]|].
      intros h [= <-]. exact L4. }
    apply in_run_cat. exists m. split; [|now left].
    apply in_run_eol. now split.
Qed.

End Date_in_name.

Section Date_digits.
Context `{U : Unicode}.

Lemma alnum_not (c : cp) (w : str) :
  is_alnum_ascii c = false -> Forall (fun x => is_alnum_ascii x = true) w -> ~ In c w.
Proof. rewrite Forall_forall. intros Hc Hw Hin. apply Hw in Hin. congruence. Qed.

Lemma digit_not (c : cp) (w : str) :
  isdecimal c = false -> Forall (fun x => isdecimal x = true) w -> ~ In c w.
Proof. rewrite Forall_forall. intros Hc Hw Hin. apply Hw in Hin. congruence. Qed.

Lemma no_final_lf (x y ext : str) :
  ext <> [] -> Forall (fun c => is_alnum_ascii c = true) ext -> x ++ ext <> y ++ [LF].
Proof.
  intros Hne Hext E. destruct (exists_last Hne) as (ext' & z & ->).
  rewrite app_assoc in E. apply app_inj_tail in E. destruct E as [_ ->].
  apply Forall_app in Hext. destruct Hext as [_ Hz]. inversion Hz as [|? ? H _].
  discriminate H.
Qed.

Lemma date_digits_unique (pfx d8 ds ext a w2 w3 w4 : str) :
  length d8 = 8%nat -> length w2 = 8%nat ->
  Forall (fun c => isdecimal c = true) ds -> Forall (fun c => isdecimal c = true) w3 ->
  Forall (fun c => is_alnum_ascii c = true) ext ->
  Forall (fun c => is_alnum_ascii c = true) w4 ->
  pfx ++ 45 :: d8 ++ 45 :: 87 :: 65 :: ds ++ DOT :: ext
  = a ++ 45 :: w2 ++ 45 :: 87 :: 65 :: w3 ++ DOT :: w4 ->
  w2 = d8.
Proof.
  intros L8 L2 Fs F3 Fe F4 E.
  assert (Hdot : forall x y z t : str,
             x ++ 45 :: y ++ 45 :: 87 :: 65 :: z ++ DOT :: t
             = (x ++ 45 :: y ++ 45 :: 87 :: 65 :: z) ++ DOT :: t).
  { intros. repeat (rewrite <- app_assoc; cbn [app]). reflexivity. }
  rewrite !Hdot in E. apply last_unique in E; [|now apply alnum_not..].
  destruct E as [E _].
  assert (HA : forall x y z : str,
             x ++ 45 :: y ++ 45 :: 87 :: 65 :: z = ((x ++ 45 :: y) ++ [45; 87]) ++ 65 :: z).
  { intros. repeat (rewrite <- app_assoc; cbn [app]). reflexivity. }
  rewrite !HA in E. apply last_unique in E; [|now apply digit_not..].
  destruct E as [E _]. apply app_inv_tail in E.
  apply same_suffix in E; [|cbn [length]; congruence].
  destruct E as [_ E]. now injection E.
Qed.

Lemma date_from_name_first (pfx d8 ds ext : str) :
  ~ In LF pfx ->
  length d8 = 8%nat -> Forall (fun c => isdecimal c = true) d8 ->
  ds <> [] -> Forall (fun c => isdecimal c = true) ds ->
  ext <> [] -> (length ext <= 5)%nat -> Forall (fun c => is_alnum_ascii c = true) ext ->
  exists m,
    match_ date_from_name (pfx ++ 45 :: d8 ++ 45 :: 87 :: 65 :: ds ++ DOT :: ext) = Some m
    /\ group 1 m = d8.
Proof.
  intros Hlf L8 F8 Ns Fs Ne Le Fe.
  set (nm := pfx ++ 45 :: d8 ++ 45 :: 87 :: 65 :: ds ++ DOT :: ext).
  assert (Hshape : date_from_name = cat DATE_ITEMS)
    by exact (proj2 (proj2 file_patterns_shape)).
  assert (Hall : forall x, In x (run (cat DATE_ITEMS) (init nm)) -> group 1 x = d8).
  { intros x Hx. apply in_date_items in Hx.
    destruct Hx as (a & w2 & w3 & w4 & [Hr _] & G & Hend & _ & L2 & _ & _ & F3 & N4 & _ & F4).
    cbn [init m_rest m_groups] in Hr, G.
    unfold group. rewrite G. cbn [lookup Nat.eqb].
    destruct Hend as [Hend|Hend]; rewrite Hend in Hr.
    - rewrite app_nil_r in Hr. unfold nm in Hr.
      now apply (date_digits_unique pfx d8 ds ext a w2 w3 w4).
    - exfalso.
      assert (Hsplit : forall x y z t : str,
                 x ++ 45 :: y ++ 45 :: 87 :: 65 :: z ++ DOT :: t
                 = (x ++ 45 :: y ++ 45 :: 87 :: 65 :: z ++ [DOT]) ++ t).
      { intros. repeat (rewrite <- app_assoc; cbn [app]). reflexivity. }
      unfold nm in Hr. rewrite (Hsplit pfx) in Hr.
      exact (no_final_lf _ _ ext Ne Fe Hr). }
  assert (Hex : In {| m_pos := length nm; m_rest := []; m_groups := [(1%nat, d8)] |}
                   (run (cat DATE_ITEMS) (init nm))).
  { apply in_date_items. exists pfx, d8, ds, ext.
    split; [split; cbn [init m_rest m_pos]; [now rewrite app_nil_r | reflexivity]|].
    split; [reflexivity|]. split; [now left|]. repeat (split; trivial). }
  unfold match_. rewrite Hshape.
  destruct (run (cat DATE_ITEMS) (init nm)) as [|m l]; [destruct Hex|].
  exists m. split; [reflexivity|]. apply Hall. now left.
Qed.

End Date_digits.

(** The date that the second loop of [link_attachments] reads in a file
    name is the date of the eight digits before [-WA], read as year, month
    and day; hyphens and dots before them change nothing, and digits that
    are no date give no date. *)
Theorem name_date_digits `{U : Unicode} (nm d8 : str) :
  dated_name nm d8 ->
  name_date nm = match Strptime.strptime d8 (u "%Y%m%d") with
                 | Some t => Some (date_of t)
                 | None => None
                 end.
Proof.
  intros (pfx & ds & ext & -> & Hlf & L8 & F8 & Ns & Fs & Ne & Le & Fe).
  destruct (date_from_name_first pfx d8 ds ext Hlf L8 F8 Ns Fs Ne Le Fe) as (m & Hm & Hg).
  unfold name_date.
  change (pfx ++ u "-" ++ d8 ++ u "-WA" ++ ds ++ [DOT] ++ ext)
    with (pfx ++ 45 :: d8 ++ 45 :: 87 :: 65 :: ds ++ DOT :: ext).
  now rewrite Hm, Hg.
Qed.

(** A picture of 5 March 2024, and a name whose digits are no date. *)
Lemma name_date_digits_witness :
  @dated_name latin1 IMG_NAME (u "20240305")
  /\ @name_date latin1 IMG_NAME = Some (2024, 3, 5)
  /\ @dated_name latin1 (u "my-file.v2-20241305-WA0001.jpg") (u "20241305")
  /\ @name_date latin1 (u "my-file.v2-20241305-WA0001.jpg") = None.
Proof.
  assert (H1 : @dated_name latin1 IMG_NAME (u "20240305")).
  { exists (u "IMG"), (u "0001"), (u "jpg").
    split; [reflexivity|]. split; [vm_compute; intuition discriminate|].
    split; [reflexivity|]. split; [repeat constructor|].
    split; [discriminate|]. split; [repeat constructor|].
    split; [discriminate|]. split; [cbn; lia|]. repeat constructor. }
  assert (H2 : @dated_name latin1 (u "my-file.v2-20241305-WA0001.jpg") (u "20241305")).
  { exists (u "my-file.v2"), (u "0001"), (u "jpg").
    split; [reflexivity|]. split; [vm_compute; intuition discriminate|].
    split; [reflexivity|]. split; [repeat constructor|].
    split; [discriminate|]. split; [repeat constructor|].
    split; [discriminate|]. split; [cbn; lia|]. repeat constructor. }
  split; [exact H1|]. split; [|split; [exact H2|]].
  - rewrite (@name_date_digits latin1 _ _ H1). vm_compute. reflexivity.
  - rewrite (@name_date_digits latin1 _ _ H2). vm_compute. reflexivity.
Defined.
